(** * snmp_exporter: OID utilities and the DISPLAY-HINT formatter

    A shallow embedding of [oid/oid.go] and of the two revisions of
    [collector/display_hint.go] (the single-pass formatter and the
    revision with a stack buffer and [applyDisplayHintLarge]), followed by
    the properties proved about them.

    Conventions of the embedding:
    - Go's [int] is 32 or 64 bits wide depending on the build target; the
      width is the parameter [Arch] and every [int] operation that can leave
      the range is written with its wrap-around.  Increments of a cursor that
      are guarded by [cursor < len(...)] stay below the length, which Go keeps
      within [int], and are written as plain additions.
    - A Go [string] and a [[]byte] are both [list byte]; a byte is read as the
      number 0..255 by [u8].
    - A function body runs in the [outcome] monad: it yields a value, leaves
      the function by [return], panics, or runs out of the fuel that bounds
      its loops. *)

From Stdlib Require Import ZArith Lia Bool.
From Stdlib Require Import Strings.Byte Strings.String.
From stdpp Require Import base list gmap.

Open Scope Z_scope.

(** ** Machine integers *)

Inductive Arch : Set := Arch32 | Arch64.

Definition intSize (a : Arch) : Z :=
  match a with Arch32 => 32 | Arch64 => 64 end.

Definition max_int (a : Arch) : Z := 2 ^ (intSize a - 1) - 1.
Definition min_int (a : Arch) : Z := - 2 ^ (intSize a - 1).

(** Two's complement wrap-around of an [int] result. *)
Definition wrap_int (a : Arch) (x : Z) : Z :=
  (x + 2 ^ (intSize a - 1)) mod 2 ^ intSize a - 2 ^ (intSize a - 1).

Definition int_add (a : Arch) (x y : Z) : Z := wrap_int a (x + y).
Definition int_mul (a : Arch) (x y : Z) : Z := wrap_int a (x * y).

(** Go's [/] on [int] truncates towards zero. *)
Definition int_quot (a : Arch) (x y : Z) : Z := wrap_int a (Z.quot x y).

Definition wrap_u64 (x : Z) : Z := x mod 2 ^ 64.

(** ** Bytes and strings *)

Definition u8 (b : byte) : Z := Z.of_N (Byte.to_N b).

Definition byte_of_Z (z : Z) : byte :=
  match Byte.of_N (Z.to_N (z mod 256)) with
  | Some b => b
  | None => x00
  end.

(** [b - c] on [uint8]. *)
Definition byte_sub (b c : byte) : byte := byte_of_Z (u8 b - u8 c).

(** [b == c] on bytes. *)
Definition byte_eqb (b c : byte) : bool := u8 b =? u8 c.

Definition len {A : Type} (l : list A) : Z := Z.of_nat (length l).

(** A string literal as the bytes of a Go string. *)
Definition str (s : string) : list byte := list_byte_of_string s.

(** A [[]byte] literal from numbers. *)
Definition bytes (l : list Z) : list byte := map byte_of_Z l.

(** ** Outcomes of a function body *)

Inductive outcome (R A : Type) : Type :=
| Val (x : A)          (* the block completed with a value *)
| Return (r : R)       (* a [return] statement left the function *)
| Panic                (* a run-time panic *)
| OutOfFuel.           (* a loop used up its fuel *)

Arguments Val {R A} x.
Arguments Return {R A} r.
Arguments Panic {R A}.
Arguments OutOfFuel {R A}.

#[global] Instance outcome_ret {R : Type} : MRet (outcome R) := fun A x => Val x.

#[global] Instance outcome_bind {R : Type} : MBind (outcome R) :=
  fun A B (k : A -> outcome R B) (m : outcome R A) =>
    match m with
    | Val x => k x
    | Return r => Return r
    | Panic => Panic
    | OutOfFuel => OutOfFuel
    end.

(** The result of a whole function: it never completes without [return]. *)
Abbreviation fn_result R := (outcome R Empty_set).

(** [s[i]]: panics when the index is out of range. *)
Definition index {R A : Type} (s : list A) (i : Z) : outcome R A :=
  if (0 <=? i) && (i <? len s) then
    match s !! Z.to_nat i with
    | Some x => Val x
    | None => Panic
    end
  else Panic.

(** [s[i] = v]: panics when the index is out of range. *)
Definition set_index {R A : Type} (s : list A) (i : Z) (v : A) : outcome R (list A) :=
  if (0 <=? i) && (i <? len s) then Val (<[Z.to_nat i := v]> s) else Panic.

(** [s[lo:hi]]: panics unless [0 <= lo <= hi <= len(s)].  (Go allows [hi]
    up to the capacity; the length is the stricter bound.) *)
Definition slice {R A : Type} (s : list A) (lo hi : Z) : outcome R (list A) :=
  if (0 <=? lo) && (lo <=? hi) && (hi <=? len s)
  then Val (take (Z.to_nat (hi - lo)) (drop (Z.to_nat lo) s))
  else Panic.

(** [make([]int, n)]: a zero-filled slice; panics on a negative length. *)
Definition make_ints {R : Type} (n : Z) : outcome R (list Z) :=
  if n <? 0 then Panic else Val (replicate (Z.to_nat n) 0).

(** A call: the callee's [return] value is the value of the call
    expression; a panic in the callee propagates. *)
Definition call {R A : Type} (m : outcome A Empty_set) : outcome R A :=
  match m with
  | Val x => match x with end
  | Return r => Val r
  | Panic => Panic
  | OutOfFuel => OutOfFuel
  end.

(** [c && m] and [c || m] with Go's short-circuit evaluation. *)
Definition and_then {R : Type} (c : bool) (m : outcome R bool) : outcome R bool :=
  if c then m else Val false.

Definition or_else {R : Type} (c : bool) (m : outcome R bool) : outcome R bool :=
  if c then Val true else m.

(** ** The Go standard library, as far as the code uses it *)

Module strconv.

(** The digit table of [strconv]. *)
Definition digits : list byte := str "0123456789abcdefghijklmnopqrstuvwxyz".

Definition digit (d : Z) : byte := nth (Z.to_nat d) digits x00.

(** The digits of [u] in [base], most significant first, pushed in front
    of [acc].  A [uint64] has at most 64 digits in any base. *)
Fixpoint formatBits (fuel : nat) (u base : Z) (acc : list byte) : list byte :=
  match fuel with
  | O => acc
  | S fuel' =>
      if u <? base then digit u :: acc
      else formatBits fuel' (u / base) base (digit (u mod base) :: acc)
  end.

(** [AppendUint(dst, i, base)] for a [uint64] [i] and [2 <= base <= 36]. *)
Definition AppendUint (dst : list byte) (i base : Z) : list byte :=
  dst ++ formatBits 64 i base [].

(** [Itoa(i)]: decimal, with a minus sign for a negative [i]. *)
Definition Itoa (i : Z) : list byte :=
  if i <? 0 then "-"%byte :: formatBits 64 (- i) 10 []
  else formatBits 64 i 10 [].

Definition isDecimal (c : byte) : bool := (48 <=? u8 c) && (u8 c <=? 57).

(** [Atoi(s)]: the value and whether an error is reported.  A syntax
    error gives 0; a value out of the range of [int] gives the nearest
    bound (and an error). *)
Definition Atoi (a : Arch) (s : list byte) : Z * bool :=
  let '(neg, ds) :=
    match s with
    | c :: rest =>
        if u8 c =? 43 then (false, rest)
        else if u8 c =? 45 then (true, rest)
        else (false, s)
    | [] => (false, s)
    end in
  match ds with
  | [] => (0, true)
  | _ :: _ =>
      if forallb isDecimal ds then
        let un := foldl (fun n c => n * 10 + (u8 c - 48)) 0 ds in
        let n := if neg then - un else un in
        if max_int a <? n then (max_int a, true)
        else if n <? min_int a then (min_int a, true)
        else (n, false)
      else (0, true)
  end.

End strconv.

Module strings.

(** [SplitSeq(s, ".")]: the substrings of [s] between the dots, in
    order; a string without a dot (the empty one too) gives itself. *)
Fixpoint SplitSeq_dot (s : list byte) : list (list byte) :=
  match s with
  | [] => [[]]
  | c :: s' =>
      if u8 c =? 46 then [] :: SplitSeq_dot s'
      else match SplitSeq_dot s' with
           | x :: xs => (c :: x) :: xs
           | [] => [[c]]
           end
  end.

(** [Builder.Grow(n)]: reserves capacity and leaves the contents as they
    are; panics on a negative count. *)
Definition Grow {R : Type} (b : list byte) (n : Z) : outcome R (list byte) :=
  if n <? 0 then Panic else Val b.

(** [Count(s, ".")]: the number of dots in [s]. *)
Definition Count_dot (s : list byte) : Z :=
  len (filter (fun c => u8 c = 46) s).

(** [Join(elems, sep)]: the elements with [sep] between each two. *)
Fixpoint Join (elems : list (list byte)) (sep : list byte) : list byte :=
  match elems with
  | [] => []
  | x :: rest =>
      match rest with
      | [] => x
      | _ :: _ => x ++ sep ++ Join rest sep
      end
  end.

(** [Split(s, sep)] for a separator of one byte: the substrings of [s]
    between the separators; a string without separator gives itself. *)
Fixpoint Split (s : list byte) (sep : byte) : list (list byte) :=
  match s with
  | [] => [[]]
  | c :: s' =>
      if byte_eqb c sep then [] :: Split s' sep
      else match Split s' sep with
           | x :: xs => (c :: x) :: xs
           | [] => [[c]]
           end
  end.

End strings.

(** ** oid/oid.go *)

Module oid.

(** [ToList] converts an OID string to a slice of integers. *)
Definition ToList (a : Arch) (oid : list byte) : list Z :=
  (* make([]int, 0, strings.Count(oid, ".")+1): an empty slice *)
  foldl (fun result x => let '(o, _) := strconv.Atoi a x in result ++ [o])
        [] (strings.SplitSeq_dot oid).

Fixpoint FromList_loop (i : Z) (l : list Z) (result : list byte) : list byte :=
  match l with
  | [] => result
  | o :: l' =>
      let result := if 0 <? i then result ++ ["."%byte] else result in
      FromList_loop (i + 1) l' (result ++ strconv.Itoa o)
  end.

(** [FromList] converts a slice of integers to an OID string. *)
Definition FromList (a : Arch) (l : list Z) : fn_result (list byte) :=
  if len l =? 0 then Return []
  else
    result ← strings.Grow [] (int_mul a (len l) 4);
    Return (FromList_loop 0 l result).

Fixpoint Split_loop {R : Type} (count i : Z) (oid head tail : list Z)
  : outcome R (list Z * list Z) :=
  match oid with
  | [] => Val (head, tail)
  | v :: oid' =>
      if i <? count then
        head ← set_index head i v;
        Split_loop count (i + 1) oid' head tail
      else Split_loop count (i + 1) oid' head (tail ++ [v])
  end.

(** [Split] splits an OID slice at the given count, right-padding the
    head with zeros. *)
Definition Split (oid : list Z) (count : Z) : fn_result (list Z * list Z) :=
  head ← make_ints count;
  (* tail := make([]int, 0, max(len(oid)-count, 0)): an empty slice *)
  '(head, tail) ← Split_loop count 0 oid head [];
  Return (head, tail).

End oid.

(** ** collector/benchmark_test.go: the implementations kept for comparison *)

Module collector_test.

Definition oidToListOriginal (a : Arch) (oid : list byte) : list Z :=
  (* result := []int{} *)
  foldl (fun result x => let '(o, _) := strconv.Atoi a x in result ++ [o])
        [] (strings.SplitSeq_dot oid).

Definition listToOidOriginal (l : list Z) : list byte :=
  (* var result []string *)
  let result := foldl (fun result o => result ++ [strconv.Itoa o]) [] l in
  strings.Join result (str ".").

Fixpoint splitOidOriginal_loop {R : Type} (count i : Z) (oid head tail : list Z)
  : outcome R (list Z * list Z) :=
  match oid with
  | [] => Val (head, tail)
  | v :: oid' =>
      if i <? count then
        head ← set_index head i v;
        splitOidOriginal_loop count (i + 1) oid' head tail
      else splitOidOriginal_loop count (i + 1) oid' head (tail ++ [v])
  end.

Definition splitOidOriginal (oid : list Z) (count : Z)
  : fn_result (list Z * list Z) :=
  head ← make_ints count;
  (* tail := []int{} *)
  '(head, tail) ← splitOidOriginal_loop count 0 oid head [];
  Return (head, tail).

End collector_test.

(** ** The generator's tree of the MIB and its MIB directories (the file
    behind oid.go in the source listing) *)

Module generator.

(** *** The tree of the MIB, in a store of nodes, backing arrays and maps *)

(** An address in the store. *)
Abbreviation loc := nat.

(** A slice value: its backing array, the index of its first element in
    that array, its length and its capacity.  The [nil] slice is [None]. *)
Record slice_header : Set := Slice {
  array : loc;
  offset : nat;
  slen : nat;
  scap : nat
}.

(** One entry in the tree of the MIB. *)
Record Node : Set := mkNode {
  Oid : list byte;
  subid : Z;
  Module_ : list byte;
  Label : list byte;
  Augments : list byte;
  Children : option slice_header;            (* []*Node *)
  Description : list byte;
  Type_ : list byte;
  Hint_ : list byte;
  TextualConvention : list byte;
  FixedSize : Z;
  Units : list byte;
  Access : list byte;
  EnumValues : option loc;            (* map[int]string, [nil] is [None] *)
  Indexes : option slice_header;             (* []string *)
  ImpliedIndex : bool
}.

(** [n.Children = c], [n.EnumValues = m] and [n.Indexes = s] on a struct
    value. *)
Definition with_Children (n : Node) (c : option slice_header) : Node :=
  mkNode (Oid n) (subid n) (Module_ n) (Label n) (Augments n) c
    (Description n) (Type_ n) (Hint_ n) (TextualConvention n) (FixedSize n)
    (Units n) (Access n) (EnumValues n) (Indexes n) (ImpliedIndex n).

Definition with_EnumValues (n : Node) (m : option loc) : Node :=
  mkNode (Oid n) (subid n) (Module_ n) (Label n) (Augments n) (Children n)
    (Description n) (Type_ n) (Hint_ n) (TextualConvention n) (FixedSize n)
    (Units n) (Access n) m (Indexes n) (ImpliedIndex n).

Definition with_Indexes (n : Node) (s : option slice_header) : Node :=
  mkNode (Oid n) (subid n) (Module_ n) (Label n) (Augments n) (Children n)
    (Description n) (Type_ n) (Hint_ n) (TextualConvention n) (FixedSize n)
    (Units n) (Access n) (EnumValues n) s (ImpliedIndex n).

(** What an address of the store holds: a [Node], the backing array of a
    [[]*Node] or of a [[]string], or a [map[int]string]. *)
Inductive object : Type :=
| ONode (n : Node)
| OPointers (a : list (option loc))
| OStrings (a : list (list byte))
| OMap (m : gmap Z (list byte)).

Abbreviation store := (list object).

(** A fresh object: its address is the next free one. *)
Definition new (h : store) (o : object) : loc * store := (length h, h ++ [o]).

(** [len(s)] and [cap(s)]. *)
Definition slice_len (s : option slice_header) : nat :=
  match s with Some s => slen s | None => 0%nat end.

Definition slice_cap (s : option slice_header) : nat :=
  match s with Some s => scap s | None => 0%nat end.

(** [*p]: panics on the [nil] pointer. *)
Definition load {R : Type} (h : store) (p : option loc) : outcome R Node :=
  match p with
  | Some l =>
      match h !! l with
      | Some (ONode n) => Val n
      | _ => Panic
      end
  | None => Panic
  end.

(** [s[i]] on a [[]*Node]. *)
Definition pointer_at {R : Type} (h : store) (s : option slice_header) (i : nat)
  : outcome R (option loc) :=
  match s with
  | Some s =>
      if (i <? slen s)%nat then
        match h !! array s with
        | Some (OPointers a) =>
            match a !! (offset s + i)%nat with
            | Some p => Val p
            | None => Panic
            end
        | _ => Panic
        end
      else Panic
  | None => Panic
  end.

(** The elements of a slice. *)
Definition pointers_of {R : Type} (h : store) (s : option slice_header)
  : outcome R (list (option loc)) :=
  match s with
  | Some s =>
      match h !! array s with
      | Some (OPointers a) => Val (take (slen s) (drop (offset s) a))
      | _ => Panic
      end
  | None => Val []
  end.

Definition strings_of {R : Type} (h : store) (s : option slice_header)
  : outcome R (list (list byte)) :=
  match s with
  | Some s =>
      match h !! array s with
      | Some (OStrings a) => Val (take (slen s) (drop (offset s) a))
      | _ => Panic
      end
  | None => Val []
  end.

(** [copy(dst, src)] on [[]string]: the first [min(len(dst), len(src))]
    elements of [src] are written to [dst]. *)
Definition copy_strings {R : Type} (h : store) (dst src : option slice_header)
  : outcome R store :=
  elems ← strings_of h src;
  let n := Nat.min (slice_len dst) (slice_len src) in
  match dst with
  | Some d =>
      match h !! array d with
      | Some (OStrings a) =>
          Val (<[array d := OStrings (take (offset d) a ++ take n elems
                                       ++ drop (offset d + n) a)]> h)
      | _ => Panic
      end
  | None => Val h
  end.

(** [m[k] = v]: panics on the [nil] map. *)
Definition map_store {R : Type} (h : store) (m : option loc) (k : Z)
    (v : list byte) : outcome R store :=
  match m with
  | Some l =>
      match h !! l with
      | Some (OMap entries) => Val (<[l := OMap (<[k := v]> entries)]> h)
      | _ => Panic
      end
  | None => Panic
  end.

Section Copy.
(** The capacity that [append] chooses when it has to reallocate, and the
    order in which [range] visits a map: the language fixes neither. *)
Variable growslice : nat -> nat.
Variable range_order : gmap Z (list byte) -> list (Z * list byte).

(** [append(s, p)] on a [[]*Node]: in place while the capacity lasts. *)
Definition append_pointer {R : Type} (h : store) (s : option slice_header)
    (p : option loc) : outcome R (option slice_header * store) :=
  if (slice_len s <? slice_cap s)%nat then
    match s with
    | Some s =>
        match h !! array s with
        | Some (OPointers a) =>
            Val (Some (Slice (array s) (offset s) (S (slen s)) (scap s)),
                 <[array s := OPointers (<[(offset s + slen s)%nat := p]> a)]> h)
        | _ => Panic
        end
    | None => Panic
    end
  else
    elems ← pointers_of h s;
    let c := growslice (S (slice_len s)) in
    let '(a, h) :=
      new h (OPointers (elems ++ p :: replicate (c - S (slice_len s)) None)) in
    Val (Some (Slice a 0 (S (slice_len s)) c), h).

(** The entries that [range m] visits; none for the [nil] map. *)
Definition map_range {R : Type} (h : store) (m : option loc)
  : outcome R (list (Z * list byte)) :=
  match m with
  | Some l =>
      match h !! l with
      | Some (OMap entries) => Val (range_order entries)
      | _ => Panic
      end
  | None => Val []
  end.

(** [for _, child := range n.Children
      { newNode.Children = append(newNode.Children, child.Copy()) }]. *)
Fixpoint children_loop {R : Type}
    (Copy : store -> option loc -> fn_result (option loc * store))
    (src : option slice_header) (todo i : nat) (h : store) (dst : option slice_header)
  : outcome R (option slice_header * store) :=
  match todo with
  | O => Val (dst, h)
  | S todo' =>
      child ← pointer_at h src i;
      '(c, h) ← call (Copy h child);
      '(dst, h) ← append_pointer h dst c;
      children_loop Copy src todo' (S i) h dst
  end.

(** [for k, v := range n.EnumValues { newNode.EnumValues[k] = v }]. *)
Fixpoint enums_loop {R : Type} (entries : list (Z * list byte)) (h : store)
    (dst : option loc) : outcome R store :=
  match entries with
  | [] => Val h
  | (k, v) :: entries' =>
      h ← map_store h dst k v;
      enums_loop entries' h dst
  end.

(** [Copy] returns a deep copy of the tree underneath the current Node.
    The recursion is as deep as the tree; [fuel] bounds it. *)
Fixpoint Copy (fuel : nat) (h : store) (n : option loc)
  : fn_result (option loc * store) :=
  match fuel with
  | O => OutOfFuel
  | S fuel' =>
      newNode ← load h n;
      n_ ← load h n;
      let '(a, h) :=
        new h (OPointers (replicate (slice_len (Children n_)) None)) in
      let newNode :=
        with_Children newNode
          (Some (Slice a 0 0 (slice_len (Children n_)))) in
      n_ ← load h n;
      (* [len(n.EnumValues)] is a size hint *)
      let '(m, h) := new h (OMap ∅) in
      let newNode := with_EnumValues newNode (Some m) in
      n_ ← load h n;
      let '(a, h) :=
        new h (OStrings (replicate (slice_len (Indexes n_)) [])) in
      let newNode :=
        with_Indexes newNode
          (Some (Slice a 0 (slice_len (Indexes n_)) (slice_len (Indexes n_)))) in
      n_ ← load h n;
      h ← copy_strings h (Indexes newNode) (Indexes n_);
      (* Deep copy children and enums. *)
      n_ ← load h n;
      '(children, h) ←
        children_loop (Copy fuel') (Children n_) (slice_len (Children n_)) 0 h
          (Children newNode);
      let newNode := with_Children newNode children in
      n_ ← load h n;
      entries ← map_range h (EnumValues n_);
      h ← enums_loop entries h (EnumValues newNode);
      let '(p, h) := new h (ONode newNode) in
      Return (Some p, h)
  end.

End Copy.

(** *** The MIB directories *)

(** [getMibsDir] returns the MIB directories as a string. *)
Definition getMibsDir (paths : list (list byte)) : fn_result (list byte) :=
  c ← and_then (len paths =? 1) (p ← index paths 0; mret (len p =? 0));
  if c : bool then Return (str "/usr/share/snmp/mibs")
  else Return (strings.Join paths (str ":")).

End generator.

(** ** The local variables of the formatter

    The three formatter bodies declare the same local variables; they are
    grouped in two records. *)

(** What one pass over a format specification leaves in the locals. *)
Record spec : Set := Spec {
  starPrefix : bool;
  take_ : Z;
  fmtChar : byte;
  hasSep : bool;
  sep : byte;
  hasTerm : bool;
  term : byte
}.

(** The variables that live across iterations of the outer loop. *)
Record locals : Set := Locals {
  hintPos : Z;
  dataPos : Z;
  lastSpecStart : Z;
  lastSpecConsumesByte : bool;
  result : list byte
}.

(** [(string, bool)]. *)
Definition text_ok : Type := (list byte * bool)%type.

(** ** collector/display_hint.go: the single-pass formatter *)

Module collector.

(** hexDigits is a lookup table for uppercase hex digits. *)
Definition hexDigits : list byte := str "0123456789ABCDEF".

Section applyDisplayHint.
Variable a : Arch.
Variables hint data : list byte.

(** Lines 86-89: the octet length, digit by digit. *)
Fixpoint take_loop (fuel : nat) (take hintPos : Z) : outcome text_ok (Z * Z) :=
  c ← and_then (hintPos <? len hint)
        (b ← index hint hintPos;
         and_then (u8 "0" <=? u8 b)
           (b ← index hint hintPos; mret (u8 b <=? u8 "9")));
  if c : bool then
    match fuel with
    | O => OutOfFuel
    | S fuel' =>
        b ← index hint hintPos;
        take_loop fuel'
          (int_add a (int_mul a take 10) (u8 (byte_sub b "0")))
          (hintPos + 1)
    end
  else mret (take, hintPos).

(** [(hint[p] < '0' || hint[p] > '9')]. *)
Definition not_digit_at (p : Z) : outcome text_ok bool :=
  b ← index hint p;
  or_else (u8 b <? u8 "0") (b ← index hint p; mret (u8 "9" <? u8 b)).

(** Lines 73-122: one format specification is read at [hintPos]; any
    parse error leaves the function with [("", false)]. *)
Definition parse_spec (hintPos : Z) : outcome text_ok (spec * Z) :=
  (* (1) Optional '*' repeat indicator *)
  starPrefix ← and_then (hintPos <? len hint)
                 (b ← index hint hintPos; mret (byte_eqb b "*"));
  let hintPos := if starPrefix : bool then hintPos + 1 else hintPos in
  (* (2) Octet length - one or more decimal digits (required) *)
  bad ← or_else (len hint <=? hintPos) (not_digit_at hintPos);
  if bad : bool then Return ([], false) else
  '(take, hintPos) ← take_loop (length hint) 0 hintPos;
  if take <? 0 then Return ([], false) else
  (* (3) Format character (required) *)
  if len hint <=? hintPos then Return ([], false) else
  fmtChar ← index hint hintPos;
  if negb (byte_eqb fmtChar "d") && negb (byte_eqb fmtChar "x")
     && negb (byte_eqb fmtChar "o") && negb (byte_eqb fmtChar "a")
     && negb (byte_eqb fmtChar "t")
  then Return ([], false) else
  let hintPos := hintPos + 1 in
  (* (4) Optional separator *)
  c ← and_then (hintPos <? len hint)
        (nd ← not_digit_at hintPos;
         and_then nd (b ← index hint hintPos; mret (negb (byte_eqb b "*"))));
  '(sep, hasSep, hintPos) ←
    (if c : bool then b ← index hint hintPos; mret (b, true, hintPos + 1)
     else mret (x00, false, hintPos));
  (* (5) Optional terminator (only valid with starPrefix) *)
  c ← and_then (starPrefix && (hintPos <? len hint))
        (nd ← not_digit_at hintPos;
         and_then nd (b ← index hint hintPos; mret (negb (byte_eqb b "*"))));
  '(term, hasTerm, hintPos) ←
    (if c : bool then b ← index hint hintPos; mret (b, true, hintPos + 1)
     else mret (x00, false, hintPos));
  mret (Spec starPrefix take fmtChar hasSep sep hasTerm term, hintPos).

(** [for _, b := range chunk { val = (val << 8) | uint64(b) }]. *)
Definition be_uint64 (chunk : list byte) : Z :=
  foldl (fun val b => Z.lor (wrap_u64 (Z.shiftl val 8)) (u8 b)) 0 chunk.

(** Lines 151-154: two hex digits per byte. *)
Fixpoint hex_loop (chunk result : list byte) : outcome text_ok (list byte) :=
  match chunk with
  | [] => mret result
  | b :: chunk' =>
      hi ← index hexDigits (Z.shiftr (u8 b) 4);
      let result := result ++ [hi] in
      lo ← index hexDigits (Z.land (u8 b) 15);
      let result := result ++ [lo] in
      hex_loop chunk' result
  end.

(** Lines 142-164: the [switch fmtChar]. *)
Definition format_chunk (fmtChar : byte) (chunk result : list byte)
  : outcome text_ok (list byte) :=
  if byte_eqb fmtChar "d" then
    let val := be_uint64 chunk in
    mret (result ++ strconv.AppendUint [] val 10)
  else if byte_eqb fmtChar "x" then hex_loop chunk result
  else if byte_eqb fmtChar "o" then
    let val := be_uint64 chunk in
    mret (result ++ strconv.AppendUint [] val 8)
  else if byte_eqb fmtChar "a" || byte_eqb fmtChar "t" then
    mret (result ++ chunk)
  else mret result.

(** Lines 135-171: [for r := 0; r < repeatCount && dataPos < len(data); r++]. *)
Fixpoint repeat_loop (fuel : nat) (sp : spec) (repeatCount r dataPos : Z)
    (result : list byte) : outcome text_ok (Z * list byte) :=
  if (r <? repeatCount) && (dataPos <? len data) then
    match fuel with
    | O => OutOfFuel
    | S fuel' =>
        let end_ := int_add a dataPos (take_ sp) in
        let end_ :=
          if (len data <? end_) || (end_ <? dataPos) then len data else end_ in
        chunk ← slice data dataPos end_;
        result ← format_chunk (fmtChar sp) chunk result;
        let dataPos := end_ in
        (* Emit separator (suppressed if at end of data or before terminator) *)
        let result :=
          if hasSep sp && (dataPos <? len data)
             && (negb (hasTerm sp) || negb (r =? repeatCount - 1))
          then result ++ [sep sp] else result in
        repeat_loop fuel' sp repeatCount (r + 1) dataPos result
    end
  else mret (dataPos, result).

(** Lines 128-176: the specification is applied to the data. *)
Definition apply_spec (sp : spec) (dataPos : Z) (result : list byte)
  : outcome text_ok (Z * list byte) :=
  '(repeatCount, dataPos) ←
    (if starPrefix sp && (dataPos <? len data)
     then b ← index data dataPos; mret (u8 b, dataPos + 1)
     else mret (1, dataPos));
  '(dataPos, result) ←
    repeat_loop (Z.to_nat repeatCount) sp repeatCount 0 dataPos result;
  (* Emit terminator after repeat group *)
  let result :=
    if hasTerm sp && (dataPos <? len data) then result ++ [term sp]
    else result in
  mret (dataPos, result).

(** Lines 61-176: the body of the outer loop. *)
Definition iteration (st : locals) : outcome text_ok locals :=
  let specStart := hintPos st in
  (* If we've exhausted the hint, restart from the last spec *)
  '(hintPos, specStart) ←
    (if len hint <=? hintPos st then
       if negb (lastSpecConsumesByte st) then Return ([], false)
       else mret (lastSpecStart st, lastSpecStart st)
     else mret (hintPos st, specStart));
  '(sp, hintPos) ← parse_spec hintPos;
  (* Remember this spec for implicit repetition *)
  let lastSpecStart := specStart in
  let lastSpecConsumesByte := (0 <? take_ sp) || starPrefix sp in
  '(dataPos, result) ← apply_spec sp (dataPos st) (result st);
  mret (Locals hintPos dataPos lastSpecStart lastSpecConsumesByte result).

(** Lines 60-179: [for dataPos < len(data)] and the final [return]. *)
Fixpoint loop (fuel : nat) (st : locals) : fn_result text_ok :=
  if dataPos st <? len data then
    match fuel with
    | O => OutOfFuel
    | S fuel' => st' ← iteration st; loop fuel' st'
    end
  else Return (result st, true).

Definition applyDisplayHint_fuel (fuel : nat) : fn_result text_ok :=
  if (len hint =? 0) || (len data =? 0) then Return ([], false)
  else
    result ← strings.Grow [] (int_mul a (len data) 3);
    loop fuel (Locals 0 0 0 false result).

(** Every iteration of the outer loop moves one of the two cursors
    forward (proved below), so this much fuel is never used up. *)
Definition applyDisplayHint : fn_result text_ok :=
  applyDisplayHint_fuel (length hint + length data).

End applyDisplayHint.

End collector.

(** ** The revision of display_hint.go with a stack buffer for short outputs *)

Module collector2.

(** hexDigits is a lookup table for uppercase hex digits. *)
Definition hexDigits : list byte := str "0123456789ABCDEF".

(** smallBufferSize is the threshold for using stack-allocated buffers. *)
Definition smallBufferSize : Z := 64.

Definition isDigit (c : byte) : bool := (u8 "0" <=? u8 c) && (u8 c <=? u8 "9").

Section applyDisplayHint.
Variable a : Arch.
Variables hint data : list byte.

(** [for i := len(hint) - 1; i >= 0; i--] of [estimateOutputSize]. *)
Fixpoint estimate_loop (fuel : nat) (dataLen i : Z) : outcome Z unit :=
  if 0 <=? i then
    match fuel with
    | O => OutOfFuel
    | S fuel' =>
        c ← index hint i;
        if byte_eqb c "a" || byte_eqb c "t" then
          Return (int_add a (int_add a dataLen (int_quot a dataLen 8)) 1)
        else if byte_eqb c "x" then
          Return (int_add a (int_mul a dataLen 3) 1)
        else if byte_eqb c "d" || byte_eqb c "o" then
          Return (int_add a (int_mul a dataLen 4) 1)
        else estimate_loop fuel' dataLen (i - 1)
    end
  else mret ().

(** [estimateOutputSize] returns a reasonable upper bound for the
    formatted output size. *)
Definition estimateOutputSize (dataLen : Z) : fn_result Z :=
  _ ← estimate_loop (length hint) dataLen (len hint - 1);
  Return (int_add a (int_mul a dataLen 4) 1).

(** *** The stack-buffer path of [applyDisplayHint] *)

Fixpoint take_loop (fuel : nat) (take hintPos : Z) : outcome text_ok (Z * Z) :=
  c ← and_then (hintPos <? len hint)
        (b ← index hint hintPos; mret (isDigit b));
  if c : bool then
    match fuel with
    | O => OutOfFuel
    | S fuel' =>
        b ← index hint hintPos;
        take_loop fuel'
          (int_add a (int_mul a take 10) (u8 (byte_sub b "0")))
          (hintPos + 1)
    end
  else mret (take, hintPos).

(** Lines 107-160 of the revision. *)
Definition parse_spec (hintPos : Z) : outcome text_ok (spec * Z) :=
  (* (1) Optional '*' repeat indicator *)
  starPrefix ← and_then (hintPos <? len hint)
                 (b ← index hint hintPos; mret (byte_eqb b "*"));
  let hintPos := if starPrefix : bool then hintPos + 1 else hintPos in
  (* (2) Octet length - one or more decimal digits (required) *)
  bad ← or_else (len hint <=? hintPos)
          (b ← index hint hintPos; mret (negb (isDigit b)));
  if bad : bool then Return ([], false) else
  '(take, hintPos) ← take_loop (length hint) 0 hintPos;
  if take <? 0 then Return ([], false) else
  (* (3) Format character (required) *)
  if len hint <=? hintPos then Return ([], false) else
  fmtChar ← index hint hintPos;
  if negb (byte_eqb fmtChar "d") && negb (byte_eqb fmtChar "x")
     && negb (byte_eqb fmtChar "o") && negb (byte_eqb fmtChar "a")
     && negb (byte_eqb fmtChar "t")
  then Return ([], false) else
  let hintPos := hintPos + 1 in
  (* (4) Optional separator *)
  c ← and_then (hintPos <? len hint)
        (b ← index hint hintPos;
         and_then (negb (isDigit b))
           (b ← index hint hintPos; mret (negb (byte_eqb b "*"))));
  '(sep, hasSep, hintPos) ←
    (if c : bool then b ← index hint hintPos; mret (b, true, hintPos + 1)
     else mret (x00, false, hintPos));
  (* (5) Optional terminator (only valid with starPrefix) *)
  c ← and_then (starPrefix && (hintPos <? len hint))
        (b ← index hint hintPos;
         and_then (negb (isDigit b))
           (b ← index hint hintPos; mret (negb (byte_eqb b "*"))));
  '(term, hasTerm, hintPos) ←
    (if c : bool then b ← index hint hintPos; mret (b, true, hintPos + 1)
     else mret (x00, false, hintPos));
  mret (Spec starPrefix take fmtChar hasSep sep hasTerm term, hintPos).

Definition be_uint64 (chunk : list byte) : Z :=
  foldl (fun val b => Z.lor (wrap_u64 (Z.shiftl val 8)) (u8 b)) 0 chunk.

(** [result = append(result, hexDigits[b>>4], hexDigits[b&0x0F])]. *)
Fixpoint hex_loop (chunk result : list byte) : outcome text_ok (list byte) :=
  match chunk with
  | [] => mret result
  | b :: chunk' =>
      hi ← index hexDigits (Z.shiftr (u8 b) 4);
      lo ← index hexDigits (Z.land (u8 b) 15);
      hex_loop chunk' (result ++ [hi; lo])
  end.

Definition format_chunk (fmtChar : byte) (chunk result : list byte)
  : outcome text_ok (list byte) :=
  if byte_eqb fmtChar "d" then
    let val := be_uint64 chunk in
    mret (strconv.AppendUint result val 10)
  else if byte_eqb fmtChar "x" then hex_loop chunk result
  else if byte_eqb fmtChar "o" then
    let val := be_uint64 chunk in
    mret (strconv.AppendUint result val 8)
  else if byte_eqb fmtChar "a" || byte_eqb fmtChar "t" then
    mret (result ++ chunk)
  else mret result.

Fixpoint repeat_loop (fuel : nat) (sp : spec) (repeatCount r dataPos : Z)
    (result : list byte) : outcome text_ok (Z * list byte) :=
  if (r <? repeatCount) && (dataPos <? len data) then
    match fuel with
    | O => OutOfFuel
    | S fuel' =>
        let end_ := int_add a dataPos (take_ sp) in
        let end_ :=
          if (len data <? end_) || (end_ <? dataPos) then len data else end_ in
        chunk ← slice data dataPos end_;
        result ← format_chunk (fmtChar sp) chunk result;
        let dataPos := end_ in
        let moreData := dataPos <? len data in
        let result :=
          if hasSep sp && moreData
             && (negb (hasTerm sp) || negb (r =? repeatCount - 1))
          then result ++ [sep sp] else result in
        repeat_loop fuel' sp repeatCount (r + 1) dataPos result
    end
  else mret (dataPos, result).

Definition apply_spec (sp : spec) (dataPos : Z) (result : list byte)
  : outcome text_ok (Z * list byte) :=
  '(repeatCount, dataPos) ←
    (if starPrefix sp && (dataPos <? len data)
     then b ← index data dataPos; mret (u8 b, dataPos + 1)
     else mret (1, dataPos));
  '(dataPos, result) ←
    repeat_loop (Z.to_nat repeatCount) sp repeatCount 0 dataPos result;
  let result :=
    if hasTerm sp && (dataPos <? len data) then result ++ [term sp]
    else result in
  mret (dataPos, result).

Definition iteration (st : locals) : outcome text_ok locals :=
  let specStart := hintPos st in
  '(hintPos, specStart) ←
    (if len hint <=? hintPos st then
       if negb (lastSpecConsumesByte st) then Return ([], false)
       else mret (lastSpecStart st, lastSpecStart st)
     else mret (hintPos st, specStart));
  '(sp, hintPos) ← parse_spec hintPos;
  let lastSpecStart := specStart in
  (* A spec consumes data if take > 0, or if starPrefix *)
  let lastSpecConsumesByte := (0 <? take_ sp) || starPrefix sp in
  '(dataPos, result) ← apply_spec sp (dataPos st) (result st);
  mret (Locals hintPos dataPos lastSpecStart lastSpecConsumesByte result).

Fixpoint loop (fuel : nat) (st : locals) : fn_result text_ok :=
  if dataPos st <? len data then
    match fuel with
    | O => OutOfFuel
    | S fuel' => st' ← iteration st; loop fuel' st'
    end
  else Return (result st, true).

(** *** [applyDisplayHintLarge]: the [strings.Builder] path *)

Fixpoint large_take_loop (fuel : nat) (take hintPos : Z)
  : outcome text_ok (Z * Z) :=
  c ← and_then (hintPos <? len hint)
        (b ← index hint hintPos; mret (isDigit b));
  if c : bool then
    match fuel with
    | O => OutOfFuel
    | S fuel' =>
        b ← index hint hintPos;
        large_take_loop fuel'
          (int_add a (int_mul a take 10) (u8 (byte_sub b "0")))
          (hintPos + 1)
    end
  else mret (take, hintPos).

(** Lines 251-295 of the revision. *)
Definition large_parse_spec (hintPos : Z) : outcome text_ok (spec * Z) :=
  starPrefix ← and_then (hintPos <? len hint)
                 (b ← index hint hintPos; mret (byte_eqb b "*"));
  let hintPos := if starPrefix : bool then hintPos + 1 else hintPos in
  bad ← or_else (len hint <=? hintPos)
          (b ← index hint hintPos; mret (negb (isDigit b)));
  if bad : bool then Return ([], false) else
  '(take, hintPos) ← large_take_loop (length hint) 0 hintPos;
  if take <? 0 then Return ([], false) else
  if len hint <=? hintPos then Return ([], false) else
  fmtChar ← index hint hintPos;
  if negb (byte_eqb fmtChar "d") && negb (byte_eqb fmtChar "x")
     && negb (byte_eqb fmtChar "o") && negb (byte_eqb fmtChar "a")
     && negb (byte_eqb fmtChar "t")
  then Return ([], false) else
  let hintPos := hintPos + 1 in
  c ← and_then (hintPos <? len hint)
        (b ← index hint hintPos;
         and_then (negb (isDigit b))
           (b ← index hint hintPos; mret (negb (byte_eqb b "*"))));
  '(sep, hasSep, hintPos) ←
    (if c : bool then b ← index hint hintPos; mret (b, true, hintPos + 1)
     else mret (x00, false, hintPos));
  c ← and_then (starPrefix && (hintPos <? len hint))
        (b ← index hint hintPos;
         and_then (negb (isDigit b))
           (b ← index hint hintPos; mret (negb (byte_eqb b "*"))));
  '(term, hasTerm, hintPos) ←
    (if c : bool then b ← index hint hintPos; mret (b, true, hintPos + 1)
     else mret (x00, false, hintPos));
  mret (Spec starPrefix take fmtChar hasSep sep hasTerm term, hintPos).

(** [result.WriteByte(hexDigits[b>>4]); result.WriteByte(hexDigits[b&0x0F])]. *)
Fixpoint large_hex_loop (chunk result : list byte)
  : outcome text_ok (list byte) :=
  match chunk with
  | [] => mret result
  | b :: chunk' =>
      hi ← index hexDigits (Z.shiftr (u8 b) 4);
      let result := result ++ [hi] in
      lo ← index hexDigits (Z.land (u8 b) 15);
      let result := result ++ [lo] in
      large_hex_loop chunk' result
  end.

Definition large_format_chunk (fmtChar : byte) (chunk result : list byte)
  : outcome text_ok (list byte) :=
  if byte_eqb fmtChar "d" then
    let val := be_uint64 chunk in
    (* Use stack buffer with strconv.AppendUint *)
    mret (result ++ strconv.AppendUint [] val 10)
  else if byte_eqb fmtChar "x" then large_hex_loop chunk result
  else if byte_eqb fmtChar "o" then
    let val := be_uint64 chunk in
    mret (result ++ strconv.AppendUint [] val 8)
  else if byte_eqb fmtChar "a" || byte_eqb fmtChar "t" then
    mret (result ++ chunk)
  else mret result.

Fixpoint large_repeat_loop (fuel : nat) (sp : spec)
    (repeatCount r dataPos : Z) (result : list byte)
  : outcome text_ok (Z * list byte) :=
  if (r <? repeatCount) && (dataPos <? len data) then
    match fuel with
    | O => OutOfFuel
    | S fuel' =>
        let end_ := int_add a dataPos (take_ sp) in
        let end_ :=
          if (len data <? end_) || (end_ <? dataPos) then len data else end_ in
        chunk ← slice data dataPos end_;
        result ← large_format_chunk (fmtChar sp) chunk result;
        let dataPos := end_ in
        let moreData := dataPos <? len data in
        let result :=
          if hasSep sp && moreData
             && (negb (hasTerm sp) || negb (r =? repeatCount - 1))
          then result ++ [sep sp] else result in
        large_repeat_loop fuel' sp repeatCount (r + 1) dataPos result
    end
  else mret (dataPos, result).

Definition large_apply_spec (sp : spec) (dataPos : Z) (result : list byte)
  : outcome text_ok (Z * list byte) :=
  '(repeatCount, dataPos) ←
    (if starPrefix sp && (dataPos <? len data)
     then b ← index data dataPos; mret (u8 b, dataPos + 1)
     else mret (1, dataPos));
  '(dataPos, result) ←
    large_repeat_loop (Z.to_nat repeatCount) sp repeatCount 0 dataPos result;
  let result :=
    if hasTerm sp && (dataPos <? len data) then result ++ [term sp]
    else result in
  mret (dataPos, result).

Definition large_iteration (st : locals) : outcome text_ok locals :=
  let specStart := hintPos st in
  '(hintPos, specStart) ←
    (if len hint <=? hintPos st then
       if negb (lastSpecConsumesByte st) then Return ([], false)
       else mret (lastSpecStart st, lastSpecStart st)
     else mret (hintPos st, specStart));
  '(sp, hintPos) ← large_parse_spec hintPos;
  let lastSpecStart := specStart in
  let lastSpecConsumesByte := (0 <? take_ sp) || starPrefix sp in
  '(dataPos, result) ← large_apply_spec sp (dataPos st) (result st);
  mret (Locals hintPos dataPos lastSpecStart lastSpecConsumesByte result).

Fixpoint large_loop (fuel : nat) (st : locals) : fn_result text_ok :=
  if dataPos st <? len data then
    match fuel with
    | O => OutOfFuel
    | S fuel' => st' ← large_iteration st; large_loop fuel' st'
    end
  else Return (result st, true).

(** [applyDisplayHintLarge] handles large outputs using strings.Builder. *)
Definition applyDisplayHintLarge_fuel (fuel : nat) (estimatedSize : Z)
  : fn_result text_ok :=
  result ← strings.Grow [] estimatedSize;
  large_loop fuel (Locals 0 0 0 false result).

Definition applyDisplayHint_fuel (fuel : nat) : fn_result text_ok :=
  if (len hint =? 0) || (len data =? 0) then Return ([], false)
  else
    estimatedSize ← call (estimateOutputSize (len data));
    if smallBufferSize <? estimatedSize then
      applyDisplayHintLarge_fuel fuel estimatedSize
    else
      (* var stackBuf [smallBufferSize]byte; result := stackBuf[:0] *)
      loop fuel (Locals 0 0 0 false []).

Definition applyDisplayHintLarge (estimatedSize : Z) : fn_result text_ok :=
  applyDisplayHintLarge_fuel (length hint + length data) estimatedSize.

Definition applyDisplayHint : fn_result text_ok :=
  applyDisplayHint_fuel (length hint + length data).

End applyDisplayHint.

End collector2.

(** * Specification-side definitions *)

(** Total correctness of a block: it completes with a value in [Q] or
    returns a result in [QR]; it neither panics nor runs out of fuel. *)
Definition wp {R A : Type} (m : outcome R A) (Q : A -> Prop) (QR : R -> Prop) : Prop :=
  match m with
  | Val x => Q x
  | Return r => QR r
  | Panic => False
  | OutOfFuel => False
  end.

(** The big-endian unsigned integer written by the bytes of [chunk]. *)
Definition be_value (chunk : list byte) : Z :=
  foldl (fun v b => v * 256 + u8 b) 0 chunk.

(** The number written by the digit characters [ds] in [base] (at most
    10); [None] when a character is not a digit of that base. *)
Definition digits_value (base : Z) (ds : list byte) : option Z :=
  foldl (fun acc c =>
           match acc with
           | Some v =>
               if (48 <=? u8 c) && (u8 c <? 48 + base)
               then Some (v * base + (u8 c - 48)) else None
           | None => None
           end) (Some 0) ds.

(** A numeral without superfluous leading zeros. *)
Definition canonical (ds : list byte) : bool :=
  match ds with
  | [] => false
  | [c] => true
  | c :: _ => negb (u8 c =? 48)
  end.

(** Whether [hint[p]] is a decimal digit. *)
Definition digit_at (hint : list byte) (p : Z) : bool :=
  match hint !! Z.to_nat p with
  | Some b => (48 <=? u8 b) && (u8 b <=? 57)
  | None => false
  end.

(** The octet length that the formatter reads at position [q]. *)
Definition take_at (a : Arch) (hint : list byte) (q : Z) : Z :=
  match collector.take_loop a hint (length hint) 0 q with
  | Val (t, _) => t
  | _ => 0
  end.

(** Whether [hint[p]] is the repeat indicator. *)
Definition star_at (hint : list byte) (p : Z) : bool :=
  match hint !! Z.to_nat p with
  | Some b => byte_eqb b "*"
  | None => false
  end.

(** Whether [hint[p]] can be a separator or a terminator. *)
Definition sep_at (hint : list byte) (p : Z) : bool :=
  match hint !! Z.to_nat p with
  | Some b => negb ((48 <=? u8 b) && (u8 b <=? 57)) && negb (byte_eqb b "*")
  | None => false
  end.

Definition is_format (c : byte) : bool :=
  byte_eqb c "d" || byte_eqb c "x" || byte_eqb c "o" || byte_eqb c "a"
  || byte_eqb c "t".

(** The digits from [p] on, accumulated with [int] arithmetic. *)
Fixpoint take_pure (a : Arch) (hint : list byte) (fuel : nat) (t p : Z) : Z * Z :=
  match fuel with
  | O => (t, p)
  | S fuel' =>
      match hint !! Z.to_nat p with
      | Some b =>
          if (48 <=? u8 b) && (u8 b <=? 57)
          then take_pure a hint fuel' (int_add a (int_mul a t 10) (u8 b - 48)) (p + 1)
          else (t, p)
      | None => (t, p)
      end
  end.

(** The specification that starts at [p] and the position behind it, or
    [None] where the formatter gives up. *)
Definition parse_pure (a : Arch) (hint : list byte) (p : Z) : option (spec * Z) :=
  let star := star_at hint p in
  let q := if star then p + 1 else p in
  if negb (digit_at hint q) then None else
  let '(t, p1) := take_pure a hint (length hint) 0 q in
  if t <? 0 then None else
  match hint !! Z.to_nat p1 with
  | None => None
  | Some fc =>
      if negb (is_format fc) then None else
      let p2 := p1 + 1 in
      let hasSep := sep_at hint p2 in
      let sep := if hasSep then nth (Z.to_nat p2) hint x00 else x00 in
      let p3 := if hasSep then p2 + 1 else p2 in
      let hasTerm := star && sep_at hint p3 in
      let term := if hasTerm then nth (Z.to_nat p3) hint x00 else x00 in
      let p4 := if hasTerm then p3 + 1 else p3 in
      Some (Spec star t fc hasSep sep hasTerm term, p4)
  end.

(** The outcome that corresponds to [parse_pure]. *)
Definition parse_outcome (x : option (spec * Z)) : outcome text_ok (spec * Z) :=
  match x with
  | Some y => Val y
  | None => Return ([], false)
  end.

(** The end of the chunk that starts at [d]: [dataPos + take], clamped
    to the end of the data. *)
Definition next_end (a : Arch) (data : list byte) (take d : Z) : Z :=
  let e := int_add a d take in
  if (len data <? e) || (e <? d) then len data else e.

(** [data[d:e]]. *)
Definition chunk_at (data : list byte) (d e : Z) : list byte :=
  take (Z.to_nat (e - d)) (drop (Z.to_nat d) data).

(** Two upper-case hexadecimal digits per byte. *)
Definition hex_text (chunk : list byte) : list byte :=
  flat_map (fun b => [nth (Z.to_nat (Z.shiftr (u8 b) 4)) collector.hexDigits x00;
                      nth (Z.to_nat (Z.land (u8 b) 15)) collector.hexDigits x00])
           chunk.

(** The text written for one chunk under a format character. *)
Definition rendered (fc : byte) (chunk : list byte) : list byte :=
  if byte_eqb fc "d" then strconv.formatBits 64 (collector.be_uint64 chunk) 10 []
  else if byte_eqb fc "x" then hex_text chunk
  else if byte_eqb fc "o" then strconv.formatBits 64 (collector.be_uint64 chunk) 8 []
  else if byte_eqb fc "a" || byte_eqb fc "t" then chunk
  else [].

(** The separator written after the instance numbered [r] (of
    [repeatCount]) that ended at [e]. *)
Definition sep_out (data : list byte) (sp : spec) (repeatCount r e : Z) : list byte :=
  if hasSep sp && (e <? len data)
     && (negb (hasTerm sp) || negb (r =? repeatCount - 1))
  then [sep sp] else [].

(** The cursor and the text that at most [n] further instances of a
    specification leave behind. *)
Fixpoint repeat_pure (a : Arch) (data : list byte) (n : nat) (sp : spec)
    (repeatCount r d : Z) : Z * list byte :=
  match n with
  | O => (d, [])
  | S n' =>
      if (r <? repeatCount) && (d <? len data) then
        let e := next_end a data (take_ sp) d in
        let '(d', out) := repeat_pure a data n' sp repeatCount (r + 1) e in
        (d', rendered (fmtChar sp) (chunk_at data d e)
               ++ sep_out data sp repeatCount r e ++ out)
      else (d, [])
  end.

(** The repeat count of a group and the cursor behind the count byte. *)
Definition group_start (data : list byte) (sp : spec) (d : Z) : Z * Z :=
  if starPrefix sp && (d <? len data)
  then (u8 (nth (Z.to_nat d) data x00), d + 1)
  else (1, d).

(** The cursor and the text that one application of a specification
    leaves behind. *)
Definition apply_pure (a : Arch) (data : list byte) (sp : spec) (d : Z)
  : Z * list byte :=
  let '(repeatCount, d1) := group_start data sp d in
  let '(d', out) := repeat_pure a data (Z.to_nat repeatCount) sp repeatCount 0 d1 in
  (d', out ++ (if hasTerm sp && (d' <? len data) then [term sp] else [])).

(** Whether a specification moves the data cursor on its own. *)
Definition consumes (sp : spec) : bool := (0 <? take_ sp) || starPrefix sp.

(** What a specification read at [p] says about the hint. *)
Definition parsed (a : Arch) (hint : list byte) (p : Z) (sp : spec) (p' : Z) : Prop :=
  let q := if starPrefix sp then p + 1 else p in
  starPrefix sp = star_at hint p
  /\ digit_at hint q = true
  /\ take_ sp = take_at a hint q
  /\ 0 <= take_ sp <= max_int a
  /\ q + 2 + (if hasSep sp then 1 else 0) + (if hasTerm sp then 1 else 0) <= p'
  /\ p' <= len hint
  /\ (hasTerm sp = true -> starPrefix sp = true)
  /\ is_format (fmtChar sp) = true.

(** One iteration of the outer loop on the locals; [None] where the
    formatter gives up. *)
Definition iter_pure (a : Arch) (hint data : list byte) (st : locals) : option locals :=
  let restart := len hint <=? hintPos st in
  if restart && negb (lastSpecConsumesByte st) then None else
  let start := if restart then lastSpecStart st else hintPos st in
  match parse_pure a hint start with
  | None => None
  | Some (sp, p') =>
      let '(d', out) := apply_pure a data sp (dataPos st) in
      Some (Locals p' d' start (consumes sp) (result st ++ out))
  end.

(** The invariant of the outer loop: the cursors are within bounds, and a
    last specification that consumes is the one that ends at [hintPos]. *)
Definition loop_inv (a : Arch) (hint data : list byte) (st : locals) : Prop :=
  0 <= hintPos st <= len hint
  /\ 0 <= dataPos st <= len data
  /\ 0 <= lastSpecStart st
  /\ (lastSpecConsumesByte st = true ->
      exists sp, parse_pure a hint (lastSpecStart st) = Some (sp, hintPos st)
                 /\ consumes sp = true).

(** What is left of the hint and of the data. *)
Definition measure (hint data : list byte) (st : locals) : Z :=
  (len hint - hintPos st) + (len data - dataPos st).

(** The states that the outer loop of [applyDisplayHint] passes through. *)
Inductive reachable (a : Arch) (hint data : list byte) : locals -> Prop :=
| reach_start : reachable a hint data (Locals 0 0 0 false [])
| reach_step (st st' : locals) :
    reachable a hint data st ->
    dataPos st < len data ->
    collector.iteration a hint data st = Val st' ->
    reachable a hint data st'.

(** The texts [xs] with [s] between each two of them. *)
Fixpoint join_sep (s : list byte) (xs : list (list byte)) : list byte :=
  match xs with
  | [] => []
  | x :: xs' =>
      match xs' with
      | [] => x
      | _ :: _ => x ++ s ++ join_sep s xs'
      end
  end.

(** The separator of a specification as a text, empty when there is none. *)
Definition sep_text (sp : spec) : list byte :=
  if hasSep sp then [sep sp] else [].

(** The text of one group: the rendered chunks with the separator between
    them; if input remains behind the group ([more]), the terminator
    follows, or, without a terminator, the separator after the last chunk. *)
Definition group_text (sp : spec) (chunks : list (list byte)) (more : bool)
  : list byte :=
  join_sep (sep_text sp) (map (rendered (fmtChar sp)) chunks)
  ++ (if more then
        if hasTerm sp then [term sp]
        else match chunks with [] => [] | _ :: _ => sep_text sp end
      else []).

(** The separator after an instance, in the words of the rule: none at the
    end of the input, none after the final repetition of a group whose
    terminator follows. *)
Definition sep_rule (data : list byte) (sp : spec) (repeatCount r e : Z) : list byte :=
  if hasSep sp then
    if e =? len data then []
    else if hasTerm sp && (r =? repeatCount - 1) then []
    else [sep sp]
  else [].

(** The number written by a run of decimal digits. *)
Definition decimal_value (ds : list byte) : Z :=
  foldl (fun v c => v * 10 + (u8 c - 48)) 0 ds.

(** The data cut into pieces of [n] bytes; the last one may be shorter. *)
Fixpoint pieces_fuel (fuel n : nat) (data : list byte) : list (list byte) :=
  match fuel with
  | O => []
  | S fuel' =>
      match data with
      | [] => []
      | _ :: _ => take n data :: pieces_fuel fuel' n (drop n data)
      end
  end.

Definition pieces (n : nat) (data : list byte) : list (list byte) :=
  pieces_fuel (length data) n data.

(** The text of a hint that is one specification without ['*'], applied
    again and again: the rendered pieces with the separator between them. *)
Definition repeated_text (sp : spec) (data : list byte) : list byte :=
  join_sep (sep_text sp)
    (map (rendered (fmtChar sp)) (pieces (Z.to_nat (take_ sp)) data)).

(** The states of the outer loop when the hint is a single specification:
    before the first iteration, or with the specification as the last one
    read. *)
Definition single_state (hint data : list byte) (st : locals) : Prop :=
  0 <= dataPos st <= len data
  /\ lastSpecStart st = 0
  /\ (hintPos st = 0
      \/ (hintPos st = len hint /\ lastSpecConsumesByte st = true)).

(** The digits from [p] on as a number, without wrap-around. *)
Fixpoint take_exact (hint : list byte) (fuel : nat) (t p : Z) : Z * Z :=
  match fuel with
  | O => (t, p)
  | S fuel' =>
      match hint !! Z.to_nat p with
      | Some b =>
          if (48 <=? u8 b) && (u8 b <=? 57)
          then take_exact hint fuel' (t * 10 + (u8 b - 48)) (p + 1)
          else (t, p)
      | None => (t, p)
      end
  end.

(** Whether every run of digits in the hint, from whatever position it is
    read, is a number below [2^31]. *)
Definition small_lengths (hint : list byte) : bool :=
  forallb (fun p => fst (take_exact hint (length hint) 0 (Z.of_nat p))
                    <=? 2 ^ 31 - 1)
          (seq 0 (length hint)).

(** ** Trees of nodes *)

Section tree_of_nodes.
Import generator.

#[local] Set Warnings "-register-all".

(** The tree that a [*Node] stands for: the fields of the node that are
    no references, the trees of its children, the entries of its
    [EnumValues] and the elements of its [Indexes]. *)
Inductive tree : Type :=
| Tree (fields : Node) (children : list tree) (enums : gmap Z (list byte))
       (indexes : list (list byte)).

(** A node without its references. *)
Definition scalars (n : Node) : Node :=
  with_Children (with_EnumValues (with_Indexes n None) None) None.

Fixpoint height (t : tree) : nat :=
  match t with
  | Tree _ cs _ _ => S (foldr (fun c m => Nat.max (height c) m) 0%nat cs)
  end.

(** The elements of a slice, whose backing array is at an address from
    [k] on; the [nil] slice has none. *)
Definition pointers_in (k : nat) (h : store) (s : option slice_header)
    (ps : list (option loc)) : Prop :=
  match s with
  | Some s =>
      (k <= array s)%nat
      /\ exists a, h !! array s = Some (OPointers a)
                   /\ (offset s + slen s <= length a)%nat
                   /\ ps = take (slen s) (drop (offset s) a)
  | None => ps = []
  end.

Definition strings_in (k : nat) (h : store) (s : option slice_header)
    (xs : list (list byte)) : Prop :=
  match s with
  | Some s =>
      (k <= array s)%nat
      /\ exists a, h !! array s = Some (OStrings a)
                   /\ (offset s + slen s <= length a)%nat
                   /\ xs = take (slen s) (drop (offset s) a)
  | None => xs = []
  end.

(** The entries of a map at an address from [k] on; the [nil] map has
    none. *)
Definition map_in (k : nat) (h : store) (m : option loc)
    (entries : gmap Z (list byte)) : Prop :=
  match m with
  | Some l => (k <= l)%nat /\ h !! l = Some (OMap entries)
  | None => entries = ∅
  end.

(** [repr k h t p]: in the store [h] the address [p] holds a node that
    stands for the tree [t], and every object of that tree (nodes,
    backing arrays, maps) is at an address from [k] on. *)
Inductive repr (k : nat) (h : store) : tree -> loc -> Prop :=
| repr_node (nd : Node) (qs : list loc) (cs : list tree)
    (en : gmap Z (list byte)) (ix : list (list byte)) (p : loc) :
    (k <= p)%nat ->
    h !! p = Some (ONode nd) ->
    pointers_in k h (Children nd) (map Some qs) ->
    Forall2 (repr k h) cs qs ->
    map_in k h (EnumValues nd) en ->
    strings_in k h (Indexes nd) ix ->
    repr k h (Tree (scalars nd) cs en ix) p.

(** What [Copy] with [fuel] does on every store in which an address
    stands for [t]: it returns a new address that stands for [t], in a
    store that keeps the old objects as they were and holds every object
    of the copy at a new address. *)
Definition copy_ok (growslice : nat -> nat)
    (range_order : gmap Z (list byte) -> list (Z * list byte))
    (fuel : nat) (t : tree) : Prop :=
  forall (h : store) (p : loc),
    repr 0 h t p ->
    exists (p' : loc) (h' : store),
      Copy growslice range_order fuel h (Some p) = Return (Some p', h')
      /\ (length h <= length h')%nat
      /\ (forall l, (l < length h)%nat -> h' !! l = h !! l)
      /\ repr (length h) h' t p'
      /\ exists nd' : Node,
           h' !! p' = Some (ONode nd')
           /\ is_Some (Children nd') /\ is_Some (EnumValues nd')
           /\ is_Some (Indexes nd').

(** A table entry with one child, one enumeration value and one index. *)
Definition ifIndex_node : Node :=
  mkNode (str "1.3.6.1.2.1.2.2.1.1") 1 (str "IF-MIB") (str "ifIndex") []
    None [] (str "INTEGER") (str "d") (str "InterfaceIndex") 0 [] 
    (str "ACCESS_READONLY") None None false.

Definition ifEntry_node : Node :=
  mkNode (str "1.3.6.1.2.1.2.2.1") 1 (str "IF-MIB") (str "ifEntry") []
    (Some (Slice 1 0 1 1)) [] (str "OTHER") [] [] 0 []
    (str "ACCESS_NOACCESS") (Some 2%nat) (Some (Slice 3 0 1 1)) false.

Definition ifEntry_store : store :=
  [ONode ifIndex_node; OPointers [Some 0%nat];
   OMap {[ 1 := str "up" ]}; OStrings [str "ifIndex"]; ONode ifEntry_node].

Definition ifEntry_tree : tree :=
  Tree (scalars ifEntry_node) [Tree (scalars ifIndex_node) [] ∅ []]
    {[ 1 := str "up" ]} [str "ifIndex"].

(** A node that is its own child. *)
Definition self_node : Node :=
  mkNode (str "1") 1 [] (str "iso") [] (Some (Slice 1 0 1 1)) [] (str "OTHER")
    [] [] 0 [] (str "unknown") None None false.

Definition self_store : store := [ONode self_node; OPointers [Some 0%nat]].

End tree_of_nodes.

(** * The embedding on the documented examples *)

Example ipv4_address (a : Arch) :
  collector.applyDisplayHint a (str "1d.1d.1d.1d") (bytes [192; 168; 1; 1])
  = Return (str "192.168.1.1", true)
  /\ collector2.applyDisplayHint a (str "1d.1d.1d.1d") (bytes [192; 168; 1; 1])
     = Return (str "192.168.1.1", true).
Proof. destruct a; split; vm_compute; reflexivity. Qed.

Example mac_address (a : Arch) :
  collector.applyDisplayHint a (str "1x:") (bytes [0; 26; 43; 60; 77; 94])
  = Return (str "00:1A:2B:3C:4D:5E", true)
  /\ collector2.applyDisplayHint a (str "1x:") (bytes [0; 26; 43; 60; 77; 94])
     = Return (str "00:1A:2B:3C:4D:5E", true).
Proof. destruct a; split; vm_compute; reflexivity. Qed.

Example date_and_time (a : Arch) :
  collector.applyDisplayHint a (str "2d-1d-1d,1d:1d:1d.1d")
    (bytes [7; 234; 1; 7; 6; 31; 48; 0])
  = Return (str "2026-1-7,6:31:48.0", true)
  /\ collector2.applyDisplayHint a (str "2d-1d-1d,1d:1d:1d.1d")
       (bytes [7; 234; 1; 7; 6; 31; 48; 0])
     = Return (str "2026-1-7,6:31:48.0", true).
Proof. destruct a; split; vm_compute; reflexivity. Qed.

Example display_string (a : Arch) :
  collector.applyDisplayHint a (str "255a") (str "srl1")
  = Return (str "srl1", true)
  /\ collector2.applyDisplayHint a (str "255a") (str "srl1")
     = Return (str "srl1", true).
Proof. destruct a; split; vm_compute; reflexivity. Qed.

Example implicit_repetition (a : Arch) :
  collector.applyDisplayHint a (str "1x") (bytes [26; 206; 0])
  = Return (str "1ACE00", true)
  /\ collector2.applyDisplayHint a (str "1x") (bytes [26; 206; 0])
     = Return (str "1ACE00", true).
Proof. destruct a; split; vm_compute; reflexivity. Qed.

(** A group with separator and terminator, followed by an octal
    specification that is repeated, and a chunk of nine bytes that wraps. *)
Example group_with_terminator (a : Arch) :
  collector.applyDisplayHint a (str "*1d.;1o") (bytes [2; 1; 2; 3; 9; 255])
  = Return (str "1.2;311377", true)
  /\ collector.applyDisplayHint a (str "9d") (bytes [1; 0; 0; 0; 0; 0; 0; 0; 5])
     = Return (str "5", true).
Proof. destruct a; split; vm_compute; reflexivity. Qed.

Example oid_operations (a : Arch) :
  oid.ToList a (str "1.3.6.1.2.1") = [1; 3; 6; 1; 2; 1]
  /\ oid.FromList a [1; 3; 6; 1; 2; 1] = Return (str "1.3.6.1.2.1")
  /\ oid.FromList a [] = Return []
  /\ oid.ToList a [] = [0]
  /\ oid.Split [1; 3; 6; 1] 2 = Return ([1; 3], [6; 1])
  /\ oid.Split [1; 3] 4 = Return ([1; 3; 0; 0], [])
  /\ oid.Split [1; 3] (-1) = Panic.
Proof. destruct a; repeat split; vm_compute; reflexivity. Qed.

(** * Basic facts *)

Section basics.

Lemma len_nonneg {A : Type} (l : list A) : 0 <= len l.
Proof. unfold len. lia. Qed.

Lemma len_app {A : Type} (l k : list A) : len (l ++ k) = len l + len k.
Proof. unfold len. rewrite length_app. lia. Qed.

Lemma len_cons {A : Type} (x : A) (l : list A) : len (x :: l) = 1 + len l.
Proof. unfold len. simpl length. lia. Qed.

Lemma u8_range (b : byte) : 0 <= u8 b <= 255.
Proof.
  unfold u8. pose proof (Byte.to_N_bounded b). lia.
Qed.

Lemma u8_byte_of_Z (z : Z) : 0 <= z <= 255 -> u8 (byte_of_Z z) = z.
Proof.
  intros Hz. unfold byte_of_Z, u8.
  rewrite Z.mod_small by lia.
  destruct (Byte.of_N (Z.to_N z)) as [b|] eqn:E.
  - apply Byte.to_of_N in E. rewrite E. lia.
  - exfalso.
    pose proof (Byte.to_of_N_option_map (Z.to_N z)) as H.
    rewrite E in H. simpl in H.
    destruct (N.leb_spec (Z.to_N z) 255); [discriminate | lia].
Qed.

Lemma pow_intSize (a : Arch) : 2 ^ intSize a = 2 * 2 ^ (intSize a - 1).
Proof. destruct a; reflexivity. Qed.

Lemma pow_intSize_pos (a : Arch) : 2 ^ 31 <= 2 ^ (intSize a - 1).
Proof. destruct a; simpl; lia. Qed.

Lemma wrap_int_range (a : Arch) (x : Z) : min_int a <= wrap_int a x <= max_int a.
Proof.
  unfold wrap_int, min_int, max_int.
  pose proof (pow_intSize a). pose proof (pow_intSize_pos a).
  pose proof (Z.mod_pos_bound (x + 2 ^ (intSize a - 1)) (2 ^ intSize a)).
  lia.
Qed.

Lemma wrap_int_small (a : Arch) (x : Z) :
  min_int a <= x <= max_int a -> wrap_int a x = x.
Proof.
  unfold wrap_int, min_int, max_int. intros Hx.
  pose proof (pow_intSize a). pose proof (pow_intSize_pos a).
  rewrite Z.mod_small by lia. lia.
Qed.

(** The wrapped result differs from the exact one by a multiple of the
    modulus. *)
Lemma wrap_int_eqm (a : Arch) (x : Z) :
  exists k, wrap_int a x = x + k * 2 ^ intSize a.
Proof.
  unfold wrap_int.
  pose proof (pow_intSize_pos a). pose proof (pow_intSize a).
  exists (- ((x + 2 ^ (intSize a - 1)) / 2 ^ intSize a)).
  pose proof (Z.div_mod (x + 2 ^ (intSize a - 1)) (2 ^ intSize a)).
  lia.
Qed.

Lemma wrap_int_wrap (a : Arch) (x y : Z) :
  wrap_int a (wrap_int a x + y) = wrap_int a (x + y).
Proof.
  destruct (wrap_int_eqm a x) as [k Hk]. rewrite Hk.
  unfold wrap_int.
  replace (x + k * 2 ^ intSize a + y + 2 ^ (intSize a - 1))
    with (x + y + 2 ^ (intSize a - 1) + k * 2 ^ intSize a) by lia.
  rewrite Z.mod_add; [reflexivity|].
  pose proof (pow_intSize_pos a). pose proof (pow_intSize a). lia.
Qed.

Lemma max_int_ge (a : Arch) : 2 ^ 31 - 1 <= max_int a.
Proof. unfold max_int. pose proof (pow_intSize_pos a). lia. Qed.

Lemma min_int_le (a : Arch) : min_int a <= - 2 ^ 31.
Proof. unfold min_int. pose proof (pow_intSize_pos a). lia. Qed.

End basics.

(** * oid.Split *)

Section split_proofs.
Context {R : Type}.



End split_proofs.



(** * Numerals written by strconv *)

Section numerals.

Lemma digit_u8 (d : Z) : 0 <= d < 10 -> u8 (strconv.digit d) = 48 + d.
Proof.
  intros Hd.
  assert (d = 0 \/ d = 1 \/ d = 2 \/ d = 3 \/ d = 4 \/ d = 5 \/ d = 6
          \/ d = 7 \/ d = 8 \/ d = 9) as Hc by lia.
  repeat (destruct Hc as [->|Hc]; [reflexivity|]). subst d. reflexivity.
Qed.

Lemma formatBits_S (fuel : nat) (u base : Z) (acc : list byte) :
  strconv.formatBits (S fuel) u base acc
  = if u <? base then strconv.digit u :: acc
    else strconv.formatBits fuel (u / base) base
           (strconv.digit (u mod base) :: acc).
Proof. reflexivity. Qed.

(** The accumulator is only ever extended at the front. *)
Lemma formatBits_acc (fuel : nat) :
  forall (u base : Z) (acc : list byte),
    strconv.formatBits fuel u base acc
    = strconv.formatBits fuel u base [] ++ acc.
Proof.
  induction fuel as [|fuel IH]; intros u base acc; simpl; [reflexivity|].
  destruct (u <? base); [reflexivity|].
  rewrite (IH _ _ (_ :: acc)), (IH _ _ [_]).
  by rewrite <- app_assoc.
Qed.

Lemma digits_value_snoc (base : Z) (ds : list byte) (c : byte) (v : Z) :
  digits_value base ds = Some v ->
  48 <= u8 c < 48 + base ->
  digits_value base (ds ++ [c]) = Some (v * base + (u8 c - 48)).
Proof.
  unfold digits_value. intros Hv Hc. rewrite foldl_snoc, Hv.
  destruct (Z.leb_spec 48 (u8 c)); [|lia].
  destruct (Z.ltb_spec (u8 c) (48 + base)); [|lia].
  reflexivity.
Qed.

(** With enough fuel the digits written are those of [u]: they denote
    [u] and the leading one is not a zero unless [u] is 0. *)
Lemma formatBits_value (base : Z) (Hbase : 2 <= base <= 10) (fuel : nat) :
  forall u : Z,
    0 <= u < base ^ Z.of_nat (S fuel) ->
    digits_value base (strconv.formatBits (S fuel) u base []) = Some u
    /\ exists c rest,
         strconv.formatBits (S fuel) u base [] = c :: rest
         /\ (u <> 0 -> u8 c <> 48) /\ (u = 0 -> rest = []).
Proof.
  induction fuel as [|fuel IH]; intros u Hu.
  - change (Z.of_nat 1) with 1 in Hu. rewrite Z.pow_1_r in Hu.
    simpl. destruct (Z.ltb_spec u base); [|lia].
    split.
    + unfold digits_value. simpl. rewrite digit_u8 by lia.
      destruct (Z.leb_spec 48 (48 + u)); [|lia].
      destruct (Z.ltb_spec (48 + u) (48 + base)); [|lia].
      f_equal. lia.
    + eexists _, _. split; [reflexivity|].
      split; [|reflexivity]. rewrite digit_u8 by lia. lia.
  - rewrite formatBits_S.
    destruct (Z.ltb_spec u base) as [Hlt|Hge].
    + split.
      * unfold digits_value. simpl. rewrite digit_u8 by lia.
        destruct (Z.leb_spec 48 (48 + u)); [|lia].
        destruct (Z.ltb_spec (48 + u) (48 + base)); [|lia].
        f_equal. lia.
      * eexists _, _. split; [reflexivity|].
        split; [|reflexivity]. rewrite digit_u8 by lia. lia.
    + assert (0 < base) as Hpos by lia.
      assert (0 <= u / base < base ^ Z.of_nat (S fuel)) as Hq.
      { split; [apply Z.div_pos; lia|].
        apply Z.div_lt_upper_bound; [lia|].
        rewrite <- Z.pow_succ_r by lia.
        rewrite <- Nat2Z.inj_succ. lia. }
      destruct (IH _ Hq) as (Hv & c & rest & Hds & Hnz & _).
      pose proof (Z.mod_pos_bound u base Hpos) as Hm.
      rewrite formatBits_acc. split.
      * rewrite (digits_value_snoc _ _ _ _ Hv) by (rewrite digit_u8; lia).
        rewrite digit_u8 by lia. f_equal.
        pose proof (Z.div_mod u base). lia.
      * rewrite Hds. eexists _, _. split; [reflexivity|].
        split; [|lia]. intros _. apply Hnz.
        assert (1 <= u / base); [|lia].
        apply Z.div_le_lower_bound; lia.
Qed.

(** A number below [base ^ k] is written with at most [k] digits, and
    never with more digits than there is fuel. *)
Lemma formatBits_length (base : Z) (Hbase : 2 <= base) (fuel : nat) :
  forall (u : Z) (k : nat),
    (1 <= k)%nat -> 0 <= u < base ^ Z.of_nat k ->
    (length (strconv.formatBits fuel u base []) <= k)%nat.
Proof.
  induction fuel as [|fuel IH]; intros u k Hk Hu; simpl; [lia|].
  destruct (Z.ltb_spec u base) as [Hlt|Hge]; [simpl; lia|].
  rewrite formatBits_acc, length_app. simpl.
  destruct k as [|[|k]]; [lia| |].
  - change (Z.of_nat 1) with 1 in Hu. rewrite Z.pow_1_r in Hu. lia.
  - assert (length (strconv.formatBits fuel (u / base) base []) <= S k)%nat;
      [|lia].
    apply IH; [lia|].
    split; [apply Z.div_pos; lia|].
    apply Z.div_lt_upper_bound; [lia|].
    rewrite <- Z.pow_succ_r by lia.
    rewrite <- Nat2Z.inj_succ. lia.
Qed.

Lemma be_value_snoc (chunk : list byte) (b : byte) :
  be_value (chunk ++ [b]) = be_value chunk * 256 + u8 b.
Proof. unfold be_value. by rewrite foldl_snoc. Qed.

Lemma be_value_bound (chunk : list byte) :
  0 <= be_value chunk < 256 ^ len chunk.
Proof.
  induction chunk as [|b chunk IH] using rev_ind.
  - unfold be_value, len. simpl. rewrite Z.pow_0_r. lia.
  - rewrite be_value_snoc, len_app. change (len [b]) with 1.
    pose proof (len_nonneg chunk).
    rewrite Z.pow_add_r, Z.pow_1_r by lia.
    pose proof (u8_range b). nia.
Qed.

(** [(v << 8) | b] on [uint64]. *)
Lemma shift_or_byte (v b : Z) :
  0 <= v -> 0 <= b <= 255 ->
  Z.lor (wrap_u64 (Z.shiftl v 8)) b = (v * 256 + b) mod 2 ^ 64.
Proof.
  intros Hv Hb. unfold wrap_u64.
  rewrite Z.shiftl_mul_pow2 by lia. change (2 ^ 8) with 256.
  pose proof (Z.mod_pos_bound v (2 ^ 56) ltac:(lia)) as Hq.
  assert ((v * 256) mod 2 ^ 64 = v mod 2 ^ 56 * 256) as HF.
  { change (2 ^ 64) with (2 ^ 56 * 256).
    apply Z.mul_mod_distr_r; lia. }
  rewrite Z.add_mod, HF, (Z.mod_small b) by lia.
  rewrite (Z.mod_small (_ + b)) by lia.
  symmetry. apply Z.add_nocarry_lor.
  apply Z.bits_inj'. intros n Hn.
  rewrite Z.land_spec, Z.bits_0.
  destruct (Z.lt_ge_cases n 8).
  - change 256 with (2 ^ 8). rewrite Z.mul_pow2_bits_low by lia.
    reflexivity.
  - rewrite (Z.bits_above_log2 b n); [apply andb_false_r|lia|].
    destruct (Z.eq_dec b 0) as [->|]; [simpl; lia|].
    apply Z.log2_lt_pow2; [lia|].
    apply Z.lt_le_trans with (2 ^ 8); [simpl; lia|].
    apply Z.pow_le_mono_r; lia.
Qed.

Lemma be_uint64_fold (chunk : list byte) :
  forall v : Z,
    0 <= v ->
    foldl (fun val b => Z.lor (wrap_u64 (Z.shiftl val 8)) (u8 b))
          (v mod 2 ^ 64) chunk
    = foldl (fun v b => v * 256 + u8 b) v chunk mod 2 ^ 64.
Proof.
  induction chunk as [|b chunk IH]; intros v Hv; simpl; [reflexivity|].
  pose proof (u8_range b).
  pose proof (Z.mod_pos_bound v (2 ^ 64) ltac:(lia)).
  rewrite shift_or_byte by lia.
  rewrite Z.add_mod, Z.mul_mod_idemp_l, <- Z.add_mod by lia.
  apply IH. lia.
Qed.

(** The accumulated [uint64] is the big-endian value modulo [2^64]. *)
Lemma be_uint64_spec (chunk : list byte) :
  collector.be_uint64 chunk = be_value chunk mod 2 ^ 64.
Proof.
  unfold collector.be_uint64, be_value.
  rewrite <- be_uint64_fold by lia. reflexivity.
Qed.

Lemma be_uint64_range (chunk : list byte) :
  0 <= collector.be_uint64 chunk < 2 ^ 64.
Proof. rewrite be_uint64_spec. apply Z.mod_pos_bound. lia. Qed.

Lemma be_uint64_le (chunk : list byte) :
  collector.be_uint64 chunk < 256 ^ len chunk.
Proof.
  rewrite be_uint64_spec. pose proof (be_value_bound chunk).
  pose proof (Z.mod_le (be_value chunk) (2 ^ 64)). lia.
Qed.

End numerals.

(** * The calculus of outcomes *)

Section outcomes.
Context {R : Type}.

Lemma wp_bind {A B : Type} (m : outcome R A) (k : A -> outcome R B)
    (Q : B -> Prop) (QR : R -> Prop) :
  wp m (fun x => wp (k x) Q QR) QR -> wp (m ≫= k) Q QR.
Proof. destruct m; simpl; auto. Qed.

Lemma index_val {A : Type} (s : list A) (i : Z) :
  0 <= i < len s ->
  exists x, index (R:=R) s i = Val x /\ s !! Z.to_nat i = Some x.
Proof.
  intros Hi. unfold index.
  destruct (Z.leb_spec 0 i); [|lia].
  destruct (Z.ltb_spec i (len s)); [|lia]. simpl.
  destruct (s !! Z.to_nat i) as [x|] eqn:E; [eauto|].
  apply lookup_ge_None in E. unfold len in *. lia.
Qed.

Lemma wp_index {A : Type} (s : list A) (i : Z) (Q : A -> Prop) (QR : R -> Prop) :
  0 <= i < len s ->
  (forall x, s !! Z.to_nat i = Some x -> Q x) ->
  wp (index s i) Q QR.
Proof.
  intros Hi HQ. destruct (index_val s i Hi) as (x & -> & Hx). simpl. auto.
Qed.

Lemma slice_val {A : Type} (s : list A) (lo hi : Z) :
  0 <= lo <= hi -> hi <= len s ->
  slice (R:=R) s lo hi = Val (take (Z.to_nat (hi - lo)) (drop (Z.to_nat lo) s)).
Proof.
  intros H1 H2. unfold slice.
  destruct (Z.leb_spec 0 lo); [|lia].
  destruct (Z.leb_spec lo hi); [|lia].
  destruct (Z.leb_spec hi (len s)); [|lia]. reflexivity.
Qed.

End outcomes.

(** * The formatter, block by block *)

Section blocks.
Variable a : Arch.
Variables hint data : list byte.

Lemma index_nth {R A : Type} (s : list A) (i : Z) (d : A) :
  0 <= i < len s -> index (R:=R) s i = Val (nth (Z.to_nat i) s d).
Proof.
  intros Hi. destruct (index_val (R:=R) s i Hi) as (x & -> & Hx).
  by rewrite nth_lookup, Hx.
Qed.

Lemma hex_index_hi (b : byte) : 0 <= Z.shiftr (u8 b) 4 < len collector.hexDigits.
Proof.
  pose proof (u8_range b). rewrite Z.shiftr_div_pow2 by lia.
  change (len collector.hexDigits) with 16. change (2 ^ 4) with 16.
  split; [apply Z.div_pos; lia|apply Z.div_lt_upper_bound; lia].
Qed.

Lemma hex_index_lo (b : byte) : 0 <= Z.land (u8 b) 15 < len collector.hexDigits.
Proof.
  change 15 with (Z.ones 4). rewrite Z.land_ones by lia.
  change (len collector.hexDigits) with 16. change (2 ^ 4) with 16.
  apply Z.mod_pos_bound. lia.
Qed.

Lemma hex_loop_val (chunk : list byte) :
  forall res : list byte,
    collector.hex_loop chunk res = Val (res ++ hex_text chunk).
Proof.
  induction chunk as [|b chunk IH]; intros res; simpl.
  - by rewrite app_nil_r.
  - rewrite (index_nth _ _ x00 (hex_index_hi b)). simpl.
    rewrite (index_nth _ _ x00 (hex_index_lo b)). simpl.
    rewrite IH. by rewrite <- !app_assoc.
Qed.

(** The [switch] writes the rendering of the chunk behind the result. *)
Lemma format_chunk_val (fc : byte) (chunk res : list byte) :
  collector.format_chunk fc chunk res = Val (res ++ rendered fc chunk).
Proof.
  unfold collector.format_chunk, rendered, strconv.AppendUint.
  destruct (byte_eqb fc "d"); [reflexivity|].
  destruct (byte_eqb fc "x"); [apply hex_loop_val|].
  destruct (byte_eqb fc "o"); [reflexivity|].
  destruct (byte_eqb fc "a" || byte_eqb fc "t"); [reflexivity|].
  by rewrite app_nil_r.
Qed.

Lemma next_end_range (take d : Z) :
  0 <= d <= len data -> d <= next_end a data take d <= len data.
Proof.
  intros Hd. unfold next_end.
  destruct (Z.ltb_spec (len data) (int_add a d take)); simpl; [lia|].
  destruct (Z.ltb_spec (int_add a d take) d); lia.
Qed.

(** A positive octet length moves the cursor. *)
Lemma next_end_progress (take d : Z) :
  0 <= d < len data -> 1 <= take <= max_int a ->
  d < next_end a data take d.
Proof.
  intros Hd Ht. unfold next_end.
  destruct (Z.ltb_spec (len data) (int_add a d take)); simpl; [lia|].
  destruct (Z.ltb_spec (int_add a d take) d); [lia|].
  unfold int_add in *.
  destruct (wrap_int_eqm a (d + take)) as [k Hk].
  assert (wrap_int a (d + take) <> d); [|lia].
  intros Heq. rewrite Heq in Hk.
  unfold max_int in Ht. pose proof (pow_intSize a) as HM.
  pose proof (pow_intSize_pos a). rewrite HM in Hk.
  clear Heq H H0 HM.
  set (M := 2 ^ (intSize a - 1)) in *. clearbody M.
  assert (k <= -1 \/ 0 <= k) as [Hneg|Hpos] by lia; nia.
Qed.

(** One instance of the inner loop: the chunk is rendered, the cursor
    moves to its end, and the separator follows under [sep_out]. *)
Lemma repeat_loop_step (fuel : nat) (sp : spec) (rc r d : Z) (res : list byte) :
  r < rc -> 0 <= d < len data ->
  collector.repeat_loop a data (S fuel) sp rc r d res
  = let e := next_end a data (take_ sp) d in
    collector.repeat_loop a data fuel sp rc (r + 1) e
      (res ++ rendered (fmtChar sp) (chunk_at data d e) ++ sep_out data sp rc r e).
Proof.
  intros Hr Hd. simpl.
  destruct (Z.ltb_spec r rc); [|lia].
  destruct (Z.ltb_spec d (len data)); [|lia]. simpl.
  fold (next_end a data (take_ sp) d).
  pose proof (next_end_range (take_ sp) d ltac:(lia)) as He.
  rewrite slice_val by lia. simpl.
  rewrite format_chunk_val. simpl.
  fold (chunk_at data d (next_end a data (take_ sp) d)).
  unfold sep_out.
  destruct (hasSep sp && (next_end a data (take_ sp) d <? len data)
            && (negb (hasTerm sp) || negb (r =? rc - 1))).
  - by rewrite <- app_assoc.
  - by rewrite app_nil_r.
Qed.

Lemma repeat_loop_done (fuel : nat) (sp : spec) (rc r d : Z) (res : list byte) :
  (r <? rc) && (d <? len data) = false ->
  collector.repeat_loop a data fuel sp rc r d res = Val (d, res).
Proof. intros H. destruct fuel; simpl; rewrite H; reflexivity. Qed.

(** With fuel for the remaining repetitions the inner loop is
    [repeat_pure]. *)
Lemma repeat_loop_pure (fuel : nat) (sp : spec) (rc : Z) :
  forall (r d : Z) (res : list byte),
    0 <= d <= len data -> rc - r <= Z.of_nat fuel ->
    collector.repeat_loop a data fuel sp rc r d res
    = Val (fst (repeat_pure a data fuel sp rc r d),
           res ++ snd (repeat_pure a data fuel sp rc r d)).
Proof.
  induction fuel as [|fuel IH]; intros r d res Hd Hf.
  - rewrite repeat_loop_done.
    + simpl. by rewrite app_nil_r.
    + destruct (Z.ltb_spec r rc); [lia|reflexivity].
  - destruct ((r <? rc) && (d <? len data)) eqn:Hc.
    + apply andb_true_iff in Hc as [Hr Hdl].
      apply Z.ltb_lt in Hr, Hdl.
      rewrite repeat_loop_step by lia. cbv zeta.
      pose proof (next_end_range (take_ sp) d Hd).
      rewrite IH by lia.
      simpl. destruct (Z.ltb_spec r rc); [|lia].
      destruct (Z.ltb_spec d (len data)); [|lia]. simpl.
      destruct (repeat_pure a data fuel sp rc (r + 1)
                  (next_end a data (take_ sp) d)) as [d' out].
      simpl. by rewrite <- !app_assoc.
    + rewrite repeat_loop_done by exact Hc.
      simpl. rewrite Hc. simpl. by rewrite app_nil_r.
Qed.

(** The application of a specification is [apply_pure]. *)
Lemma apply_spec_pure (sp : spec) (d : Z) (res : list byte) :
  0 <= d <= len data ->
  collector.apply_spec a data sp d res
  = Val (fst (apply_pure a data sp d), res ++ snd (apply_pure a data sp d)).
Proof.
  intros Hd. unfold collector.apply_spec, apply_pure, group_start.
  destruct (starPrefix sp && (d <? len data)) eqn:Hs.
  - apply andb_true_iff in Hs as [_ Hdl]. apply Z.ltb_lt in Hdl.
    rewrite (index_nth _ _ x00) by lia. simpl.
    pose proof (u8_range (nth (Z.to_nat d) data x00)).
    rewrite repeat_loop_pure by lia. simpl.
    destruct (repeat_pure a data _ sp _ 0 (d + 1)) as [d' out]. simpl.
    destruct (hasTerm sp && (d' <? len data)).
    + by rewrite <- app_assoc.
    + by rewrite !app_nil_r.
  - cbn -[collector.repeat_loop repeat_pure Z.to_nat].
    rewrite repeat_loop_pure by lia.
    cbn -[collector.repeat_loop repeat_pure Z.to_nat].
    destruct (repeat_pure a data _ sp 1 0 d) as [d' out]. simpl.
    destruct (hasTerm sp && (d' <? len data)).
    + by rewrite <- app_assoc.
    + by rewrite !app_nil_r.
Qed.

Lemma repeat_pure_range (n : nat) (sp : spec) (rc : Z) :
  forall r d : Z,
    0 <= d <= len data ->
    d <= fst (repeat_pure a data n sp rc r d) <= len data.
Proof.
  induction n as [|n IH]; intros r d Hd; simpl; [lia|].
  destruct ((r <? rc) && (d <? len data)); simpl; [|lia].
  pose proof (next_end_range (take_ sp) d Hd) as He.
  specialize (IH (r + 1) (next_end a data (take_ sp) d) ltac:(lia)).
  destruct (repeat_pure a data n sp rc (r + 1) _) as [d' out].
  simpl in *. lia.
Qed.

Lemma apply_pure_range (sp : spec) (d : Z) :
  0 <= d <= len data ->
  d <= fst (apply_pure a data sp d) <= len data.
Proof.
  intros Hd. unfold apply_pure, group_start.
  destruct (starPrefix sp && (d <? len data)) eqn:Hs.
  - apply andb_true_iff in Hs as [_ Hdl]. apply Z.ltb_lt in Hdl.
    pose proof (repeat_pure_range
                  (Z.to_nat (u8 (nth (Z.to_nat d) data x00))) sp
                  (u8 (nth (Z.to_nat d) data x00)) 0 (d + 1) ltac:(lia)) as H.
    destruct (repeat_pure a data _ sp _ 0 (d + 1)) as [d' out].
    simpl in *. lia.
  - pose proof (repeat_pure_range (Z.to_nat 1) sp 1 0 d Hd) as H.
    destruct (repeat_pure a data _ sp 1 0 d) as [d' out].
    simpl in *. lia.
Qed.

(** A specification that consumes moves the cursor while data remains. *)
Lemma apply_pure_progress (sp : spec) (d : Z) :
  0 <= d < len data -> 0 <= take_ sp <= max_int a -> consumes sp = true ->
  d < fst (apply_pure a data sp d).
Proof.
  intros Hd Ht Hc. unfold apply_pure, group_start.
  destruct (Z.ltb_spec d (len data)); [|lia].
  destruct (starPrefix sp) eqn:Hs; simpl.
  - pose proof (repeat_pure_range
                  (Z.to_nat (u8 (nth (Z.to_nat d) data x00))) sp
                  (u8 (nth (Z.to_nat d) data x00)) 0 (d + 1) ltac:(lia)) as H1.
    destruct (repeat_pure a data _ sp _ 0 (d + 1)) as [d' out].
    simpl in *. lia.
  - unfold consumes in Hc. rewrite Hs, orb_false_r in Hc.
    apply Z.ltb_lt in Hc.
    change (Z.to_nat 1) with 1%nat. simpl.
    destruct (Z.ltb_spec d (len data)); [|lia].
    pose proof (next_end_progress (take_ sp) d ltac:(lia) ltac:(lia)).
    simpl. lia.
Qed.

End blocks.

(** * Reading a specification *)

Section parsing.
Variable a : Arch.
Variable hint : list byte.

Lemma index_lookup {R : Type} (p : Z) (b : byte) :
  0 <= p -> hint !! Z.to_nat p = Some b -> index (R:=R) hint p = Val b.
Proof.
  intros Hp Hb. pose proof (lookup_lt_Some _ _ _ Hb) as Hlt.
  destruct (index_val (R:=R) hint p) as (x & -> & Hx);
    [unfold len; lia|congruence].
Qed.

(** [p < len(hint) && f(hint[p])]. *)
Lemma guarded_index {R : Type} (p : Z) (k : byte -> outcome R bool) :
  0 <= p ->
  and_then (p <? len hint) (index hint p ≫= k)
  = match hint !! Z.to_nat p with
    | Some b => k b
    | None => Val false
    end.
Proof.
  intros Hp. unfold and_then.
  destruct (hint !! Z.to_nat p) as [b|] eqn:E.
  - pose proof (lookup_lt_Some _ _ _ E).
    destruct (Z.ltb_spec p (len hint)); [|unfold len in *; lia].
    by rewrite (index_lookup p b).
  - apply lookup_ge_None in E.
    destruct (Z.ltb_spec p (len hint)); [unfold len in *; lia|reflexivity].
Qed.

Lemma digit_at_lt (p : Z) : 0 <= p -> digit_at hint p = true -> p < len hint.
Proof.
  unfold digit_at. intros Hp H.
  destruct (hint !! Z.to_nat p) eqn:E; [|discriminate].
  apply lookup_lt_Some in E. unfold len. lia.
Qed.

Lemma sep_at_lt (p : Z) : 0 <= p -> sep_at hint p = true -> p < len hint.
Proof.
  unfold sep_at. intros Hp H.
  destruct (hint !! Z.to_nat p) eqn:E; [|discriminate].
  apply lookup_lt_Some in E. unfold len. lia.
Qed.

Lemma byte_sub_digit (b : byte) :
  (48 <=? u8 b) && (u8 b <=? 57) = true ->
  u8 (byte_sub b "0") = u8 b - 48.
Proof.
  intros H. apply andb_true_iff in H as [H1 H2].
  apply Z.leb_le in H1, H2. unfold byte_sub.
  change (u8 "0") with 48. apply u8_byte_of_Z. lia.
Qed.

(** *** The single-pass formatter *)

Lemma not_digit_at_val (p : Z) (b : byte) :
  0 <= p -> hint !! Z.to_nat p = Some b ->
  collector.not_digit_at hint p
  = Val (negb ((48 <=? u8 b) && (u8 b <=? 57))).
Proof.
  intros Hp Hb. unfold collector.not_digit_at.
  rewrite (index_lookup p b) by assumption. simpl.
  change (u8 "0") with 48. change (u8 "9") with 57. unfold or_else.
  destruct (Z.ltb_spec (u8 b) 48), (Z.leb_spec 48 (u8 b)); try lia;
    try reflexivity.
  simpl. destruct (Z.ltb_spec 57 (u8 b)), (Z.leb_spec (u8 b) 57); try lia;
    reflexivity.
Qed.

Lemma take_loop_pure (fuel : nat) :
  forall t p : Z,
    0 <= p -> len hint - p <= Z.of_nat fuel ->
    collector.take_loop a hint fuel t p = Val (take_pure a hint fuel t p).
Proof.
  induction fuel as [|fuel IH]; intros t p Hp Hf.
  - simpl. rewrite guarded_index by assumption.
    destruct (hint !! Z.to_nat p) eqn:E; [|reflexivity].
    apply lookup_lt_Some in E. unfold len in *. lia.
  - cbn [collector.take_loop take_pure].
    rewrite guarded_index by assumption.
    destruct (hint !! Z.to_nat p) as [b|] eqn:E; [|reflexivity].
    rewrite (index_lookup p b) by assumption.
    change (u8 "0") with 48. change (u8 "9") with 57.
    cbn [mbind outcome_bind mret outcome_ret and_then].
    destruct (Z.leb_spec 48 (u8 b)); cbn [andb]; [|reflexivity].
    destruct (Z.leb_spec (u8 b) 57); cbn [andb]; [|reflexivity].
    rewrite byte_sub_digit.
    + apply IH; lia.
    + destruct (Z.leb_spec 48 (u8 b)), (Z.leb_spec (u8 b) 57);
        try lia; reflexivity.
Qed.

Lemma take_at_pure (q : Z) :
  0 <= q -> take_at a hint q = fst (take_pure a hint (length hint) 0 q).
Proof.
  intros Hq. unfold take_at.
  rewrite take_loop_pure by (unfold len; lia).
  by destruct (take_pure a hint (length hint) 0 q).
Qed.

Lemma take_pure_range (fuel : nat) :
  forall t p : Z,
    0 <= p <= len hint ->
    p <= snd (take_pure a hint fuel t p) <= len hint
    /\ (fst (take_pure a hint fuel t p) = t
        \/ min_int a <= fst (take_pure a hint fuel t p) <= max_int a)
    /\ (digit_at hint p = true -> (0 < fuel)%nat ->
        p < snd (take_pure a hint fuel t p)
        /\ min_int a <= fst (take_pure a hint fuel t p) <= max_int a).
Proof.
  induction fuel as [|fuel IH]; intros t p Hp; simpl.
  - split; [lia|]. split; [by left|]. intros _ H. lia.
  - unfold digit_at.
    destruct (hint !! Z.to_nat p) as [b|] eqn:E.
    2:{ split; [simpl; lia|]. split; [by left|]. discriminate. }
    destruct ((48 <=? u8 b) && (u8 b <=? 57)) eqn:Hd.
    2:{ split; [simpl; lia|]. split; [by left|]. discriminate. }
    pose proof (lookup_lt_Some _ _ _ E) as Hlt.
    set (t' := int_add a (int_mul a t 10) (u8 b - 48)).
    assert (min_int a <= t' <= max_int a) as Ht'
      by apply wrap_int_range.
    destruct (IH t' (p + 1)) as (H1 & H2 & _); [unfold len in *; lia|].
    split; [lia|]. split; [right; lia|]. intros _ _. lia.
Qed.

End parsing.

Section parse_single.
Variable a : Arch.
Variable hint : list byte.

Lemma star_cond {R : Type} (p : Z) :
  0 <= p ->
  and_then (R:=R) (p <? len hint)
    (index hint p ≫= (fun b => mret (byte_eqb b "*")))
  = Val (star_at hint p).
Proof.
  intros Hp. rewrite guarded_index by assumption. unfold star_at.
  by destruct (hint !! Z.to_nat p).
Qed.

Lemma bad_cond (q : Z) :
  0 <= q ->
  or_else (len hint <=? q) (collector.not_digit_at hint q)
  = Val (negb (digit_at hint q)).
Proof.
  intros Hq. unfold digit_at, or_else.
  destruct (hint !! Z.to_nat q) as [b|] eqn:E.
  - pose proof (lookup_lt_Some _ _ _ E).
    destruct (Z.leb_spec (len hint) q); [unfold len in *; lia|].
    by apply not_digit_at_val.
  - apply lookup_ge_None in E.
    destruct (Z.leb_spec (len hint) q); [reflexivity|unfold len in *; lia].
Qed.

Lemma sep_cond (g : bool) (p : Z) :
  0 <= p ->
  and_then (g && (p <? len hint))
    (collector.not_digit_at hint p ≫= (fun nd =>
       and_then nd (index hint p ≫= (fun b => mret (negb (byte_eqb b "*"))))))
  = Val (g && sep_at hint p).
Proof.
  intros Hp. unfold sep_at, and_then.
  destruct (hint !! Z.to_nat p) as [b|] eqn:E.
  - pose proof (lookup_lt_Some _ _ _ E).
    destruct (Z.ltb_spec p (len hint)); [|unfold len in *; lia].
    destruct g; [|reflexivity]. cbn [andb].
    rewrite (not_digit_at_val hint p b), (index_lookup hint p b) by assumption.
    cbn. by destruct (negb _).
  - apply lookup_ge_None in E.
    destruct (Z.ltb_spec p (len hint)); [unfold len in *; lia|].
    by rewrite !andb_false_r.
Qed.

Lemma format_check (fc : byte) :
  negb (byte_eqb fc "d") && negb (byte_eqb fc "x") && negb (byte_eqb fc "o")
  && negb (byte_eqb fc "a") && negb (byte_eqb fc "t")
  = negb (is_format fc).
Proof.
  unfold is_format.
  by destruct (byte_eqb fc "d"), (byte_eqb fc "x"), (byte_eqb fc "o"),
    (byte_eqb fc "a"), (byte_eqb fc "t").
Qed.

Lemma sep_at_nth (p : Z) :
  0 <= p -> sep_at hint p = true ->
  hint !! Z.to_nat p = Some (nth (Z.to_nat p) hint x00).
Proof.
  unfold sep_at. intros Hp H. rewrite nth_lookup.
  by destruct (hint !! Z.to_nat p).
Qed.

(** The block that reads a specification is [parse_pure]. *)
Lemma parse_spec_pure (p : Z) :
  0 <= p ->
  collector.parse_spec a hint p = parse_outcome (parse_pure a hint p).
Proof.
  intros Hp. unfold collector.parse_spec, parse_pure.
  rewrite star_cond by assumption. cbn [mbind outcome_bind].
  set (q := if star_at hint p then p + 1 else p).
  assert (0 <= q) as Hq by (subst q; destruct (star_at hint p); lia).
  rewrite bad_cond by assumption. cbn [mbind outcome_bind].
  destruct (digit_at hint q) eqn:Hdig; cbn [negb]; [|reflexivity].
  rewrite take_loop_pure by (unfold len; lia). cbn [mbind outcome_bind].
  pose proof (take_pure_range a hint (length hint) 0 q) as Hrange.
  destruct (take_pure a hint (length hint) 0 q) as [t p1].
  pose proof (digit_at_lt hint q Hq Hdig) as Hqlt.
  destruct Hrange as (Hp1 & _ & _); [lia|]. cbn [fst snd] in Hp1.
  destruct (t <? 0); [reflexivity|].
  destruct (hint !! Z.to_nat p1) as [fc|] eqn:Efc.
  2:{ apply lookup_ge_None in Efc.
      destruct (Z.leb_spec (len hint) p1); [reflexivity|unfold len in *; lia]. }
  pose proof (lookup_lt_Some _ _ _ Efc).
  destruct (Z.leb_spec (len hint) p1); [unfold len in *; lia|].
  rewrite (index_lookup hint p1 fc) by (assumption || lia).
  cbn [mbind outcome_bind]. rewrite format_check.
  destruct (is_format fc); cbn [negb]; [|reflexivity].
  pose proof (sep_cond true (p1 + 1) ltac:(lia)) as Hsep.
  cbn [andb] in Hsep. rewrite Hsep. clear Hsep. cbn [mbind outcome_bind].
  destruct (sep_at hint (p1 + 1)) eqn:Es.
  - rewrite (index_lookup hint (p1 + 1) _ ltac:(lia)
               (sep_at_nth (p1 + 1) ltac:(lia) Es)).
    cbn [mbind outcome_bind mret outcome_ret].
    rewrite sep_cond by lia. cbn [mbind outcome_bind].
    destruct (star_at hint p && sep_at hint (p1 + 1 + 1)) eqn:Et.
    + apply andb_true_iff in Et as [_ Et].
      rewrite (index_lookup hint (p1 + 1 + 1) _ ltac:(lia)
                 (sep_at_nth (p1 + 1 + 1) ltac:(lia) Et)).
      reflexivity.
    + reflexivity.
  - cbn [mbind outcome_bind mret outcome_ret].
    rewrite sep_cond by lia. cbn [mbind outcome_bind].
    destruct (star_at hint p && sep_at hint (p1 + 1)) eqn:Et.
    + apply andb_true_iff in Et as [_ Et]. congruence.
    + reflexivity.
Qed.

End parse_single.

(** * The outer loop *)

Section outer_loop.
Variable a : Arch.
Variables hint data : list byte.

Lemma parse_pure_parsed (p : Z) (sp : spec) (p' : Z) :
  0 <= p -> parse_pure a hint p = Some (sp, p') -> parsed a hint p sp p'.
Proof.
  intros Hp. unfold parse_pure, parsed.
  set (q := if star_at hint p then p + 1 else p).
  assert (0 <= q) as Hq by (subst q; destruct (star_at hint p); lia).
  destruct (digit_at hint q) eqn:Hdig; cbn [negb]; [|discriminate].
  pose proof (take_pure_range a hint (length hint) 0 q) as Hrange.
  pose proof (take_at_pure a hint q Hq) as Hat.
  destruct (take_pure a hint (length hint) 0 q) as [t p1].
  pose proof (digit_at_lt hint q Hq Hdig) as Hqlt.
  destruct Hrange as (_ & _ & Hprog); [lia|].
  destruct Hprog as [Hp1 Ht]; [exact Hdig|unfold len in *; lia|].
  cbn [fst snd] in *.
  destruct (Z.ltb_spec t 0); [discriminate|].
  destruct (hint !! Z.to_nat p1) as [fc|] eqn:Efc; [|discriminate].
  pose proof (lookup_lt_Some _ _ _ Efc) as Hfc.
  destruct (is_format fc) eqn:Hfmt; cbn [negb]; [|discriminate].
  intros [= <- <-]. cbn [starPrefix take_ fmtChar hasSep hasTerm].
  fold q. rewrite Hat.
  split; [reflexivity|]. split; [assumption|]. split; [reflexivity|].
  split; [lia|].
  assert (p1 + 1 <= len hint) by (unfold len; lia).
  assert (forall x, 0 <= x -> sep_at hint x = true -> x < len hint) as Hs
    by (intros; by apply sep_at_lt).
  assert (is_format fc = true /\ q < p1 /\ p1 + 1 <= len hint) as (? & ? & ?)
    by (repeat split; [assumption|lia|lia]).
  clearbody q. clear Hat Hdig Hfc Efc Hfmt.
  pose proof (Hs (p1 + 1) ltac:(lia)) as Hs1.
  pose proof (Hs (p1 + 1 + 1) ltac:(lia)) as Hs2.
  destruct (sep_at hint (p1 + 1)) eqn:Es.
  - specialize (Hs1 eq_refl).
    destruct (star_at hint p); cbn [andb];
      [destruct (sep_at hint (p1 + 1 + 1));
       [specialize (Hs2 eq_refl)|clear Hs2]|];
      repeat split; first [lia | assumption | discriminate | reflexivity].
  - destruct (star_at hint p); cbn [andb]; rewrite ?Es;
      repeat split; first [lia | assumption | discriminate | reflexivity].
Qed.

Lemma parsed_advances (p : Z) (sp : spec) (p' : Z) :
  parsed a hint p sp p' -> p + 2 <= p' <= len hint.
Proof.
  unfold parsed. intros (_ & _ & _ & _ & H & H' & _).
  destruct (starPrefix sp), (hasSep sp), (hasTerm sp); lia.
Qed.

(** The body of the outer loop is [iter_pure]. *)
Lemma iteration_pure (st : locals) :
  0 <= hintPos st -> 0 <= lastSpecStart st -> 0 <= dataPos st <= len data ->
  collector.iteration a hint data st
  = match iter_pure a hint data st with
    | Some st' => Val st'
    | None => Return ([], false)
    end.
Proof.
  intros Hh Hl Hd. unfold collector.iteration, iter_pure.
  destruct (len hint <=? hintPos st); cbn [andb].
  - destruct (lastSpecConsumesByte st); cbn [negb]; [|reflexivity].
    cbn [mbind outcome_bind mret outcome_ret].
    rewrite parse_spec_pure by assumption.
    destruct (parse_pure a hint (lastSpecStart st)) as [[sp p']|];
      [|reflexivity].
    cbn [parse_outcome mbind outcome_bind].
    rewrite apply_spec_pure by assumption.
    cbn [mbind outcome_bind mret outcome_ret].
    by destruct (apply_pure a data sp (dataPos st)).
  - cbn [mbind outcome_bind mret outcome_ret].
    rewrite parse_spec_pure by assumption.
    destruct (parse_pure a hint (hintPos st)) as [[sp p']|]; [|reflexivity].
    cbn [parse_outcome mbind outcome_bind].
    rewrite apply_spec_pure by assumption.
    cbn [mbind outcome_bind mret outcome_ret].
    by destruct (apply_pure a data sp (dataPos st)).
Qed.

(** Every iteration keeps the invariant and moves a cursor forward. *)
Lemma iter_pure_inv (st st' : locals) :
  loop_inv a hint data st -> dataPos st < len data ->
  iter_pure a hint data st = Some st' ->
  loop_inv a hint data st'
  /\ measure hint data st' < measure hint data st
  /\ dataPos st <= dataPos st'.
Proof.
  intros (Hh & Hd & Hl & Hlast) Hlt. unfold iter_pure.
  destruct (Z.leb_spec (len hint) (hintPos st)) as [Hend|Hmore]; cbn [andb].
  - destruct (lastSpecConsumesByte st) eqn:Hc; cbn [negb]; [|discriminate].
    destruct (Hlast eq_refl) as (sp & Hparse & Hcons).
    rewrite Hparse.
    pose proof (parse_pure_parsed _ _ _ Hl Hparse) as Hsp.
    pose proof (apply_pure_range a data sp (dataPos st) Hd) as Hr.
    pose proof (apply_pure_progress a data sp (dataPos st) ltac:(lia)) as Hprog.
    destruct Hsp as (_ & _ & _ & Htake & _).
    specialize (Hprog Htake Hcons).
    destruct (apply_pure a data sp (dataPos st)) as [d' out].
    cbn [fst snd] in *. intros [= <-].
    unfold loop_inv, measure. cbn [hintPos dataPos lastSpecStart lastSpecConsumesByte].
    split; [|lia]. repeat split; try lia. intros _. eauto.
  - destruct (parse_pure a hint (hintPos st)) as [[sp p']|] eqn:Hparse;
      [|discriminate].
    pose proof (parse_pure_parsed (hintPos st) sp p' ltac:(lia) Hparse) as Hsp.
    pose proof (parsed_advances _ _ _ Hsp) as Hadv.
    pose proof (apply_pure_range a data sp (dataPos st) Hd) as Hr.
    destruct (apply_pure a data sp (dataPos st)) as [d' out].
    cbn [fst snd] in *. intros [= <-].
    unfold loop_inv, measure. cbn [hintPos dataPos lastSpecStart lastSpecConsumesByte].
    split; [|lia]. repeat split; try lia. intros Hc. eauto.
Qed.

Lemma measure_pos (st : locals) :
  loop_inv a hint data st -> dataPos st < len data -> 1 <= measure hint data st.
Proof. intros (Hh & Hd & _) Hlt. unfold measure. lia. Qed.

(** With fuel for what is left of the hint and the data, the loop
    returns. *)
Lemma loop_returns (fuel : nat) :
  forall st : locals,
    loop_inv a hint data st -> measure hint data st <= Z.of_nat fuel ->
    exists s ok, collector.loop a hint data fuel st = Return (s, ok).
Proof.
  induction fuel as [|fuel IH]; intros st Hinv Hm.
  - simpl. destruct (Z.ltb_spec (dataPos st) (len data)); [|eauto].
    pose proof (measure_pos st Hinv ltac:(lia)). lia.
  - cbn [collector.loop].
    destruct (Z.ltb_spec (dataPos st) (len data)) as [Hlt|]; [|eauto].
    pose proof Hinv as (Hh & Hd & Hl & _).
    rewrite iteration_pure by lia.
    destruct (iter_pure a hint data st) as [st'|] eqn:Hit.
    + cbn [mbind outcome_bind].
      destruct (iter_pure_inv st st' Hinv Hlt Hit) as (Hinv' & Hm' & _).
      apply IH; [assumption|lia].
    + cbn [mbind outcome_bind]. eauto.
Qed.

(** Fuel beyond the measure does not change the result. *)
Lemma loop_fuel (fuel : nat) :
  forall (fuel' : nat) (st : locals),
    loop_inv a hint data st ->
    measure hint data st <= Z.of_nat fuel ->
    measure hint data st <= Z.of_nat fuel' ->
    collector.loop a hint data fuel st = collector.loop a hint data fuel' st.
Proof.
  induction fuel as [|fuel IH]; intros fuel' st Hinv Hm Hm'.
  - destruct fuel'; simpl;
      destruct (Z.ltb_spec (dataPos st) (len data)); try reflexivity;
      pose proof (measure_pos st Hinv ltac:(lia)); lia.
  - destruct fuel' as [|fuel'].
    + simpl. destruct (Z.ltb_spec (dataPos st) (len data)); try reflexivity.
      pose proof (measure_pos st Hinv ltac:(lia)). lia.
    + cbn [collector.loop].
      destruct (Z.ltb_spec (dataPos st) (len data)) as [Hlt|]; [|reflexivity].
      pose proof Hinv as (Hh & Hd & Hl & _).
      rewrite iteration_pure by lia.
      destruct (iter_pure a hint data st) as [st'|] eqn:Hit; [|reflexivity].
      cbn [mbind outcome_bind].
      destruct (iter_pure_inv st st' Hinv Hlt Hit) as (Hinv' & Hm'' & _).
      apply IH; [assumption|lia|lia].
Qed.

Lemma loop_inv_start (res : list byte) :
  loop_inv a hint data (Locals 0 0 0 false res).
Proof.
  unfold loop_inv. cbn. pose proof (len_nonneg hint).
  pose proof (len_nonneg data). repeat split; try lia; discriminate.
Qed.

Lemma measure_start (res : list byte) :
  measure hint data (Locals 0 0 0 false res)
  = Z.of_nat (length hint + length data).
Proof. unfold measure, len. cbn. lia. Qed.

End outer_loop.

(** * The revision computes the same loop *)

Section same_loop.
Variable a : Arch.
Variables hint data : list byte.

Lemma bind_ext {R A B : Type} (m : outcome R A) (k k' : A -> outcome R B) :
  (forall x, k x = k' x) -> m ≫= k = m ≫= k'.
Proof. intros H. destruct m; simpl; auto. Qed.

Lemma isDigit_range (b : byte) :
  collector2.isDigit b = (48 <=? u8 b) && (u8 b <=? 57).
Proof. reflexivity. Qed.

Lemma digit_cond_eq (p : Z) :
  and_then (R:=text_ok) (p <? len hint)
    (index hint p ≫= (fun b => mret (collector2.isDigit b)))
  = and_then (p <? len hint)
      (index hint p ≫= (fun b =>
         and_then (u8 "0" <=? u8 b)
           (index hint p ≫= (fun b => mret (u8 b <=? u8 "9"))))).
Proof.
  destruct (p <? len hint); [|reflexivity]. simpl.
  destruct (index hint p) as [b| | |] eqn:E; simpl; try reflexivity.
  rewrite isDigit_range. change (u8 "0") with 48. change (u8 "9") with 57.
  destruct (48 <=? u8 b); simpl; reflexivity.
Qed.

Lemma take_loop_eq (fuel : nat) :
  forall t p : Z,
    collector2.take_loop a hint fuel t p = collector.take_loop a hint fuel t p.
Proof.
  induction fuel as [|fuel IH]; intros t p;
    cbn [collector2.take_loop collector.take_loop];
    rewrite digit_cond_eq; apply bind_ext; intros [|]; try reflexivity.
  apply bind_ext. intros b. apply IH.
Qed.

Lemma large_take_loop_eq (fuel : nat) :
  forall t p : Z,
    collector2.large_take_loop a hint fuel t p
    = collector.take_loop a hint fuel t p.
Proof.
  induction fuel as [|fuel IH]; intros t p;
    cbn [collector2.large_take_loop collector.take_loop];
    rewrite digit_cond_eq; apply bind_ext; intros [|]; try reflexivity.
  apply bind_ext. intros b. apply IH.
Qed.

Lemma not_digit_eq (p : Z) :
  index (R:=text_ok) hint p ≫= (fun b => mret (negb (collector2.isDigit b)))
  = collector.not_digit_at hint p.
Proof.
  unfold collector.not_digit_at.
  destruct (index hint p) as [b| | |] eqn:E; simpl; try reflexivity.
  rewrite isDigit_range. change (u8 "0") with 48. change (u8 "9") with 57.
  unfold or_else.
  destruct (Z.ltb_spec (u8 b) 48), (Z.leb_spec 48 (u8 b)); try lia;
    try reflexivity.
  simpl.
  destruct (Z.ltb_spec 57 (u8 b)), (Z.leb_spec (u8 b) 57); try lia;
    reflexivity.
Qed.

Lemma sep_cond_eq (g : bool) (p : Z) :
  and_then (R:=text_ok) g
    (index hint p ≫= (fun b =>
       and_then (negb (collector2.isDigit b))
         (index hint p ≫= (fun b => mret (negb (byte_eqb b "*"))))))
  = and_then g
      (collector.not_digit_at hint p ≫= (fun nd =>
         and_then nd
           (index hint p ≫= (fun b => mret (negb (byte_eqb b "*")))))).
Proof.
  destruct g; [|reflexivity]. simpl.
  rewrite <- not_digit_eq.
  destruct (index hint p) as [b| | |] eqn:E; simpl; try reflexivity.
Qed.

Lemma parse_spec_eq (p : Z) :
  collector2.parse_spec a hint p = collector.parse_spec a hint p.
Proof.
  unfold collector2.parse_spec, collector.parse_spec.
  apply bind_ext. intros star.
  rewrite <- not_digit_eq. apply bind_ext. intros [|]; [reflexivity|].
  rewrite take_loop_eq. apply bind_ext. intros [t p1].
  destruct (t <? 0); [reflexivity|].
  destruct (len hint <=? p1); [reflexivity|].
  apply bind_ext. intros fc.
  match goal with |- (if ?c then _ else _) = _ => destruct c end;
    [reflexivity|].
  rewrite sep_cond_eq. apply bind_ext. intros c.
  apply bind_ext. intros [[s hs] p3].
  rewrite sep_cond_eq. reflexivity.
Qed.

Lemma large_parse_spec_eq (p : Z) :
  collector2.large_parse_spec a hint p = collector.parse_spec a hint p.
Proof.
  unfold collector2.large_parse_spec, collector.parse_spec.
  apply bind_ext. intros star.
  rewrite <- not_digit_eq. apply bind_ext. intros [|]; [reflexivity|].
  rewrite large_take_loop_eq. apply bind_ext. intros [t p1].
  destruct (t <? 0); [reflexivity|].
  destruct (len hint <=? p1); [reflexivity|].
  apply bind_ext. intros fc.
  match goal with |- (if ?c then _ else _) = _ => destruct c end;
    [reflexivity|].
  rewrite sep_cond_eq. apply bind_ext. intros c.
  apply bind_ext. intros [[s hs] p3].
  rewrite sep_cond_eq. reflexivity.
Qed.

Lemma hex_loop_eq (chunk : list byte) :
  forall res : list byte,
    collector2.hex_loop chunk res = collector.hex_loop chunk res.
Proof.
  induction chunk as [|b chunk IH]; intros res; simpl; [reflexivity|].
  apply bind_ext. intros hi. apply bind_ext. intros lo.
  rewrite IH. by rewrite <- app_assoc.
Qed.

Lemma large_hex_loop_eq (chunk : list byte) :
  forall res : list byte,
    collector2.large_hex_loop chunk res = collector.hex_loop chunk res.
Proof.
  induction chunk as [|b chunk IH]; intros res; simpl; [reflexivity|].
  apply bind_ext. intros hi. apply bind_ext. intros lo. apply IH.
Qed.

Lemma format_chunk_eq (fc : byte) (chunk res : list byte) :
  collector2.format_chunk fc chunk res = collector.format_chunk fc chunk res.
Proof.
  unfold collector2.format_chunk, collector.format_chunk.
  destruct (byte_eqb fc "d"); [reflexivity|].
  destruct (byte_eqb fc "x"); [apply hex_loop_eq|].
  destruct (byte_eqb fc "o"); reflexivity.
Qed.

Lemma large_format_chunk_eq (fc : byte) (chunk res : list byte) :
  collector2.large_format_chunk fc chunk res
  = collector.format_chunk fc chunk res.
Proof.
  unfold collector2.large_format_chunk, collector.format_chunk.
  destruct (byte_eqb fc "d"); [reflexivity|].
  destruct (byte_eqb fc "x"); [apply large_hex_loop_eq|].
  destruct (byte_eqb fc "o"); reflexivity.
Qed.

Lemma repeat_loop_eq (fuel : nat) (sp : spec) (rc : Z) :
  forall (r d : Z) (res : list byte),
    collector2.repeat_loop a data fuel sp rc r d res
    = collector.repeat_loop a data fuel sp rc r d res.
Proof.
  induction fuel as [|fuel IH]; intros r d res; [reflexivity|].
  cbn [collector2.repeat_loop collector.repeat_loop].
  destruct ((r <? rc) && (d <? len data)); [|reflexivity].
  cbv zeta. apply bind_ext. intros chunk.
  rewrite format_chunk_eq. apply bind_ext. intros res'. apply IH.
Qed.

Lemma large_repeat_loop_eq (fuel : nat) (sp : spec) (rc : Z) :
  forall (r d : Z) (res : list byte),
    collector2.large_repeat_loop a data fuel sp rc r d res
    = collector.repeat_loop a data fuel sp rc r d res.
Proof.
  induction fuel as [|fuel IH]; intros r d res; [reflexivity|].
  cbn [collector2.large_repeat_loop collector.repeat_loop].
  destruct ((r <? rc) && (d <? len data)); [|reflexivity].
  cbv zeta. apply bind_ext. intros chunk.
  rewrite large_format_chunk_eq. apply bind_ext. intros res'. apply IH.
Qed.

Lemma apply_spec_eq (sp : spec) (d : Z) (res : list byte) :
  collector2.apply_spec a data sp d res = collector.apply_spec a data sp d res.
Proof.
  unfold collector2.apply_spec, collector.apply_spec.
  apply bind_ext. intros [rc d1]. by rewrite repeat_loop_eq.
Qed.

Lemma large_apply_spec_eq (sp : spec) (d : Z) (res : list byte) :
  collector2.large_apply_spec a data sp d res
  = collector.apply_spec a data sp d res.
Proof.
  unfold collector2.large_apply_spec, collector.apply_spec.
  apply bind_ext. intros [rc d1]. by rewrite large_repeat_loop_eq.
Qed.

Lemma iteration_eq (st : locals) :
  collector2.iteration a hint data st = collector.iteration a hint data st.
Proof.
  unfold collector2.iteration, collector.iteration.
  apply bind_ext. intros [p start]. rewrite parse_spec_eq.
  apply bind_ext. intros [sp p']. by rewrite apply_spec_eq.
Qed.

Lemma large_iteration_eq (st : locals) :
  collector2.large_iteration a hint data st
  = collector.iteration a hint data st.
Proof.
  unfold collector2.large_iteration, collector.iteration.
  apply bind_ext. intros [p start]. rewrite large_parse_spec_eq.
  apply bind_ext. intros [sp p']. by rewrite large_apply_spec_eq.
Qed.

(** The loop of the stack-buffer path is the loop of the single-pass
    formatter. *)
Lemma loop_eq (fuel : nat) :
  forall st : locals,
    collector2.loop a hint data fuel st = collector.loop a hint data fuel st.
Proof.
  induction fuel as [|fuel IH]; intros st; [reflexivity|].
  cbn [collector2.loop collector.loop].
  destruct (dataPos st <? len data); [|reflexivity].
  rewrite iteration_eq. apply bind_ext. intros st'. apply IH.
Qed.

(** So is the loop of [applyDisplayHintLarge]. *)
Lemma large_loop_eq (fuel : nat) :
  forall st : locals,
    collector2.large_loop a hint data fuel st
    = collector.loop a hint data fuel st.
Proof.
  induction fuel as [|fuel IH]; intros st; [reflexivity|].
  cbn [collector2.large_loop collector.loop].
  destruct (dataPos st <? len data); [|reflexivity].
  rewrite large_iteration_eq. apply bind_ext. intros st'. apply IH.
Qed.

(** The scan of [estimateOutputSize] stays within the hint. *)
Lemma estimate_loop_wp (dataLen : Z) (fuel : nat) :
  forall i : Z,
    -1 <= i < len hint -> i + 1 <= Z.of_nat fuel ->
    wp (collector2.estimate_loop a hint fuel dataLen i)
       (fun _ => True) (fun _ => True).
Proof.
  induction fuel as [|fuel IH]; intros i Hi Hf.
  - simpl. destruct (Z.leb_spec 0 i); [lia|exact I].
  - cbn [collector2.estimate_loop].
    destruct (Z.leb_spec 0 i); [|exact I].
    apply wp_bind. apply wp_index; [lia|]. intros c _.
    destruct (byte_eqb c "a" || byte_eqb c "t"); [exact I|].
    destruct (byte_eqb c "x"); [exact I|].
    destruct (byte_eqb c "d" || byte_eqb c "o"); [exact I|].
    apply IH; lia.
Qed.

Lemma estimateOutputSize_returns (dataLen : Z) :
  exists n : Z, collector2.estimateOutputSize a hint dataLen = Return n.
Proof.
  unfold collector2.estimateOutputSize.
  pose proof (estimate_loop_wp dataLen (length hint) (len hint - 1)) as H.
  pose proof (len_nonneg hint).
  destruct (collector2.estimate_loop a hint (length hint) dataLen (len hint - 1));
    simpl in *; eauto.
  - exfalso. apply H; unfold len in *; lia.
  - exfalso. apply H; unfold len in *; lia.
Qed.

(** The revision, in terms of the loop of the single-pass formatter. *)
Lemma applyDisplayHint2_loop (fuel : nat) :
  collector2.applyDisplayHint_fuel a hint data fuel
  = if (len hint =? 0) || (len data =? 0) then Return ([], false)
    else collector.loop a hint data fuel (Locals 0 0 0 false []).
Proof.
  unfold collector2.applyDisplayHint_fuel.
  destruct ((len hint =? 0) || (len data =? 0)); [reflexivity|].
  destruct (estimateOutputSize_returns (len data)) as [n ->].
  cbn [call mbind outcome_bind].
  destruct (Z.ltb_spec collector2.smallBufferSize n) as [Hn|].
  - unfold collector2.applyDisplayHintLarge_fuel, strings.Grow.
    unfold collector2.smallBufferSize in Hn.
    destruct (Z.ltb_spec n 0); [lia|].
    cbn [mbind outcome_bind]. apply large_loop_eq.
  - apply loop_eq.
Qed.

(** The single-pass formatter, when [Grow] accepts its count. *)
Lemma applyDisplayHint_loop (fuel : nat) :
  0 <= int_mul a (len data) 3 ->
  collector.applyDisplayHint_fuel a hint data fuel
  = if (len hint =? 0) || (len data =? 0) then Return ([], false)
    else collector.loop a hint data fuel (Locals 0 0 0 false []).
Proof.
  intros Hg. unfold collector.applyDisplayHint_fuel, strings.Grow.
  destruct ((len hint =? 0) || (len data =? 0)); [reflexivity|].
  destruct (Z.ltb_spec (int_mul a (len data) 3) 0); [lia|]. reflexivity.
Qed.

(** Whatever the inputs, the revision returns. *)
Lemma applyDisplayHint2_returns :
  exists s ok, collector2.applyDisplayHint a hint data = Return (s, ok).
Proof.
  unfold collector2.applyDisplayHint. rewrite applyDisplayHint2_loop.
  destruct ((len hint =? 0) || (len data =? 0)); [eauto|].
  apply loop_returns; [apply loop_inv_start|].
  rewrite measure_start. lia.
Qed.

End same_loop.

(** * Decimal and octal rendering *)

Section numeric_formats.

Lemma pow_64_le (base : Z) : 8 <= base -> 2 ^ 64 <= base ^ Z.of_nat 64.
Proof.
  intros Hb. change (2 ^ 64) with (2 ^ Z.of_nat 64).
  apply Z.pow_le_mono_l. lia.
Qed.

(** The numeral written for a [uint64] in base 8 or 10. *)
Lemma formatBits_uint64 (base v : Z) :
  8 <= base <= 10 -> 0 <= v < 2 ^ 64 ->
  digits_value base (strconv.formatBits 64 v base []) = Some v
  /\ canonical (strconv.formatBits 64 v base []) = true.
Proof.
  intros Hb Hv.
  pose proof (pow_64_le base ltac:(lia)) as Hp.
  destruct (formatBits_value base ltac:(lia) 63 v ltac:(lia))
    as (Hval & c & rest & Hds & Hnz & Hz).
  split; [exact Hval|].
  rewrite Hds. unfold canonical.
  destruct rest as [|c' rest]; [reflexivity|].
  destruct (Z.eq_dec v 0) as [->|Hne]; [by specialize (Hz eq_refl)|].
  specialize (Hnz Hne).
  destruct (Z.eqb_spec (u8 c) 48); [contradiction|reflexivity].
Qed.

Lemma be_value_exact (chunk : list byte) :
  len chunk <= 8 -> be_value chunk mod 2 ^ 64 = be_value chunk.
Proof.
  intros Hl. pose proof (be_value_bound chunk) as Hb.
  pose proof (len_nonneg chunk).
  apply Z.mod_small. split; [lia|].
  apply Z.lt_le_trans with (256 ^ len chunk); [lia|].
  change (2 ^ 64) with (256 ^ 8). apply Z.pow_le_mono_r; lia.
Qed.

End numeric_formats.



(** * Separators and terminators *)

Section separators.
Variable a : Arch.
Variable data : list byte.
Variable sp : spec.

Lemma sep_out_rule (rc r e : Z) :
  e <= len data -> sep_out data sp rc r e = sep_rule data sp rc r e.
Proof.
  intros He. unfold sep_out, sep_rule.
  destruct (hasSep sp); [|reflexivity]. cbn [andb].
  destruct (Z.ltb_spec e (len data)), (Z.eqb_spec e (len data)); try lia;
    cbn [andb]; [|reflexivity].
  by destruct (hasTerm sp), (r =? rc - 1).
Qed.

Lemma chunk_at_app (d e d' : Z) :
  0 <= d <= e -> e <= d' ->
  chunk_at data d e ++ chunk_at data e d' = chunk_at data d d'.
Proof.
  intros Hd He. unfold chunk_at.
  replace (Z.to_nat (d' - d)) with (Z.to_nat (e - d) + Z.to_nat (d' - e))%nat
    by lia.
  rewrite <- take_take_drop, drop_drop.
  do 3 f_equal. lia.
Qed.

Lemma repeat_pure_stop (n : nat) (rc r d : Z) :
  (r <? rc) && (d <? len data) = false ->
  repeat_pure a data n sp rc r d = (d, []).
Proof. intros H. destruct n; cbn [repeat_pure]; [|rewrite H]; reflexivity. Qed.

(** The text of the instances: the rendered chunks joined by the
    separator; the separator follows the last chunk only if input
    remains and no terminator is defined. *)
Lemma repeat_pure_text (rc : Z) (n : nat) :
  forall r d : Z,
    0 <= d <= len data -> rc - r <= Z.of_nat n ->
    exists chunks : list (list byte),
      snd (repeat_pure a data n sp rc r d)
      = join_sep (sep_text sp) (map (rendered (fmtChar sp)) chunks)
        ++ (if (fst (repeat_pure a data n sp rc r d) <? len data)
               && negb (hasTerm sp)
            then match chunks with [] => [] | _ :: _ => sep_text sp end
            else [])
      /\ concat chunks = chunk_at data d (fst (repeat_pure a data n sp rc r d))
      /\ (chunks = [] <-> (r <? rc) && (d <? len data) = false).
Proof.
  induction n as [|n IH]; intros r d Hd Hn.
  - exists []. cbn [repeat_pure fst snd].
    destruct (_ && negb _); cbn [map join_sep app concat].
    all: unfold chunk_at; rewrite Z.sub_diag; cbn [Z.to_nat take].
    all: repeat split; auto.
    all: intros _; destruct (Z.ltb_spec r rc); [lia|reflexivity].
  - cbn [repeat_pure].
    destruct ((r <? rc) && (d <? len data)) eqn:Hc.
    2:{ exists []. cbn [fst snd].
        destruct (_ && negb _); cbn [map join_sep app concat].
        all: unfold chunk_at; rewrite Z.sub_diag; cbn [Z.to_nat take].
        all: repeat split; auto. }
    apply andb_true_iff in Hc as [Hr Hdl]. apply Z.ltb_lt in Hr, Hdl.
    set (e := next_end a data (take_ sp) d).
    pose proof (next_end_range a data (take_ sp) d Hd) as He. fold e in He.
    destruct ((r + 1 <? rc) && (e <? len data)) eqn:Hnext.
    + (* another instance follows *)
      destruct (IH (r + 1) e ltac:(lia) ltac:(lia))
        as (chunks & Hout & Hcat & Hnil).
      pose proof (repeat_pure_range a data n sp rc (r + 1) e ltac:(lia)) as Hd'.
      destruct (repeat_pure a data n sp rc (r + 1) e) as [d' out].
      cbn [fst snd] in *.
      destruct chunks as [|c chunks].
      { destruct Hnil as [Hnil _]. specialize (Hnil eq_refl). congruence. }
      exists (chunk_at data d e :: c :: chunks). subst out.
      apply andb_true_iff in Hnext as [Hr' He'].
      apply Z.ltb_lt in Hr', He'.
      split; [|split].
      * rewrite sep_out_rule by lia. unfold sep_rule.
        cbn [map join_sep].
        destruct (Z.eqb_spec e (len data)); [lia|].
        destruct (Z.eqb_spec r (rc - 1)); [lia|].
        rewrite andb_false_r.
        change (if hasSep sp then [sep sp] else []) with (sep_text sp).
        by rewrite <- !app_assoc.
      * rewrite concat_cons, Hcat. apply chunk_at_app; lia.
      * split; discriminate.
    + (* this instance is the last *)
      rewrite (repeat_pure_stop n rc (r + 1) e Hnext). cbn [fst snd].
      exists [chunk_at data d e].
      split; [|split].
      * cbn [map join_sep app]. rewrite app_nil_r.
        rewrite sep_out_rule by lia. unfold sep_rule, sep_text.
        apply andb_false_iff in Hnext.
        assert (e < len data -> r = rc - 1) as Hlast.
        { intros. destruct Hnext as [Hn'|Hn']; apply Z.ltb_ge in Hn'; lia. }
        clear Hnext.
        destruct (hasSep sp); cbn [andb]; [|by destruct (_ && _)].
        destruct (Z.eqb_spec e (len data)), (Z.ltb_spec e (len data));
          try lia; cbn [andb]; [reflexivity|].
        destruct (Z.eqb_spec r (rc - 1)); [|lia].
        by destruct (hasTerm sp).
      * cbn [concat]. by rewrite app_nil_r.
      * split; discriminate.
Qed.

End separators.

(** C2.  After each applied instance the separator, if one is defined, is
    written, unless the cursor has reached the end of the input or the
    instance is the final repetition of a group whose terminator is
    written next ([sep_rule]).  For a whole group this gives
    [group_text]: the rendered chunks joined by the separator, followed,
    only if input remains, by the terminator or (without a terminator) by
    the separator; when the input is exhausted on the final repetition
    neither of the two is written.  The three formatter bodies agree. *)
Theorem separator_and_terminator_rule (a : Arch) (data : list byte) (sp : spec) :
  (forall (fuel : nat) (rc r d : Z) (res : list byte),
      r < rc -> 0 <= d < len data ->
      let e := next_end a data (take_ sp) d in
      let res' := res ++ rendered (fmtChar sp) (chunk_at data d e)
                      ++ sep_rule data sp rc r e in
      collector.repeat_loop a data (S fuel) sp rc r d res
      = collector.repeat_loop a data fuel sp rc (r + 1) e res'
      /\ collector2.repeat_loop a data (S fuel) sp rc r d res
         = collector2.repeat_loop a data fuel sp rc (r + 1) e res'
      /\ collector2.large_repeat_loop a data (S fuel) sp rc r d res
         = collector2.large_repeat_loop a data fuel sp rc (r + 1) e res')
  /\ (forall (d : Z) (res : list byte),
      0 <= d <= len data ->
      exists (chunks : list (list byte)) (d' : Z),
        let res' := res ++ group_text sp chunks (d' <? len data) in
        collector.apply_spec a data sp d res = Val (d', res')
        /\ collector2.apply_spec a data sp d res = Val (d', res')
        /\ collector2.large_apply_spec a data sp d res = Val (d', res')
        /\ concat chunks = chunk_at data (snd (group_start data sp d)) d').
Proof.
  split.
  - intros fuel rc r d res Hr Hd e res'.
    pose proof (next_end_range a data (take_ sp) d ltac:(lia)) as He.
    assert (collector.repeat_loop a data (S fuel) sp rc r d res
            = collector.repeat_loop a data fuel sp rc (r + 1) e res') as Hstep.
    { rewrite repeat_loop_step by assumption. cbv zeta.
      subst res' e. by rewrite sep_out_rule by lia. }
    split; [exact Hstep|].
    split.
    + etransitivity; [apply repeat_loop_eq|].
      etransitivity; [exact Hstep|]. symmetry. apply repeat_loop_eq.
    + etransitivity; [apply large_repeat_loop_eq|].
      etransitivity; [exact Hstep|]. symmetry. apply large_repeat_loop_eq.
  - intros d res Hd.
    pose proof (apply_spec_pure a data sp d res Hd) as E1.
    unfold apply_pure in E1.
    assert (0 <= snd (group_start data sp d) <= len data) as Hd1.
    { unfold group_start.
      destruct (starPrefix sp && (d <? len data)) eqn:Hs; cbn [snd]; [|lia].
      apply andb_true_iff in Hs as [_ Hs]. apply Z.ltb_lt in Hs. lia. }
    destruct (group_start data sp d) as [rc d1]. cbn [snd] in *.
    destruct (repeat_pure_text a data sp rc (Z.to_nat rc) 0 d1 Hd1 ltac:(lia))
      as (chunks & Hout & Hcat & _).
    destruct (repeat_pure a data (Z.to_nat rc) sp rc 0 d1) as [d' out].
    cbn [fst snd] in *. exists chunks, d'. cbv zeta.
    assert (out ++ (if hasTerm sp && (d' <? len data) then [term sp] else [])
            = group_text sp chunks (d' <? len data)) as Hg.
    { subst out. unfold group_text. rewrite <- app_assoc. f_equal.
      destruct (d' <? len data), (hasTerm sp); cbn [andb negb];
        by rewrite ?app_nil_r. }
    rewrite Hg in E1.
    split; [exact E1|].
    split; [etransitivity; [apply apply_spec_eq|exact E1]|].
    split; [etransitivity; [apply large_apply_spec_eq|exact E1]|].
    exact Hcat.
Qed.

(** The theorem at the group ["1d."] on the bytes [1 2 3]. *)
Lemma separator_and_terminator_rule_witness :
  collector.repeat_loop Arch64 (bytes [1; 2; 3]) 1
    (Spec false 1 "d" true "." false x00) 1 0 0 []
  = collector.repeat_loop Arch64 (bytes [1; 2; 3]) 0
      (Spec false 1 "d" true "." false x00) 1 1 1 (str "1.")
  /\ exists (chunks : list (list byte)) (d' : Z),
       collector.apply_spec Arch64 (bytes [1; 2; 3])
         (Spec false 1 "d" true "." false x00) 0 []
       = Val (d', [] ++ group_text (Spec false 1 "d" true "." false x00) chunks
                          (d' <? len (bytes [1; 2; 3]))).
Proof.
  destruct (separator_and_terminator_rule Arch64 (bytes [1; 2; 3])
              (Spec false 1 "d" true "." false x00)) as [Hstep Hgroup].
  split.
  - destruct (Hstep 0%nat 1 0 0 []) as (H & _ & _);
      [lia|vm_compute; split; [discriminate|reflexivity]|].
    exact H.
  - destruct (Hgroup 0 []) as (chunks & d' & H & _);
      [vm_compute; split; discriminate|].
    exists chunks, d'. exact H.
Defined.

(** * Termination *)

Section termination.
Variable a : Arch.
Variables hint data : list byte.

(** A reachable state satisfies the invariant, and the loop started
    there gives the result of the loop started at the beginning. *)
Lemma reachable_loop (st : locals) :
  reachable a hint data st ->
  loop_inv a hint data st
  /\ forall fuel : nat,
       measure hint data st <= Z.of_nat fuel ->
       collector.loop a hint data (length hint + length data)
         (Locals 0 0 0 false [])
       = collector.loop a hint data fuel st.
Proof.
  induction 1 as [|st st' Hreach [Hinv IH] Hlt Hit].
  - split; [apply loop_inv_start|]. intros fuel Hf.
    apply loop_fuel; [apply loop_inv_start| |assumption].
    rewrite measure_start. lia.
  - pose proof Hinv as (Hh & Hd & Hl & _).
    rewrite iteration_pure in Hit by lia.
    destruct (iter_pure a hint data st) as [st1|] eqn:Hpure;
      [|discriminate].
    injection Hit as ->.
    destruct (iter_pure_inv a hint data st st' Hinv Hlt Hpure)
      as (Hinv' & Hm & _).
    split; [assumption|]. intros fuel Hf.
    rewrite (IH (S (fuel + Z.to_nat (measure hint data st)))) by lia.
    cbn [collector.loop].
    destruct (Z.ltb_spec (dataPos st) (len data)); [|lia].
    rewrite iteration_pure, Hpure by lia. cbn [mbind outcome_bind].
    apply loop_fuel; [assumption|lia|assumption].
Qed.

(** At a state where the hint is exhausted, input remains and the last
    specification does not consume, the loop gives up. *)
Lemma degenerate_loop (fuel : nat) (st : locals) :
  dataPos st < len data -> len hint <= hintPos st ->
  lastSpecConsumesByte st = false ->
  collector.loop a hint data (S fuel) st = Return ([], false).
Proof.
  intros Hd Hh Hc. cbn [collector.loop].
  destruct (Z.ltb_spec (dataPos st) (len data)); [|lia].
  unfold collector.iteration.
  destruct (Z.leb_spec (len hint) (hintPos st)); [|lia].
  rewrite Hc. reflexivity.
Qed.

Lemma degenerate_state (st : locals) :
  reachable a hint data st ->
  dataPos st < len data -> len hint <= hintPos st ->
  lastSpecConsumesByte st = false ->
  collector.loop a hint data (length hint + length data)
    (Locals 0 0 0 false [])
  = Return ([], false).
Proof.
  intros Hreach Hd Hh Hc.
  destruct (reachable_loop st Hreach) as [Hinv Hloop].
  rewrite (Hloop (S (Z.to_nat (measure hint data st)))) by lia.
  by apply degenerate_loop.
Qed.

(** A specification without ['*'] and with octet length 0 leaves the
    cursor where it is. *)
Lemma apply_pure_zero (sp : spec) (d : Z) :
  starPrefix sp = false -> take_ sp = 0 ->
  0 <= d < len data -> len data <= max_int a ->
  fst (apply_pure a data sp d) = d.
Proof.
  intros Hs Ht Hd Hmax. unfold apply_pure, group_start.
  rewrite Hs. cbn [andb]. change (Z.to_nat 1) with 1%nat.
  cbn [repeat_pure].
  destruct (Z.ltb_spec d (len data)); [|lia]. cbn [Z.ltb Z.compare andb].
  unfold next_end, int_add. rewrite Ht, Z.add_0_r.
  pose proof (min_int_le a).
  rewrite wrap_int_small by lia.
  destruct (Z.ltb_spec (len data) d); [lia|].
  destruct (Z.ltb_spec d d); [lia|]. reflexivity.
Qed.

End termination.

(** C3.  [applyDisplayHint] terminates on every input: the fuel that the
    embedding gives to the outer loop is never used up, and more fuel
    does not change the result.  When the loop has read a last
    specification without ['*'] and with octet length 0 that ends the
    hint while input remains, the function returns [("", false)]. *)
Theorem applyDisplayHint_terminates (a : Arch) (hint data : list byte) :
  collector.applyDisplayHint a hint data <> OutOfFuel
  /\ collector2.applyDisplayHint a hint data <> OutOfFuel
  /\ (forall fuel : nat,
        (length hint + length data <= fuel)%nat ->
        collector.applyDisplayHint_fuel a hint data fuel
        = collector.applyDisplayHint a hint data
        /\ collector2.applyDisplayHint_fuel a hint data fuel
           = collector2.applyDisplayHint a hint data)
  /\ (forall (st : locals) (sp : spec) (p' : Z),
        reachable a hint data st ->
        dataPos st < len data -> hintPos st < len hint ->
        collector.parse_spec a hint (hintPos st) = Val (sp, p') ->
        len hint <= p' -> starPrefix sp = false -> take_ sp = 0 ->
        len data <= max_int a ->
        collector2.applyDisplayHint a hint data = Return ([], false)
        /\ (0 <= int_mul a (len data) 3 ->
            collector.applyDisplayHint a hint data = Return ([], false))).
Proof.
  assert (forall fuel : nat,
             (length hint + length data <= fuel)%nat ->
             collector.loop a hint data fuel (Locals 0 0 0 false [])
             = collector.loop a hint data (length hint + length data)
                 (Locals 0 0 0 false [])) as Hfuel.
  { intros fuel Hf. apply loop_fuel; [apply loop_inv_start|..];
      rewrite measure_start; lia. }
  destruct (loop_returns a hint data (length hint + length data)
              (Locals 0 0 0 false []) (loop_inv_start a hint data [])
              ltac:(rewrite measure_start; lia)) as (s & ok & Hret).
  split; [|split; [|split]].
  - unfold collector.applyDisplayHint, collector.applyDisplayHint_fuel,
      strings.Grow.
    destruct ((len hint =? 0) || (len data =? 0)); [discriminate|].
    destruct (int_mul a (len data) 3 <? 0); [discriminate|].
    cbn [mbind outcome_bind]. rewrite Hret. discriminate.
  - unfold collector2.applyDisplayHint. rewrite applyDisplayHint2_loop.
    destruct ((len hint =? 0) || (len data =? 0)); [discriminate|].
    rewrite Hret. discriminate.
  - intros fuel Hf. split.
    + unfold collector.applyDisplayHint, collector.applyDisplayHint_fuel,
        strings.Grow.
      destruct ((len hint =? 0) || (len data =? 0)); [reflexivity|].
      destruct (int_mul a (len data) 3 <? 0); [reflexivity|].
      cbn [mbind outcome_bind]. by apply Hfuel.
    + unfold collector2.applyDisplayHint. rewrite !applyDisplayHint2_loop.
      destruct ((len hint =? 0) || (len data =? 0)); [reflexivity|].
      by apply Hfuel.
  - intros st sp p' Hreach Hd Hh Hparse Hend Hstar Htake Hmax.
    destruct (reachable_loop a hint data st Hreach) as [Hinv _].
    pose proof Hinv as (Hh0 & Hd0 & Hl0 & _).
    assert (collector.iteration a hint data st
            = Val (Locals p' (dataPos st) (hintPos st) false
                     (result st ++ snd (apply_pure a data sp (dataPos st)))))
      as Hit.
    { unfold collector.iteration.
      destruct (Z.leb_spec (len hint) (hintPos st)); [lia|].
      cbn [mbind outcome_bind mret outcome_ret]. rewrite Hparse.
      cbn [mbind outcome_bind]. rewrite apply_spec_pure by lia.
      cbn [mbind outcome_bind mret outcome_ret].
      rewrite (apply_pure_zero a data sp (dataPos st)) by (assumption || lia).
      rewrite Htake, Hstar. reflexivity. }
    pose proof (reach_step a hint data st _ Hreach Hd Hit) as Hreach'.
    pose proof (degenerate_state a hint data _ Hreach') as Hdeg.
    cbn [dataPos hintPos lastSpecConsumesByte] in Hdeg.
    specialize (Hdeg Hd Hend eq_refl).
    split.
    + unfold collector2.applyDisplayHint. rewrite applyDisplayHint2_loop.
      destruct ((len hint =? 0) || (len data =? 0)); [reflexivity|].
      exact Hdeg.
    + intros Hgrow. unfold collector.applyDisplayHint.
      rewrite applyDisplayHint_loop by assumption.
      destruct ((len hint =? 0) || (len data =? 0)); [reflexivity|].
      exact Hdeg.
Qed.

(** The theorem at the hint ["0d"] on two bytes: the only specification
    has octet length 0 and no ['*']. *)
Lemma applyDisplayHint_terminates_witness :
  collector2.applyDisplayHint Arch64 (str "0d") (bytes [5; 0]) = Return ([], false)
  /\ collector.applyDisplayHint Arch64 (str "0d") (bytes [5; 0]) = Return ([], false).
Proof.
  destruct (applyDisplayHint_terminates Arch64 (str "0d") (bytes [5; 0]))
    as (_ & _ & _ & H).
  destruct (H (Locals 0 0 0 false []) (Spec false 0 "d" false x00 false x00) 2)
    as [H2 H1].
  - apply reach_start.
  - vm_compute. reflexivity.
  - vm_compute. reflexivity.
  - vm_compute. reflexivity.
  - vm_compute. discriminate.
  - reflexivity.
  - reflexivity.
  - vm_compute. discriminate.
  - split; [exact H2|]. apply H1. vm_compute. discriminate.
Defined.

(** * Panics *)

Section panics.
Variable a : Arch.
Variables hint data : list byte.

(** Inside the loop no index and no slice is out of bounds: once [Grow]
    has accepted its count, the single-pass formatter returns. *)
Lemma applyDisplayHint_returns :
  0 <= int_mul a (len data) 3 ->
  exists s ok, collector.applyDisplayHint a hint data = Return (s, ok).
Proof.
  intros Hg. unfold collector.applyDisplayHint.
  rewrite applyDisplayHint_loop by assumption.
  destruct ((len hint =? 0) || (len data =? 0)); [eauto|].
  apply loop_returns; [apply loop_inv_start|].
  rewrite measure_start. lia.
Qed.

(** Under the same condition the two revisions agree. *)
Lemma revisions_agree :
  0 <= int_mul a (len data) 3 ->
  collector2.applyDisplayHint a hint data = collector.applyDisplayHint a hint data.
Proof.
  intros Hg. unfold collector2.applyDisplayHint, collector.applyDisplayHint.
  by rewrite applyDisplayHint2_loop, applyDisplayHint_loop.
Qed.

(** [result.Grow(len(data) * 3)] panics when the product wraps around to
    a negative [int]. *)
Lemma grow_overflow_panics :
  len hint <> 0 -> len data <> 0 -> int_mul a (len data) 3 < 0 ->
  collector.applyDisplayHint a hint data = Panic.
Proof.
  intros Hh Hd Hg.
  unfold collector.applyDisplayHint, collector.applyDisplayHint_fuel,
    strings.Grow.
  destruct (Z.eqb_spec (len hint) 0); [contradiction|].
  destruct (Z.eqb_spec (len data) 0); [contradiction|]. cbn [orb].
  destruct (Z.ltb_spec (int_mul a (len data) 3) 0); [reflexivity|lia].
Qed.

End panics.

Lemma len_replicate {A : Type} (n : Z) (x : A) :
  0 <= n -> len (replicate (Z.to_nat n) x) = n.
Proof. intros Hn. unfold len. rewrite length_replicate. lia. Qed.

(** C9, at the input where it fails.  On a build with a 32-bit [int] and
    data of 715827883 bytes, [len(data) * 3] wraps around to
    -2147483647 and [result.Grow] panics before the first byte is
    formatted.  (Lemma [applyDisplayHint_returns] shows that this is the
    only panic of the single-pass formatter, and
    [applyDisplayHint2_returns] that the revision has none.) *)
Theorem applyDisplayHint_panics_in_Grow :
  collector.applyDisplayHint Arch32 (str "1x")
    (replicate (Z.to_nat 715827883) x00) = Panic.
Proof.
  apply grow_overflow_panics.
  - vm_compute. discriminate.
  - rewrite len_replicate by lia. lia.
  - rewrite len_replicate by lia. vm_compute. reflexivity.
Qed.

(** C10, at the input where it fails.  On the same build and data the
    single-pass formatter panics in [Grow] while the revision returns a
    pair, so the two do not compute the same function there.  (Lemma
    [revisions_agree] shows that they agree on every input on which
    [len(data) * 3] does not wrap around to a negative [int].) *)
Theorem revisions_differ_in_Grow :
  collector.applyDisplayHint Arch32 (str "1x")
    (replicate (Z.to_nat 715827883) x00) = Panic
  /\ exists s ok,
       collector2.applyDisplayHint Arch32 (str "1x")
         (replicate (Z.to_nat 715827883) x00) = Return (s, ok).
Proof.
  split; [|apply applyDisplayHint2_returns].
  apply grow_overflow_panics.
  - vm_compute. discriminate.
  - rewrite len_replicate by lia. lia.
  - rewrite len_replicate by lia. vm_compute. reflexivity.
Qed.

(** * Overflow of the octet length *)

Section octet_length.
Variable a : Arch.

Lemma wrap_int_congr (x y k : Z) :
  x = y + k * 2 ^ intSize a -> wrap_int a x = wrap_int a y.
Proof.
  intros ->. unfold wrap_int.
  replace (y + k * 2 ^ intSize a + 2 ^ (intSize a - 1))
    with (y + 2 ^ (intSize a - 1) + k * 2 ^ intSize a) by lia.
  rewrite Z.mod_add; [reflexivity|].
  pose proof (pow_intSize_pos a). pose proof (pow_intSize a). lia.
Qed.

(** Accumulating with wrap-around gives the wrapped exact value. *)
Lemma wrapped_digits (ds : list byte) :
  forall v : Z,
    foldl (fun t c => int_add a (int_mul a t 10) (u8 c - 48)) (wrap_int a v) ds
    = wrap_int a (foldl (fun v c => v * 10 + (u8 c - 48)) v ds).
Proof.
  induction ds as [|c ds IH]; intros v; cbn [foldl]; [reflexivity|].
  rewrite <- IH. f_equal. unfold int_add, int_mul.
  rewrite wrap_int_wrap.
  destruct (wrap_int_eqm a v) as [k Hk]. rewrite Hk.
  apply (wrap_int_congr _ _ (10 * k)). lia.
Qed.

Lemma take_pure_run (rest : list byte) (Hrest : digit_at rest 0 = false)
    (ds : list byte) :
  forall (pre : list byte) (fuel : nat) (t : Z),
    forallb strconv.isDecimal ds = true ->
    (length ds <= fuel)%nat ->
    take_pure a (pre ++ ds ++ rest) fuel t (len pre)
    = (foldl (fun t c => int_add a (int_mul a t 10) (u8 c - 48)) t ds,
       len pre + len ds).
Proof.
  induction ds as [|c ds IH]; intros pre fuel t Hds Hf.
  - cbn [app foldl]. change (len []) with 0. rewrite Z.add_0_r.
    destruct fuel as [|fuel]; [reflexivity|]. cbn [take_pure].
    unfold len. rewrite Nat2Z.id, lookup_app_r, Nat.sub_diag by lia.
    unfold digit_at in Hrest. change (Z.to_nat 0) with 0%nat in Hrest.
    destruct (rest !! 0%nat); [|reflexivity]. by rewrite Hrest.
  - destruct fuel as [|fuel]; [cbn in Hf; lia|]. cbn [take_pure].
    cbn [forallb] in Hds. apply andb_true_iff in Hds as [Hc Hds].
    unfold len at 1. rewrite Nat2Z.id. cbn [app].
    rewrite list_lookup_middle by reflexivity.
    unfold strconv.isDecimal in Hc. rewrite Hc.
    specialize (IH (pre ++ [c]) fuel
                   (int_add a (int_mul a t 10) (u8 c - 48)) Hds).
    rewrite <- app_assoc in IH. cbn [app] in IH.
    rewrite len_app in IH. change (len [c]) with 1 in IH.
    rewrite IH by (cbn in Hf; lia).
    cbn [foldl]. f_equal. rewrite len_cons. lia.
Qed.

(** A hint that starts (behind an optional ['*']) with a digit run whose
    wrapped value is negative is not read as a specification. *)
Lemma parse_pure_negative (star : bool) (ds rest : list byte) :
  ds <> [] -> forallb strconv.isDecimal ds = true ->
  digit_at rest 0 = false ->
  wrap_int a (decimal_value ds) < 0 ->
  parse_pure a ((if star then str "*" else []) ++ ds ++ rest) 0 = None.
Proof.
  intros Hne Hds Hrest Hneg.
  set (pre := if star then str "*" else []).
  assert (len pre = if star then 1 else 0) as Hpre by (by destruct star).
  destruct ds as [|c ds]; [contradiction|].
  pose proof Hds as Hds'. cbn [forallb] in Hds'.
  apply andb_true_iff in Hds' as [Hc _].
  unfold strconv.isDecimal in Hc.
  assert (star_at (pre ++ (c :: ds) ++ rest) 0 = star) as Hstar.
  { unfold star_at. change (Z.to_nat 0) with 0%nat.
    subst pre. destruct star; [reflexivity|].
    simpl. unfold byte_eqb. change (u8 "*") with 42.
    apply andb_true_iff in Hc as [Hc _]. apply Z.leb_le in Hc.
    destruct (Z.eqb_spec (u8 c) 42); [lia|reflexivity]. }
  unfold parse_pure. rewrite Hstar.
  replace (if star then 0 + 1 else 0) with (len pre)
    by (rewrite Hpre; by destruct star).
  assert (digit_at (pre ++ (c :: ds) ++ rest) (len pre) = true) as Hdig.
  { unfold digit_at, len. rewrite Nat2Z.id. cbn [app].
    rewrite list_lookup_middle by reflexivity. exact Hc. }
  rewrite Hdig. cbn [negb].
  rewrite (take_pure_run rest Hrest (c :: ds) pre) by
    (assumption || (rewrite !length_app; lia)).
  pose proof (wrapped_digits (c :: ds) 0) as Hw.
  rewrite (wrap_int_small a 0) in Hw
    by (pose proof (max_int_ge a); pose proof (min_int_le a); lia).
  rewrite Hw. fold (decimal_value (c :: ds)).
  destruct (Z.ltb_spec (wrap_int a (decimal_value (c :: ds))) 0);
    [reflexivity|lia].
Qed.

Lemma loop_parse_none (hint data : list byte) (fuel : nat) :
  hint <> [] -> data <> [] ->
  parse_pure a hint 0 = None ->
  collector.loop a hint data (S fuel) (Locals 0 0 0 false [])
  = Return ([], false).
Proof.
  intros Hh Hd Hp. cbn [collector.loop dataPos].
  assert (0 < len data) by (destruct data; [contradiction|rewrite len_cons;
    pose proof (len_nonneg data); lia]).
  assert (0 < len hint) by (destruct hint; [contradiction|rewrite len_cons;
    pose proof (len_nonneg hint); lia]).
  destruct (Z.ltb_spec 0 (len data)); [|lia].
  rewrite iteration_pure by (cbn; lia).
  unfold iter_pure. cbn [hintPos lastSpecConsumesByte].
  destruct (Z.leb_spec (len hint) 0); [lia|]. cbn [andb].
  by rewrite Hp.
Qed.

End octet_length.

(** C4, as amended.  When the digit run at the start of the hint (behind
    an optional ['*']) has a value that, accumulated in [int] with
    wrap-around, is negative, [applyDisplayHint] returns [("", false)]
    on any non-empty data. *)
Theorem negative_octet_length_rejected (a : Arch) (star : bool)
    (ds rest data : list byte) :
  ds <> [] -> forallb strconv.isDecimal ds = true ->
  digit_at rest 0 = false ->
  wrap_int a (decimal_value ds) < 0 ->
  data <> [] ->
  collector2.applyDisplayHint a ((if star then str "*" else []) ++ ds ++ rest) data
  = Return ([], false)
  /\ (0 <= int_mul a (len data) 3 ->
      collector.applyDisplayHint a ((if star then str "*" else []) ++ ds ++ rest) data
      = Return ([], false)).
Proof.
  intros Hne Hds Hrest Hneg Hdata.
  pose proof (parse_pure_negative a star ds rest Hne Hds Hrest Hneg) as Hp.
  set (hint := (if star then str "*" else []) ++ ds ++ rest) in *.
  assert (hint <> []) as Hh.
  { subst hint. destruct star; [discriminate|].
    destruct ds; [contradiction|discriminate]. }
  assert (exists n, (length hint + length data)%nat = S n) as [n Hn].
  { destruct data; [contradiction|]. exists (length hint + length data)%nat.
    cbn [length]. lia. }
  pose proof (loop_parse_none a hint data n Hh Hdata Hp) as Hloop.
  split.
  - unfold collector2.applyDisplayHint.
    rewrite applyDisplayHint2_loop, Hn. by destruct (_ || _).
  - intros Hg. unfold collector.applyDisplayHint.
    rewrite applyDisplayHint_loop, Hn by assumption. by destruct (_ || _).
Qed.

(** The theorem at ["9223372036854775808d"] (2^63) on a 64-bit build. *)
Lemma negative_octet_length_rejected_witness :
  collector2.applyDisplayHint Arch64 (str "9223372036854775808d") (bytes [1])
  = Return ([], false)
  /\ collector.applyDisplayHint Arch64 (str "9223372036854775808d") (bytes [1])
     = Return ([], false).
Proof.
  destruct (negative_octet_length_rejected Arch64 false
              (str "9223372036854775808") (str "d") (bytes [1])) as [H2 H1].
  - discriminate.
  - vm_compute. reflexivity.
  - vm_compute. reflexivity.
  - vm_compute. reflexivity.
  - discriminate.
  - split; [exact H2|]. apply H1. vm_compute. discriminate.
Defined.

(** C4 as stated fails: an octet length beyond the 32-bit signed range is
    accepted when its wrapped value is not negative.  With a 64-bit [int]
    2^31 is simply the octet length; with a 32-bit [int] 2^32 + 1 wraps
    around to 1. *)
Lemma octet_length_overflow_accepted :
  collector.applyDisplayHint Arch64 (str "2147483648d") (bytes [1])
  = Return (str "1", true)
  /\ collector2.applyDisplayHint Arch64 (str "2147483648d") (bytes [1])
     = Return (str "1", true)
  /\ collector.applyDisplayHint Arch32 (str "4294967297d") (bytes [1])
     = Return (str "1", true)
  /\ collector2.applyDisplayHint Arch32 (str "4294967297d") (bytes [1])
     = Return (str "1", true)
  /\ 2 ^ 31 - 1 < decimal_value (str "2147483648")
  /\ 2 ^ 31 - 1 < decimal_value (str "4294967297").
Proof. vm_compute. repeat split; reflexivity. Qed.

(** * The length of the output *)

Section output_length.
Variable a : Arch.
Variables hint data : list byte.

Lemma len_chunk_at (d e : Z) :
  0 <= d <= e -> e <= len data -> len (chunk_at data d e) = e - d.
Proof.
  intros Hd He. unfold chunk_at, len in *.
  rewrite length_take, length_drop. lia.
Qed.

Lemma len_hex_text (chunk : list byte) : len (hex_text chunk) = 2 * len chunk.
Proof.
  unfold hex_text. induction chunk as [|b chunk IH]; [reflexivity|].
  cbn [flat_map]. rewrite len_app, IH, !len_cons.
  change (len []) with 0. lia.
Qed.

Lemma pow_256_le (base c : Z) :
  0 <= c -> 256 <= base ^ 3 -> 256 ^ c <= base ^ Z.of_nat (Z.to_nat (3 * c)).
Proof.
  intros Hc Hb. rewrite Z2Nat.id by lia.
  rewrite Z.pow_mul_r by lia. apply Z.pow_le_mono_l. lia.
Qed.

Lemma len_numeral (base : Z) (chunk : list byte) :
  2 <= base -> 256 <= base ^ 3 -> chunk <> [] ->
  len (strconv.formatBits 64 (collector.be_uint64 chunk) base [])
  <= 3 * len chunk.
Proof.
  intros Hb Hp Hne.
  assert (1 <= len chunk) as Hl.
  { destruct chunk; [contradiction|]. rewrite len_cons.
    pose proof (len_nonneg chunk). lia. }
  pose proof (be_uint64_range chunk) as [Hv _].
  pose proof (be_uint64_le chunk) as Hle.
  pose proof (pow_256_le base (len chunk) ltac:(lia) Hp) as Hpow.
  pose proof (formatBits_length base Hb 64 (collector.be_uint64 chunk)
                (Z.to_nat (3 * len chunk)) ltac:(lia) ltac:(lia)) as H.
  unfold len at 1. lia.
Qed.

(** A non-empty chunk is rendered with at most three characters per
    byte. *)
Lemma len_rendered (fc : byte) (chunk : list byte) :
  chunk <> [] -> len (rendered fc chunk) <= 3 * len chunk.
Proof.
  intros Hne. pose proof (len_nonneg chunk). unfold rendered.
  destruct (byte_eqb fc "d");
    [apply len_numeral; [lia|simpl; lia|assumption]|].
  destruct (byte_eqb fc "x"); [rewrite len_hex_text; lia|].
  destruct (byte_eqb fc "o");
    [apply len_numeral; [lia|simpl; lia|assumption]|].
  destruct (byte_eqb fc "a" || byte_eqb fc "t"); [lia|].
  change (len []) with 0. lia.
Qed.

(** An empty chunk is rendered with at most one character. *)
Lemma len_rendered_nil (fc : byte) : len (rendered fc []) <= 1.
Proof.
  unfold rendered.
  destruct (byte_eqb fc "d"); [vm_compute; discriminate|].
  destruct (byte_eqb fc "x"); [vm_compute; discriminate|].
  destruct (byte_eqb fc "o"); [vm_compute; discriminate|].
  destruct (byte_eqb fc "a" || byte_eqb fc "t"); vm_compute; discriminate.
Qed.

Lemma len_sep_out (sp : spec) (rc r e : Z) :
  0 <= len (sep_out data sp rc r e) <= if hasSep sp then 1 else 0.
Proof.
  unfold sep_out. destruct (hasSep sp); cbn [andb].
  - destruct (_ && _); [change (len [_]) with 1|change (len []) with 0]; lia.
  - change (len []) with 0. lia.
Qed.

(** With a positive octet length every instance pays for its text with
    the bytes it consumes. *)
Lemma repeat_pure_bound (sp : spec) (rc : Z) (n : nat) :
  1 <= take_ sp <= max_int a ->
  forall r d : Z,
    0 <= d <= len data ->
    len (snd (repeat_pure a data n sp rc r d))
    <= 4 * (fst (repeat_pure a data n sp rc r d) - d).
Proof.
  intros Ht. induction n as [|n IH]; intros r d Hd; cbn [repeat_pure].
  - cbn [fst snd]. change (len []) with 0. lia.
  - destruct ((r <? rc) && (d <? len data)) eqn:Hc.
    2:{ cbn [fst snd]. change (len []) with 0. lia. }
    apply andb_true_iff in Hc as [_ Hdl]. apply Z.ltb_lt in Hdl.
    pose proof (next_end_range a data (take_ sp) d Hd) as He.
    pose proof (next_end_progress a data (take_ sp) d ltac:(lia) Ht) as Hp.
    set (e := next_end a data (take_ sp) d) in *.
    specialize (IH (r + 1) e ltac:(lia)).
    pose proof (repeat_pure_range a data n sp rc (r + 1) e ltac:(lia)) as Hr.
    destruct (repeat_pure a data n sp rc (r + 1) e) as [d' out].
    cbn [fst snd] in *. rewrite !len_app.
    pose proof (len_chunk_at d e ltac:(lia) ltac:(lia)) as Hlc.
    pose proof (len_rendered (fmtChar sp) (chunk_at data d e)) as Hlr.
    pose proof (len_sep_out sp rc r e) as Hls.
    assert (chunk_at data d e <> []) as Hne.
    { intros Heq. rewrite Heq in Hlc. change (len []) with 0 in Hlc. lia. }
    specialize (Hlr Hne). destruct (hasSep sp); lia.
Qed.

(** What one application adds to the output. *)
Lemma apply_pure_bound (sp : spec) (d : Z) :
  0 <= take_ sp <= max_int a ->
  (hasTerm sp = true -> starPrefix sp = true) ->
  (starPrefix sp = true -> take_ sp <> 0) ->
  0 <= d < len data ->
  len (snd (apply_pure a data sp d))
  <= 4 * (fst (apply_pure a data sp d) - d)
     + (if take_ sp =? 0 then 1 + (if hasSep sp then 1 else 0) else 0).
Proof.
  intros Ht Hterm Hstar Hd. unfold apply_pure, group_start.
  destruct (Z.ltb_spec d (len data)) as [_|]; [|lia].
  destruct (starPrefix sp) eqn:Hs; cbn [andb].
  - specialize (Hstar eq_refl).
    destruct (Z.eqb_spec (take_ sp) 0); [contradiction|].
    pose proof (repeat_pure_bound sp (u8 (nth (Z.to_nat d) data x00))
                  (Z.to_nat (u8 (nth (Z.to_nat d) data x00)))
                  ltac:(lia) 0 (d + 1) ltac:(lia)) as Hb.
    destruct (repeat_pure a data _ sp _ 0 (d + 1)) as [d' out].
    cbn [fst snd] in *. rewrite len_app.
    destruct (hasTerm sp && (d' <? len data));
      [change (len [_]) with 1|change (len []) with 0]; lia.
  - destruct (hasTerm sp) eqn:Hht; [by specialize (Hterm eq_refl)|].
    cbn [andb]. change (Z.to_nat 1) with 1%nat. cbn [repeat_pure].
    destruct (Z.ltb_spec d (len data)) as [_|]; [|lia].
    cbn [Z.ltb Z.compare andb fst snd].
    pose proof (next_end_range a data (take_ sp) d ltac:(lia)) as He.
    set (e := next_end a data (take_ sp) d) in *.
    rewrite !len_app. change (len []) with 0.
    pose proof (len_chunk_at d e ltac:(lia) ltac:(lia)) as Hlc.
    pose proof (len_sep_out sp 1 0 e) as Hls.
    destruct (Z.eq_dec e d) as [Heq|Hneq].
    + rewrite Heq in *. unfold chunk_at. rewrite Z.sub_diag.
      change (Z.to_nat 0) with 0%nat. rewrite take_0.
      pose proof (len_rendered_nil (fmtChar sp)).
      destruct (Z.eqb_spec (take_ sp) 0) as [|Hnz].
      * destruct (hasSep sp); lia.
      * pose proof (next_end_progress a data (take_ sp) d ltac:(lia)
                      ltac:(lia)) as Hp.
        fold e in Hp. lia.
    + assert (chunk_at data d e <> []) as Hne.
      { intros Hnil. rewrite Hnil in Hlc. change (len []) with 0 in Hlc. lia. }
      pose proof (len_rendered (fmtChar sp) (chunk_at data d e) Hne).
      destruct (take_ sp =? 0), (hasSep sp); lia.
Qed.

Hypothesis no_star_zero :
  forall p : Z, 0 <= p -> star_at hint p = true -> take_at a hint (p + 1) <> 0.

(** The text written so far is paid for by the two cursors. *)
Lemma iter_pure_bound (st st' : locals) :
  loop_inv a hint data st -> dataPos st < len data ->
  len (result st) <= 4 * dataPos st + hintPos st ->
  iter_pure a hint data st = Some st' ->
  len (result st') <= 4 * dataPos st' + hintPos st'.
Proof.
  intros (Hh & Hd & Hl & Hlast) Hlt HJ. unfold iter_pure.
  destruct (Z.leb_spec (len hint) (hintPos st)) as [Hend|Hmore]; cbn [andb].
  - destruct (lastSpecConsumesByte st) eqn:Hc; cbn [negb]; [|discriminate].
    destruct (Hlast eq_refl) as (sp & Hparse & Hcons).
    rewrite Hparse.
    pose proof (parse_pure_parsed a hint _ _ _ Hl Hparse)
      as (Hstar & _ & Htake & Hrange & _ & _ & Hterm & _).
    assert (starPrefix sp = true -> take_ sp <> 0) as Hnz.
    { intros Hs. rewrite Hs in Htake. rewrite Htake.
      apply no_star_zero; [lia|]. by rewrite <- Hstar. }
    pose proof (apply_pure_bound sp (dataPos st) Hrange Hterm Hnz
                  ltac:(lia)) as Hb.
    assert ((take_ sp =? 0) = false) as Hpos.
    { unfold consumes in Hcons. apply orb_true_iff in Hcons as [Hcons|Hcons].
      - apply Z.ltb_lt in Hcons. apply Z.eqb_neq. lia.
      - apply Z.eqb_neq. auto. }
    rewrite Hpos in Hb.
    destruct (apply_pure a data sp (dataPos st)) as [d' out].
    cbn [fst snd] in *. intros [= <-].
    cbn [result dataPos hintPos]. rewrite len_app. lia.
  - destruct (parse_pure a hint (hintPos st)) as [[sp p']|] eqn:Hparse;
      [|discriminate].
    pose proof (parse_pure_parsed a hint (hintPos st) sp p' ltac:(lia) Hparse)
      as (Hstar & _ & Htake & Hrange & Hadv & _ & Hterm & _).
    assert (starPrefix sp = true -> take_ sp <> 0) as Hnz.
    { intros Hs. rewrite Hs in Htake. rewrite Htake.
      apply no_star_zero; [lia|]. by rewrite <- Hstar. }
    pose proof (apply_pure_bound sp (dataPos st) Hrange Hterm Hnz
                  ltac:(lia)) as Hb.
    destruct (apply_pure a data sp (dataPos st)) as [d' out].
    cbn [fst snd] in *. intros [= <-].
    cbn [result dataPos hintPos]. rewrite len_app.
    destruct (take_ sp =? 0), (starPrefix sp), (hasSep sp), (hasTerm sp); lia.
Qed.

Lemma loop_bound (fuel : nat) :
  forall (st : locals) (s : list byte),
    loop_inv a hint data st ->
    len (result st) <= 4 * dataPos st + hintPos st ->
    collector.loop a hint data fuel st = Return (s, true) ->
    len s <= 4 * len data + len hint.
Proof.
  induction fuel as [|fuel IH]; intros st s Hinv HJ; cbn [collector.loop].
  - destruct (Z.ltb_spec (dataPos st) (len data)); [discriminate|].
    intros [= <-]. destruct Hinv as (? & ? & _). lia.
  - destruct (Z.ltb_spec (dataPos st) (len data)) as [Hlt|].
    2:{ intros [= <-]. destruct Hinv as (? & ? & _). lia. }
    pose proof Hinv as (Hh & Hd & Hl & _).
    rewrite iteration_pure by lia.
    destruct (iter_pure a hint data st) as [st'|] eqn:Hit;
      cbn [mbind outcome_bind]; [|discriminate].
    destruct (iter_pure_inv a hint data st st' Hinv Hlt Hit) as (Hinv' & _).
    apply IH; [assumption|]. by apply (iter_pure_bound st st').
Qed.

End output_length.

(** C1, as amended.  If no ['*'] in the hint is followed by an octet
    length that the formatter reads as 0, then a result returned with
    [ok = true] is at most [4 * len(data) + len(hint)] bytes long. *)
Theorem output_length_bound (a : Arch) (hint data s : list byte) :
  (forall p : Z, 0 <= p -> star_at hint p = true -> take_at a hint (p + 1) <> 0) ->
  (collector.applyDisplayHint a hint data = Return (s, true) ->
   len s <= 4 * len data + len hint)
  /\ (collector2.applyDisplayHint a hint data = Return (s, true) ->
      len s <= 4 * len data + len hint).
Proof.
  intros Hstar.
  assert (forall fuel,
             collector.loop a hint data fuel (Locals 0 0 0 false [])
             = Return (s, true) -> len s <= 4 * len data + len hint) as Hloop.
  { intros fuel. apply (loop_bound a hint data Hstar);
      [apply loop_inv_start|].
    cbn [result dataPos hintPos]. change (len []) with 0. lia. }
  split.
  - unfold collector.applyDisplayHint, collector.applyDisplayHint_fuel,
      strings.Grow.
    destruct ((len hint =? 0) || (len data =? 0)); [discriminate|].
    destruct (int_mul a (len data) 3 <? 0); [discriminate|].
    cbn [mbind outcome_bind]. apply Hloop.
  - unfold collector2.applyDisplayHint. rewrite applyDisplayHint2_loop.
    destruct ((len hint =? 0) || (len data =? 0)); [discriminate|].
    apply Hloop.
Qed.

(** The theorem at the group ["*1d."] on the bytes [2 7 8]. *)
Lemma output_length_bound_witness :
  collector.applyDisplayHint Arch64 (str "*1d.") (bytes [2; 7; 8])
  = Return (str "7.8", true)
  /\ len (str "7.8") <= 4 * len (bytes [2; 7; 8]) + len (str "*1d.").
Proof.
  assert (collector.applyDisplayHint Arch64 (str "*1d.") (bytes [2; 7; 8])
          = Return (str "7.8", true)) as Hrun by (vm_compute; reflexivity).
  split; [exact Hrun|].
  apply (output_length_bound Arch64 (str "*1d.") (bytes [2; 7; 8]) (str "7.8"));
    [|exact Hrun].
  intros p Hp Hs. unfold star_at in Hs.
  destruct (Z.to_nat p) as [|[|[|[|n]]]] eqn:E;
    try (vm_compute in Hs; discriminate).
  replace p with 0 by lia. vm_compute. discriminate.
Defined.

(** C1 as stated fails: the hint ["*0d."] is one well-formed
    specification, and with the count byte 255 it writes 255 times ["0."]
    for two bytes of data. *)
Lemma output_length_bound_fails :
  exists s : list byte,
    collector.applyDisplayHint Arch64 (str "*0d.") (bytes [255; 0])
    = Return (s, true)
    /\ collector2.applyDisplayHint Arch64 (str "*0d.") (bytes [255; 0])
       = Return (s, true)
    /\ parse_pure Arch64 (str "*0d.") 0
       = Some (Spec true 0 "d" true "." false x00, len (str "*0d."))
    /\ len s = 510
    /\ 4 * len (bytes [255; 0]) + len (str "*0d.") < len s.
Proof.
  eexists. split; [vm_compute; reflexivity|].
  split; [vm_compute; reflexivity|].
  split; [vm_compute; reflexivity|].
  split; vm_compute; reflexivity.
Qed.

(** * oid.ToList and oid.FromList *)

Section oid_strings.
Variable a : Arch.

Lemma ToList_fold (segs : list (list byte)) :
  forall acc : list Z,
    foldl (fun result x => let '(o, _) := strconv.Atoi a x in result ++ [o])
          acc segs
    = acc ++ map (fun x => fst (strconv.Atoi a x)) segs.
Proof.
  induction segs as [|x segs IH]; intros acc; cbn [foldl map].
  - by rewrite app_nil_r.
  - rewrite IH. destruct (strconv.Atoi a x) as [o e]. cbn [fst].
    by rewrite <- app_assoc.
Qed.

(** [ToList] has one component per segment. *)
Lemma ToList_map (s : list byte) :
  oid.ToList a s
  = map (fun x => fst (strconv.Atoi a x)) (strings.SplitSeq_dot s).
Proof. unfold oid.ToList. by rewrite ToList_fold. Qed.

End oid_strings.

(** C5, as amended.  [ToList] splits its input at every ['.'] and turns
    each segment into one component, in order: the value that
    [strconv.Atoi] gives for it, and 0 for an empty segment.  No segment
    is rejected, whether the input is empty or not. *)
Theorem ToList_components (a : Arch) (s : list byte) :
  oid.ToList a s
  = map (fun x => match x with
                  | [] => 0
                  | _ :: _ => fst (strconv.Atoi a x)
                  end) (strings.SplitSeq_dot s)
  /\ length (oid.ToList a s) = length (strings.SplitSeq_dot s).
Proof.
  rewrite ToList_map. split; [|by rewrite length_map].
  apply map_ext. intros [|c x]; reflexivity.
Qed.

(** C5 as stated fails: the empty segments of a non-empty string are
    accepted as the component 0. *)
Lemma ToList_accepts_empty_segments :
  str "1..2" <> []
  /\ In [] (strings.SplitSeq_dot (str "1..2"))
  /\ oid.ToList Arch64 (str "1..2") = [1; 0; 2]
  /\ oid.ToList Arch64 (str ".1") = [0; 1]
  /\ oid.ToList Arch64 (str "1.") = [1; 0]
  /\ oid.ToList Arch32 (str "1..2") = [1; 0; 2].
Proof.
  split; [discriminate|].
  split; [vm_compute; auto|].
  repeat split; vm_compute; reflexivity.
Qed.

Section round_trip.
Variable a : Arch.

Lemma digits_value_decimal (ds : list byte) :
  forall v : Z,
    digits_value 10 ds = Some v ->
    forallb strconv.isDecimal ds = true /\ decimal_value ds = v.
Proof.
  induction ds as [|c ds IH] using rev_ind; intros v.
  - intros [= <-]. split; reflexivity.
  - unfold digits_value, decimal_value. rewrite !foldl_snoc.
    fold (digits_value 10 ds). fold (decimal_value ds).
    destruct (digits_value 10 ds) as [v'|]; [|discriminate].
    destruct (IH v' eq_refl) as [Hall Hval].
    destruct ((48 <=? u8 c) && (u8 c <? 48 + 10)) eqn:Hc; [|discriminate].
    intros [= <-]. rewrite forallb_app, Hall, Hval. cbn [forallb andb].
    split; [|reflexivity]. unfold strconv.isDecimal.
    apply andb_true_iff in Hc as [H1 H2].
    apply Z.leb_le in H1. apply Z.ltb_lt in H2.
    destruct (Z.leb_spec 48 (u8 c)), (Z.leb_spec (u8 c) 57);
      lia || reflexivity.
Qed.

Lemma int_below_pow (n : Z) :
  min_int a <= n <= max_int a -> Z.abs n < 10 ^ Z.of_nat 64.
Proof.
  unfold min_int, max_int. intros Hn.
  assert (2 ^ (intSize a - 1) <= 2 ^ 63) by (destruct a; vm_compute; discriminate).
  assert (2 ^ 63 < 10 ^ Z.of_nat 64) by (vm_compute; reflexivity).
  lia.
Qed.

(** The decimal numeral of a non-negative [int]. *)
Lemma format_decimal (n : Z) :
  0 <= n < 10 ^ Z.of_nat 64 ->
  exists c rest,
    strconv.formatBits 64 n 10 [] = c :: rest
    /\ forallb strconv.isDecimal (c :: rest) = true
    /\ decimal_value (c :: rest) = n.
Proof.
  intros Hn.
  destruct (formatBits_value 10 ltac:(lia) 63 n Hn)
    as (Hval & c & rest & Hds & _).
  exists c, rest. split; [exact Hds|].
  rewrite Hds in Hval. by apply digits_value_decimal.
Qed.

Lemma decimal_not_sign (c : byte) :
  strconv.isDecimal c = true -> (u8 c =? 43) = false /\ (u8 c =? 45) = false.
Proof.
  unfold strconv.isDecimal. intros H. apply andb_true_iff in H as [H _].
  apply Z.leb_le in H. split; apply Z.eqb_neq; lia.
Qed.

(** [Atoi] reads back what [Itoa] writes. *)
Lemma Atoi_Itoa (n : Z) :
  min_int a <= n <= max_int a ->
  strconv.Atoi a (strconv.Itoa n) = (n, false).
Proof.
  intros Hn. pose proof (int_below_pow n Hn) as Habs.
  pose proof (max_int_ge a). pose proof (min_int_le a).
  unfold strconv.Itoa. destruct (Z.ltb_spec n 0) as [Hneg|Hpos].
  - destruct (format_decimal (- n) ltac:(lia)) as (c & rest & -> & Hall & Hval).
    unfold strconv.Atoi. change (u8 "-" =? 43) with false.
    change (u8 "-" =? 45) with true. cbv iota.
    rewrite Hall. fold (decimal_value (c :: rest)). rewrite Hval.
    rewrite Z.opp_involutive.
    destruct (Z.ltb_spec (max_int a) n); [lia|].
    destruct (Z.ltb_spec n (min_int a)); [lia|]. reflexivity.
  - destruct (format_decimal n ltac:(lia)) as (c & rest & -> & Hall & Hval).
    unfold strconv.Atoi.
    pose proof Hall as Hc. cbn [forallb] in Hc.
    apply andb_true_iff in Hc as [Hc _].
    destruct (decimal_not_sign c Hc) as [-> ->].
    rewrite Hall. fold (decimal_value (c :: rest)). rewrite Hval.
    destruct (Z.ltb_spec (max_int a) n); [lia|].
    destruct (Z.ltb_spec n (min_int a)); [lia|]. reflexivity.
Qed.

Lemma Itoa_no_dot (n : Z) :
  min_int a <= n <= max_int a ->
  forallb (fun c => negb (u8 c =? 46)) (strconv.Itoa n) = true.
Proof.
  intros Hn. pose proof (int_below_pow n Hn) as Habs.
  assert (forall ds, forallb strconv.isDecimal ds = true ->
                     forallb (fun c => negb (u8 c =? 46)) ds = true) as Hd.
  { induction ds as [|c ds IH]; [reflexivity|]. cbn [forallb].
    intros H. apply andb_true_iff in H as [Hc Hds]. rewrite (IH Hds).
    unfold strconv.isDecimal in Hc. apply andb_true_iff in Hc as [Hc _].
    apply Z.leb_le in Hc. destruct (Z.eqb_spec (u8 c) 46); [lia|reflexivity]. }
  unfold strconv.Itoa. destruct (Z.ltb_spec n 0).
  - destruct (format_decimal (- n) ltac:(lia)) as (c & rest & -> & Hall & _).
    cbn [forallb]. change (u8 "-" =? 46) with false. cbn [negb andb].
    by apply (Hd (c :: rest)).
  - destruct (format_decimal n ltac:(lia)) as (c & rest & -> & Hall & _).
    by apply Hd.
Qed.

Lemma SplitSeq_no_dot (x : list byte) :
  forallb (fun c => negb (u8 c =? 46)) x = true ->
  strings.SplitSeq_dot x = [x].
Proof.
  induction x as [|c x IH]; [reflexivity|]. cbn [forallb strings.SplitSeq_dot].
  intros H. apply andb_true_iff in H as [Hc Hx].
  destruct (u8 c =? 46); [discriminate|]. by rewrite (IH Hx).
Qed.

Lemma SplitSeq_segment (x y : list byte) :
  forallb (fun c => negb (u8 c =? 46)) x = true ->
  strings.SplitSeq_dot (x ++ "."%byte :: y) = x :: strings.SplitSeq_dot y.
Proof.
  induction x as [|c x IH]; [reflexivity|].
  cbn [forallb app strings.SplitSeq_dot].
  intros H. apply andb_true_iff in H as [Hc Hx].
  destruct (u8 c =? 46); [discriminate|]. by rewrite (IH Hx).
Qed.

Lemma FromList_loop_rest (l : list Z) :
  forall (i : Z) (res : list byte),
    0 < i ->
    oid.FromList_loop i l res
    = res ++ concat (map (fun o => "."%byte :: strconv.Itoa o) l).
Proof.
  induction l as [|o l IH]; intros i res Hi; cbn [oid.FromList_loop map concat].
  - by rewrite app_nil_r.
  - destruct (Z.ltb_spec 0 i); [|lia]. rewrite IH by lia.
    rewrite <- !app_assoc. reflexivity.
Qed.

Lemma SplitSeq_joined (l : list Z) :
  forall o : Z,
    min_int a <= o <= max_int a ->
    Forall (fun x => min_int a <= x <= max_int a) l ->
    strings.SplitSeq_dot
      (strconv.Itoa o ++ concat (map (fun o => "."%byte :: strconv.Itoa o) l))
    = strconv.Itoa o :: map strconv.Itoa l.
Proof.
  induction l as [|o' l IH]; intros o Ho Hl; cbn [map concat].
  - rewrite app_nil_r. apply SplitSeq_no_dot. by apply Itoa_no_dot.
  - apply Forall_cons in Hl as [Ho' Hl]. cbn [app].
    rewrite SplitSeq_segment by (by apply Itoa_no_dot).
    by rewrite IH.
Qed.

Lemma map_Atoi_Itoa (l : list Z) :
  Forall (fun x => min_int a <= x <= max_int a) l ->
  map (fun x => fst (strconv.Atoi a x)) (map strconv.Itoa l) = l.
Proof.
  induction 1 as [|x l Hx Hl IH]; [reflexivity|].
  cbn [map]. rewrite Atoi_Itoa by assumption. cbn [fst]. by rewrite IH.
Qed.

(** [ToList] reads back what [FromList] writes, provided [Grow] accepts
    its count. *)
Lemma ToList_FromList (l : list Z) :
  l <> [] ->
  Forall (fun x => min_int a <= x <= max_int a) l ->
  0 <= int_mul a (len l) 4 ->
  exists s : list byte,
    oid.FromList a l = Return s /\ oid.ToList a s = l.
Proof.
  intros Hne Hl Hg. destruct l as [|o l]; [contradiction|].
  apply Forall_cons in Hl as [Ho Hl].
  unfold oid.FromList, strings.Grow.
  destruct (Z.eqb_spec (len (o :: l)) 0) as [E|_].
  { rewrite len_cons in E. pose proof (len_nonneg l). lia. }
  destruct (Z.ltb_spec (int_mul a (len (o :: l)) 4) 0); [lia|].
  cbn [mbind outcome_bind oid.FromList_loop Z.ltb Z.compare app].
  eexists. split; [reflexivity|].
  rewrite FromList_loop_rest by lia.
  rewrite ToList_map, SplitSeq_joined by assumption.
  cbn [map]. rewrite Atoi_Itoa by assumption. cbn [fst]. f_equal.
  by apply map_Atoi_Itoa.
Qed.

(** [result.Grow(len(l) * 4)] panics when the product wraps around to a
    negative [int]. *)
Lemma FromList_grow_panics (l : list Z) :
  len l <> 0 -> int_mul a (len l) 4 < 0 -> oid.FromList a l = Panic.
Proof.
  intros Hl Hg. unfold oid.FromList, strings.Grow.
  destruct (Z.eqb_spec (len l) 0); [contradiction|].
  destruct (Z.ltb_spec (int_mul a (len l) 4) 0); [reflexivity|lia].
Qed.

End round_trip.

(** C6, at the input where it fails.  On a build with a 32-bit [int] and
    a list of 2^29 components, [len(l) * 4] wraps around to -2^31 and
    [result.Grow] panics, so [FromList] gives no string to parse.  (Lemma
    [ToList_FromList] shows that the round trip holds for every non-empty
    list on which the product does not wrap around to a negative [int].) *)
Theorem FromList_panics_in_Grow :
  oid.FromList Arch32 (replicate (Z.to_nat 536870912) 0) = Panic.
Proof.
  apply FromList_grow_panics.
  - rewrite len_replicate by lia. lia.
  - rewrite len_replicate by lia. vm_compute. reflexivity.
Qed.

(** * A failure returns no text *)

Section failure.
Variable a : Arch.
Variables hint data : list byte.

(** A [false] comes with the empty string, whatever was written before. *)
Lemma loop_failure_empty (fuel : nat) :
  forall (st : locals) (s : list byte),
    loop_inv a hint data st ->
    collector.loop a hint data fuel st = Return (s, false) -> s = [].
Proof.
  induction fuel as [|fuel IH]; intros st s Hinv; cbn [collector.loop].
  - destruct (dataPos st <? len data); [discriminate|]. intros [=].
  - destruct (Z.ltb_spec (dataPos st) (len data)) as [Hlt|]; [|intros [=]].
    pose proof Hinv as (Hh & Hd & Hl & _).
    rewrite iteration_pure by lia.
    destruct (iter_pure a hint data st) as [st'|] eqn:Hit;
      cbn [mbind outcome_bind].
    + destruct (iter_pure_inv a hint data st st' Hinv Hlt Hit) as (Hinv' & _).
      apply IH. exact Hinv'.
    + intros [= <-]. reflexivity.
Qed.

End failure.

(** X1.  When [applyDisplayHint] returns [false], the string beside it
    is empty: a specification that cannot be read, or a last
    specification that consumes nothing, discards the text already
    written for the specifications before it. *)
Theorem failure_returns_empty (a : Arch) (hint data s : list byte) :
  (collector.applyDisplayHint a hint data = Return (s, false) -> s = [])
  /\ (collector2.applyDisplayHint a hint data = Return (s, false) -> s = []).
Proof.
  split.
  - unfold collector.applyDisplayHint, collector.applyDisplayHint_fuel,
      strings.Grow.
    destruct ((len hint =? 0) || (len data =? 0)); [by intros [= <-]|].
    destruct (int_mul a (len data) 3 <? 0); [discriminate|].
    cbn [mbind outcome_bind].
    apply loop_failure_empty, loop_inv_start.
  - unfold collector2.applyDisplayHint. rewrite applyDisplayHint2_loop.
    destruct ((len hint =? 0) || (len data =? 0)); [by intros [= <-]|].
    apply loop_failure_empty, loop_inv_start.
Qed.

(** The theorem at ["1d.1q"]: the first specification writes ["1."], the
    second one has no format character that the formatter knows. *)
Lemma failure_returns_empty_witness :
  collector.applyDisplayHint Arch64 (str "1d.1q") (bytes [1; 2])
  = Return ([], false)
  /\ (fun s : list byte => s = []) [].
Proof.
  split.
  - vm_compute. reflexivity.
  - apply (proj1 (failure_returns_empty Arch64 (str "1d.1q") (bytes [1; 2]) [])).
    vm_compute. reflexivity.
Defined.

(** * The path through [applyDisplayHintLarge] *)

(** X2.  [applyDisplayHintLarge] computes what [applyDisplayHint]
    computes, whatever non-negative size estimate it is given: on
    non-empty data the two return the same pair, so the estimate selects
    a buffer and nothing else.  The guard against empty inputs is in
    [applyDisplayHint] only: on empty data [applyDisplayHintLarge]
    returns [("", true)] where [applyDisplayHint] returns [("", false)]. *)
Theorem large_path_same_result (a : Arch) (hint data : list byte) (estimatedSize : Z) :
  0 <= estimatedSize ->
  (data <> [] ->
   collector2.applyDisplayHintLarge a hint data estimatedSize
   = collector2.applyDisplayHint a hint data)
  /\ collector2.applyDisplayHintLarge a hint [] estimatedSize = Return ([], true)
  /\ collector2.applyDisplayHint a hint [] = Return ([], false).
Proof.
  intros Hest.
  assert (forall d : list byte,
            collector2.applyDisplayHintLarge a hint d estimatedSize
            = collector.loop a hint d (length hint + length d)
                (Locals 0 0 0 false [])) as Hlarge.
  { intros d. unfold collector2.applyDisplayHintLarge,
      collector2.applyDisplayHintLarge_fuel, strings.Grow.
    destruct (Z.ltb_spec estimatedSize 0); [lia|].
    cbn [mbind outcome_bind]. apply large_loop_eq. }
  split; [|split].
  - intros Hdata. rewrite Hlarge.
    unfold collector2.applyDisplayHint. rewrite applyDisplayHint2_loop.
    destruct data as [|c data]; [contradiction|].
    assert ((len (c :: data) =? 0) = false) as ->.
    { rewrite len_cons. pose proof (len_nonneg data). lia. }
    rewrite orb_false_r.
    destruct (Z.eqb_spec (len hint) 0) as [Hh|]; [|reflexivity].
    cbn [length]. rewrite Nat.add_succ_r.
    apply degenerate_loop; cbn [dataPos hintPos lastSpecConsumesByte].
    + rewrite len_cons. pose proof (len_nonneg data). lia.
    + lia.
    + reflexivity.
  - rewrite Hlarge. rewrite Nat.add_0_r.
    destruct (length hint); reflexivity.
  - unfold collector2.applyDisplayHint. rewrite applyDisplayHint2_loop.
    change (len []) with 0. by rewrite orb_true_r.
Qed.

(** The theorem at ["1x:"] with an estimate of 10 bytes. *)
Lemma large_path_same_result_witness :
  collector2.applyDisplayHintLarge Arch64 (str "1x:") (bytes [0; 26; 43]) 10
  = Return (str "00:1A:2B", true).
Proof.
  destruct (large_path_same_result Arch64 (str "1x:") (bytes [0; 26; 43]) 10)
    as (H & _); [lia|].
  rewrite H by discriminate. vm_compute. reflexivity.
Defined.

(** * Implicit repetition of a single specification *)

Section single_spec.
Variable a : Arch.
Variables hint data : list byte.

Lemma pieces_fuel_enough (n : nat) (f : nat) :
  (0 < n)%nat ->
  forall (f' : nat) (x : list byte),
    (length x <= f)%nat -> (length x <= f')%nat ->
    pieces_fuel f n x = pieces_fuel f' n x.
Proof.
  intros Hn. induction f as [|f IH]; intros f' x Hf Hf'.
  - destruct x; [|cbn in Hf; lia]. by destruct f'.
  - destruct f' as [|f'].
    + destruct x; [reflexivity|cbn in Hf'; lia].
    + cbn [pieces_fuel]. destruct x as [|c x]; [reflexivity|].
      f_equal. cbn [length] in *.
      apply IH; rewrite length_drop; cbn [length]; lia.
Qed.

Lemma pieces_cons (n : nat) (x : list byte) :
  (0 < n)%nat -> x <> [] ->
  pieces n x = take n x :: pieces n (drop n x).
Proof.
  intros Hn Hx. unfold pieces. destruct x as [|c x]; [contradiction|].
  cbn [length pieces_fuel]. f_equal.
  apply pieces_fuel_enough; [assumption| |lia].
  rewrite length_drop. cbn [length]. lia.
Qed.

Lemma concat_pieces_fuel (n : nat) (f : nat) :
  (0 < n)%nat ->
  forall x : list byte,
    (length x <= f)%nat -> concat (pieces_fuel f n x) = x.
Proof.
  intros Hn. induction f as [|f IH]; intros x Hf.
  - destruct x; [reflexivity|cbn in Hf; lia].
  - cbn [pieces_fuel]. destruct x as [|c x]; [reflexivity|].
    cbn [concat]. rewrite IH; [apply take_drop|].
    rewrite length_drop. cbn [length] in *. lia.
Qed.

Lemma concat_pieces (n : nat) (x : list byte) :
  (0 < n)%nat -> concat (pieces n x) = x.
Proof. intros Hn. by apply concat_pieces_fuel. Qed.

Lemma join_sep_nil (xs : list (list byte)) : join_sep [] xs = concat xs.
Proof.
  induction xs as [|x xs IH]; [reflexivity|].
  cbn [join_sep concat]. destruct xs as [|y xs].
  - by rewrite app_nil_r.
  - cbn [app]. by rewrite IH.
Qed.

Lemma hex_text_concat (xs : list (list byte)) :
  concat (map hex_text xs) = hex_text (concat xs).
Proof.
  induction xs as [|x xs IH]; [reflexivity|].
  cbn [map concat]. rewrite IH. unfold hex_text.
  by rewrite flat_map_app.
Qed.

(** Without overflow the end of a chunk is [min(dataPos + take, len(data))]. *)
Lemma next_end_min (take d : Z) :
  0 <= d <= len data -> len data <= max_int a -> 0 <= take <= max_int a ->
  next_end a data take d = Z.min (d + take) (len data).
Proof.
  intros Hd Hlen Ht. unfold next_end, int_add.
  pose proof (wrap_int_range a (d + take)) as Hr.
  destruct (wrap_int_eqm a (d + take)) as [k Hk].
  pose proof (pow_intSize a) as Hp. pose proof (pow_intSize_pos a) as Hpos.
  unfold max_int, min_int in *.
  set (M := 2 ^ (intSize a - 1)) in *. clearbody M.
  rewrite Hp in Hk.
  destruct (Z.leb_spec (d + take) (M - 1)) as [Hsmall|Hbig].
  - assert (k = 0) as -> by nia.
    rewrite Hk, Z.add_0_r.
    destruct (Z.ltb_spec (len data) (d + take));
      destruct (Z.ltb_spec (d + take) d); cbn [orb]; lia.
  - assert (k = -1) as -> by nia.
    rewrite Hk.
    destruct (Z.ltb_spec (len data) (d + take + -1 * (2 * M)));
      destruct (Z.ltb_spec (d + take + -1 * (2 * M)) d); cbn [orb]; lia.
Qed.

(** One application of a specification without ['*'] and terminator. *)
Lemma apply_pure_single (sp : spec) (d : Z) :
  starPrefix sp = false -> hasTerm sp = false -> 0 <= d < len data ->
  apply_pure a data sp d
  = (next_end a data (take_ sp) d,
     rendered (fmtChar sp) (chunk_at data d (next_end a data (take_ sp) d))
     ++ (if hasSep sp && (next_end a data (take_ sp) d <? len data)
         then [sep sp] else [])).
Proof.
  intros Hstar Hterm Hd. unfold apply_pure, group_start.
  rewrite Hstar, Hterm. cbn [andb].
  change (Z.to_nat 1) with 1%nat. cbn [repeat_pure].
  destruct (Z.ltb_spec 0 1); [|lia].
  destruct (Z.ltb_spec d (len data)); [|lia]. cbn [andb].
  unfold sep_out. rewrite Hterm. cbn [negb orb].
  rewrite andb_true_r, !app_nil_r. reflexivity.
Qed.

Variable sp : spec.
Hypothesis Hparse : parse_pure a hint 0 = Some (sp, len hint).
Hypothesis Hstar : starPrefix sp = false.
Hypothesis Htake : 0 < take_ sp.
Hypothesis Hlen : len data <= max_int a.

Lemma single_spec_iter (st : locals) :
  single_state hint data st -> dataPos st < len data ->
  iter_pure a hint data st
  = Some (Locals (len hint) (next_end a data (take_ sp) (dataPos st)) 0 true
            (result st
             ++ rendered (fmtChar sp)
                  (chunk_at data (dataPos st)
                     (next_end a data (take_ sp) (dataPos st)))
             ++ (if hasSep sp
                    && (next_end a data (take_ sp) (dataPos st) <? len data)
                 then [sep sp] else []))).
Proof.
  intros (Hd & Hl & Hh) Hlt.
  pose proof (parse_pure_parsed a hint 0 sp (len hint) ltac:(lia) Hparse) as Hsp.
  pose proof (parsed_advances a hint 0 sp (len hint) Hsp) as Hadv.
  destruct Hsp as (_ & _ & _ & _ & _ & _ & Hterm & _).
  assert (hasTerm sp = false) as Hterm'.
  { destruct (hasTerm sp); [|reflexivity].
    rewrite Hstar in Hterm. by specialize (Hterm eq_refl). }
  assert (consumes sp = true) as Hcons.
  { unfold consumes. destruct (Z.ltb_spec 0 (take_ sp)); [reflexivity|lia]. }
  unfold iter_pure.
  assert ((if (len hint <=? hintPos st) && negb (lastSpecConsumesByte st)
           then true else false) = false
          /\ (if len hint <=? hintPos st then lastSpecStart st else hintPos st)
             = 0) as [H1 H2].
  { destruct Hh as [Hh|[Hh Hc]]; rewrite Hh, ?Hc.
    - destruct (Z.leb_spec (len hint) 0); [lia|]. by split.
    - rewrite Z.leb_refl, Hl. by split. }
  destruct ((len hint <=? hintPos st) && negb (lastSpecConsumesByte st));
    [discriminate|].
  rewrite H2, Hparse.
  rewrite apply_pure_single by (assumption || lia).
  by rewrite Hcons.
Qed.

Lemma single_spec_loop (fuel : nat) :
  forall st : locals,
    single_state hint data st ->
    len data - dataPos st <= Z.of_nat fuel ->
    collector.loop a hint data fuel st
    = Return (result st
              ++ repeated_text sp (drop (Z.to_nat (dataPos st)) data), true).
Proof.
  assert (0 < Z.to_nat (take_ sp))%nat as Hn by lia.
  induction fuel as [|fuel IH]; intros st Hst Hf;
    pose proof Hst as (Hd & Hl & Hh); cbn [collector.loop].
  - destruct (Z.ltb_spec (dataPos st) (len data)); [lia|].
    rewrite drop_ge by (unfold len in *; lia).
    unfold repeated_text, pieces. cbn. by rewrite app_nil_r.
  - destruct (Z.ltb_spec (dataPos st) (len data)) as [Hlt|Hge].
    2:{ rewrite drop_ge by (unfold len in *; lia).
        unfold repeated_text, pieces. cbn. by rewrite app_nil_r. }
    rewrite iteration_pure
      by (try lia; destruct Hh as [->|[-> _]]; pose proof (len_nonneg hint); lia).
    rewrite (single_spec_iter st Hst Hlt). cbn [mbind outcome_bind].
    pose proof (parse_pure_parsed a hint 0 sp (len hint) ltac:(lia) Hparse)
      as (_ & _ & _ & Hrange & _).
    pose proof (next_end_min (take_ sp) (dataPos st) ltac:(lia) Hlen Hrange)
      as He.
    set (d := dataPos st) in *.
    set (e := next_end a data (take_ sp) d) in *.
    rewrite IH; cbn [dataPos result lastSpecStart hintPos lastSpecConsumesByte].
    2:{ unfold single_state; cbn [dataPos lastSpecStart hintPos lastSpecConsumesByte]. split; [lia|]. split; [reflexivity|]. right. by split. }
    2:{ lia. }
    f_equal. f_equal. rewrite <- !app_assoc. f_equal.
    set (X := drop (Z.to_nat d) data).
    assert (length X = Z.to_nat (len data - d)) as HX
      by (subst X; rewrite length_drop; unfold len; lia).
    assert (X <> []) as HXne
      by (intros E; rewrite E in HX; cbn in HX; lia).
    unfold repeated_text. rewrite (pieces_cons _ X Hn HXne).
    assert (chunk_at data d e = take (Z.to_nat (take_ sp)) X) as ->.
    { unfold chunk_at. fold X.
      destruct (Z.le_gt_cases (d + take_ sp) (len data)).
      - f_equal. lia.
      - rewrite !take_ge by lia. reflexivity. }
    assert (drop (Z.to_nat e) data = drop (Z.to_nat (take_ sp)) X) as ->.
    { subst X. rewrite drop_drop.
      destruct (Z.le_gt_cases (d + take_ sp) (len data)).
      - f_equal. lia.
      - rewrite !drop_ge by (unfold len in *; lia). reflexivity. }
    set (Y := drop (Z.to_nat (take_ sp)) X).
    assert (length Y = Z.to_nat (len data - e)) as HY
      by (subst Y; rewrite length_drop; lia).
    cbn [map join_sep].
    destruct (Z.ltb_spec e (len data)) as [Hmore|Hend].
    + assert (Y <> []) as HYne
        by (intros E; rewrite E in HY; cbn in HY; lia).
      rewrite (pieces_cons _ Y Hn HYne). cbn [map].
      rewrite andb_true_r. unfold sep_text. by destruct (hasSep sp).
    + assert (Y = []) as -> by (apply length_zero_iff_nil; lia).
      rewrite andb_false_r.
      change (pieces (Z.to_nat (take_ sp)) []) with (@nil (list byte)).
      cbn [map join_sep app]. by rewrite app_nil_r.
Qed.

Lemma single_spec_start (fuel : nat) :
  (length data <= fuel)%nat ->
  collector.loop a hint data fuel (Locals 0 0 0 false [])
  = Return (repeated_text sp data, true).
Proof.
  intros Hf.
  rewrite single_spec_loop; cbn [dataPos result lastSpecStart hintPos].
  - reflexivity.
  - pose proof (len_nonneg data). unfold single_state.
    cbn [dataPos lastSpecStart hintPos]. split; [lia|].
    split; [reflexivity|]. by left.
  - unfold len. lia.
Qed.

End single_spec.


Section plain_hints.
Variable a : Arch.

Lemma is_format_not_decimal (c : byte) :
  is_format c = true -> strconv.isDecimal c = false /\ byte_eqb c "*" = false.
Proof.
  unfold is_format, strconv.isDecimal, byte_eqb.
  change (u8 "d") with 100. change (u8 "x") with 120.
  change (u8 "o") with 111. change (u8 "a") with 97.
  change (u8 "t") with 116. change (u8 "*") with 42.
  intros H. rewrite !orb_true_iff, !Z.eqb_eq in H.
  split.
  - destruct (Z.leb_spec 48 (u8 c)); [|reflexivity].
    destruct (Z.leb_spec (u8 c) 57); [lia|reflexivity].
  - destruct (Z.eqb_spec (u8 c) 42); [lia|reflexivity].
Qed.

(** The start of a specification: an optional ['*'] and a run of digits. *)
Lemma parse_pure_digits (star : bool) (ds rest : list byte) :
  ds <> [] -> forallb strconv.isDecimal ds = true ->
  digit_at rest 0 = false ->
  let hint := (if star then str "*" else []) ++ ds ++ rest in
  let q := (if star then 1 else 0) + len ds in
  parse_pure a hint 0
  = if wrap_int a (decimal_value ds) <? 0 then None else
    match rest with
    | [] => None
    | fc :: _ =>
        if negb (is_format fc) then None else
        let hasSep := sep_at hint (q + 1) in
        let sep := if hasSep then nth (Z.to_nat (q + 1)) hint x00 else x00 in
        let p3 := if hasSep then q + 1 + 1 else q + 1 in
        let hasTerm := star && sep_at hint p3 in
        let term := if hasTerm then nth (Z.to_nat p3) hint x00 else x00 in
        let p4 := if hasTerm then p3 + 1 else p3 in
        Some (Spec star (wrap_int a (decimal_value ds)) fc hasSep sep
                hasTerm term, p4)
    end.
Proof.
  intros Hne Hds Hrest.
  set (pre := if star then str "*" else []).
  assert (len pre = if star then 1 else 0) as Hpre by (by destruct star).
  destruct ds as [|c ds]; [contradiction|].
  pose proof Hds as Hds'. cbn [forallb] in Hds'.
  apply andb_true_iff in Hds' as [Hc _].
  unfold strconv.isDecimal in Hc.
  assert (star_at (pre ++ (c :: ds) ++ rest) 0 = star) as Hstar.
  { unfold star_at. change (Z.to_nat 0) with 0%nat.
    subst pre. destruct star; [reflexivity|].
    simpl. unfold byte_eqb. change (u8 "*") with 42.
    apply andb_true_iff in Hc as [Hc _]. apply Z.leb_le in Hc.
    destruct (Z.eqb_spec (u8 c) 42); [lia|reflexivity]. }
  cbv zeta. unfold parse_pure. rewrite Hstar.
  replace (if star then 0 + 1 else 0) with (len pre)
    by (rewrite Hpre; by destruct star).
  assert (digit_at (pre ++ (c :: ds) ++ rest) (len pre) = true) as Hdig.
  { unfold digit_at, len. rewrite Nat2Z.id. cbn [app].
    rewrite list_lookup_middle by reflexivity. exact Hc. }
  rewrite Hdig. cbn [negb].
  rewrite (take_pure_run a rest Hrest (c :: ds) pre) by
    (assumption || (rewrite !length_app; lia)).
  pose proof (wrapped_digits a (c :: ds) 0) as Hw.
  rewrite (wrap_int_small a 0) in Hw
    by (pose proof (max_int_ge a); pose proof (min_int_le a); lia).
  rewrite Hw. fold (decimal_value (c :: ds)).
  destruct (wrap_int a (decimal_value (c :: ds)) <? 0); [reflexivity|].
  assert ((pre ++ (c :: ds) ++ rest) !! Z.to_nat (len pre + len (c :: ds))
          = rest !! 0%nat) as ->.
  { rewrite app_assoc. rewrite lookup_app_r
      by (rewrite length_app; unfold len; lia).
    f_equal. rewrite length_app. unfold len. lia. }
  rewrite <- Hpre.
  destruct rest as [|fc rest]; [reflexivity|]. cbn [lookup list_lookup].
  reflexivity.
Qed.

End plain_hints.

Section results.
Variable a : Arch.
Variables hint data : list byte.

Lemma guard_false : hint <> [] -> data <> [] ->
  (len hint =? 0) || (len data =? 0) = false.
Proof.
  intros Hh Hd. destruct hint; [contradiction|]. destruct data; [contradiction|].
  rewrite !len_cons.
  pose proof (len_nonneg l). pose proof (len_nonneg l0).
  destruct (Z.eqb_spec (1 + len l) 0); [lia|].
  destruct (Z.eqb_spec (1 + len l0) 0); [lia|]. reflexivity.
Qed.

(** A hint whose first specification cannot be read is rejected. *)
Lemma parse_none_rejected :
  parse_pure a hint 0 = None ->
  collector2.applyDisplayHint a hint data = Return ([], false)
  /\ (0 <= int_mul a (len data) 3 ->
      collector.applyDisplayHint a hint data = Return ([], false)).
Proof.
  intros Hp.
  assert ((if (len hint =? 0) || (len data =? 0)
           then Return ([], false)
           else collector.loop a hint data (length hint + length data)
                  (Locals 0 0 0 false []))
          = Return ([], false)) as Hres.
  { destruct ((len hint =? 0) || (len data =? 0)) eqn:Hg; [reflexivity|].
    apply orb_false_iff in Hg as [Hh Hd].
    apply Z.eqb_neq in Hh, Hd.
    assert (hint <> []) as Hh' by (intros ->; by apply Hh).
    assert (data <> []) as Hd' by (intros ->; by apply Hd).
    assert (exists n, (length hint + length data)%nat = S n) as [n ->].
    { destruct data; [contradiction|].
      exists (length hint + length l)%nat. cbn [length]. lia. }
    by apply loop_parse_none. }
  split.
  - unfold collector2.applyDisplayHint. by rewrite applyDisplayHint2_loop.
  - intros Hg. unfold collector.applyDisplayHint.
    by rewrite applyDisplayHint_loop.
Qed.

(** A hint that is one specification without ['*'] is applied until the
    data is used up. *)
Lemma single_spec_result (sp : spec) :
  parse_pure a hint 0 = Some (sp, len hint) ->
  starPrefix sp = false -> 0 < take_ sp ->
  data <> [] -> len data <= max_int a ->
  collector2.applyDisplayHint a hint data
  = Return (repeated_text sp data, true)
  /\ (0 <= int_mul a (len data) 3 ->
      collector.applyDisplayHint a hint data
      = Return (repeated_text sp data, true)).
Proof.
  intros Hp Hstar Htake Hdata Hlen.
  pose proof (parsed_advances a hint 0 sp (len hint)
                (parse_pure_parsed a hint 0 sp (len hint) ltac:(lia) Hp)) as Hadv.
  assert (hint <> []) as Hh by (intros ->; change (len []) with 0 in Hadv; lia).
  pose proof (guard_false Hh Hdata) as Hguard.
  pose proof (single_spec_start a hint data sp Hp Hstar Htake Hlen
                (length hint + length data) ltac:(lia)) as Hloop.
  split.
  - unfold collector2.applyDisplayHint.
    by rewrite applyDisplayHint2_loop, Hguard.
  - intros Hg. unfold collector.applyDisplayHint.
    by rewrite applyDisplayHint_loop, Hguard.
Qed.

End results.

Section plain_results.
Variable a : Arch.

(** The specification that a hint of digits and a format character is. *)
Lemma parse_pure_plain (ds : list byte) (fc : byte) :
  ds <> [] -> forallb strconv.isDecimal ds = true ->
  is_format fc = true ->
  0 <= wrap_int a (decimal_value ds) ->
  parse_pure a (ds ++ [fc]) 0
  = Some (Spec false (wrap_int a (decimal_value ds)) fc false x00 false x00,
          len (ds ++ [fc])).
Proof.
  intros Hne Hds Hfc Hv.
  destruct (is_format_not_decimal fc Hfc) as [Hnd _].
  pose proof (parse_pure_digits a false ds [fc] Hne Hds) as Hp.
  cbv zeta in Hp. cbn [app andb] in Hp. rewrite Hp.
  2:{ unfold digit_at. change (Z.to_nat 0) with 0%nat. cbn. exact Hnd. }
  destruct (Z.ltb_spec (wrap_int a (decimal_value ds)) 0); [lia|].
  rewrite Hfc. cbn [negb].
  assert (sep_at (ds ++ [fc]) (0 + len ds + 1) = false) as ->.
  { unfold sep_at. rewrite lookup_ge_None_2; [reflexivity|].
    rewrite length_app. cbn [length]. unfold len. lia. }
  rewrite len_app. change (len [fc]) with 1. reflexivity.
Qed.

Lemma plain_text (ds data : list byte) (fc : byte) :
  repeated_text
    (Spec false (wrap_int a (decimal_value ds)) fc false x00 false x00) data
  = concat (map (rendered fc)
              (pieces (Z.to_nat (wrap_int a (decimal_value ds))) data)).
Proof. unfold repeated_text, sep_text. cbn. apply join_sep_nil. Qed.

End plain_results.

(** X3.  Implicit repetition.  When the whole hint is one specification
    without ['*'] and with a positive octet length, and the data is not
    empty, the formatter cuts the data into pieces of that many bytes
    (the last one may be shorter), renders each piece under the format
    character and puts the separator between the pieces, with none behind
    the last one. *)
Theorem single_spec_repeats (a : Arch) (hint data : list byte) (sp : spec) :
  collector.parse_spec a hint 0 = Val (sp, len hint) ->
  starPrefix sp = false -> 0 < take_ sp ->
  data <> [] -> len data <= max_int a ->
  collector2.applyDisplayHint a hint data
  = Return (join_sep (sep_text sp)
              (map (rendered (fmtChar sp))
                 (pieces (Z.to_nat (take_ sp)) data)), true)
  /\ (0 <= int_mul a (len data) 3 ->
      collector.applyDisplayHint a hint data
      = Return (join_sep (sep_text sp)
                  (map (rendered (fmtChar sp))
                     (pieces (Z.to_nat (take_ sp)) data)), true))
  /\ concat (pieces (Z.to_nat (take_ sp)) data) = data.
Proof.
  intros Hparse Hstar Htake Hdata Hlen.
  rewrite parse_spec_pure in Hparse by lia.
  destruct (parse_pure a hint 0) as [[sp' p']|] eqn:Hp; [|discriminate].
  cbn [parse_outcome] in Hparse. injection Hparse as -> ->.
  destruct (single_spec_result a hint data sp Hp Hstar Htake Hdata Hlen)
    as [H2 H1].
  split; [exact H2|]. split; [exact H1|]. apply concat_pieces. lia.
Qed.

(** The theorem at ["1x:"], the hint of a MAC address. *)
Lemma single_spec_repeats_witness :
  collector2.applyDisplayHint Arch64 (str "1x:") (bytes [0; 26; 43; 60])
  = Return (str "00:1A:2B:3C", true)
  /\ collector.applyDisplayHint Arch64 (str "1x:") (bytes [0; 26; 43; 60])
     = Return (str "00:1A:2B:3C", true).
Proof.
  destruct (single_spec_repeats Arch64 (str "1x:") (bytes [0; 26; 43; 60])
              (Spec false 1 "x" true ":" false x00)) as (H2 & H1 & _).
  - vm_compute. reflexivity.
  - reflexivity.
  - reflexivity.
  - discriminate.
  - vm_compute. discriminate.
  - split; [exact H2|]. apply H1. vm_compute. discriminate.
Defined.

(** X4.  A hint that is an octet length above zero and ['a'] or ['t']
    (["255a"], the hint of a DisplayString) returns non-empty data
    unchanged, whatever its length. *)
Theorem text_returned_unchanged (a : Arch) (ds data : list byte) (fc : byte) :
  ds <> [] -> forallb strconv.isDecimal ds = true ->
  0 < wrap_int a (decimal_value ds) ->
  fc = "a"%byte \/ fc = "t"%byte ->
  data <> [] -> len data <= max_int a ->
  collector2.applyDisplayHint a (ds ++ [fc]) data = Return (data, true)
  /\ (0 <= int_mul a (len data) 3 ->
      collector.applyDisplayHint a (ds ++ [fc]) data = Return (data, true)).
Proof.
  intros Hne Hds Hv Hfc Hdata Hlen.
  assert (is_format fc = true) as Hfmt by (by destruct Hfc as [-> | ->]).
  pose proof (parse_pure_plain a ds fc Hne Hds Hfmt ltac:(lia)) as Hp.
  destruct (single_spec_result a (ds ++ [fc]) data _ Hp eq_refl Hv Hdata Hlen)
    as [H2 H1].
  rewrite plain_text in H2, H1.
  assert (concat (map (rendered fc)
            (pieces (Z.to_nat (wrap_int a (decimal_value ds))) data)) = data)
    as Htext.
  { rewrite <- (concat_pieces (Z.to_nat (wrap_int a (decimal_value ds))) data)
      at 2 by lia.
    f_equal. rewrite <- (map_id (pieces _ data)) at 2.
    apply map_ext. intros chunk. by destruct Hfc as [-> | ->]. }
  rewrite Htext in H2, H1. by split.
Qed.

(** The theorem at ["255a"]. *)
Lemma text_returned_unchanged_witness :
  collector2.applyDisplayHint Arch64 (str "255a") (str "eth0")
  = Return (str "eth0", true)
  /\ collector.applyDisplayHint Arch64 (str "255a") (str "eth0")
     = Return (str "eth0", true).
Proof.
  destruct (text_returned_unchanged Arch64 (str "255") (str "eth0") "a")
    as [H2 H1].
  - discriminate.
  - reflexivity.
  - vm_compute. reflexivity.
  - by left.
  - discriminate.
  - vm_compute. discriminate.
  - split; [exact H2|]. apply H1. vm_compute. discriminate.
Defined.

(** X5.  A hint that is an octet length above zero and ['x'], without
    separator, returns the data as upper-case hexadecimal digits, two per
    byte, whatever the octet length. *)
Theorem hex_without_separator (a : Arch) (ds data : list byte) :
  ds <> [] -> forallb strconv.isDecimal ds = true ->
  0 < wrap_int a (decimal_value ds) ->
  data <> [] -> len data <= max_int a ->
  collector2.applyDisplayHint a (ds ++ str "x") data
  = Return (hex_text data, true)
  /\ (0 <= int_mul a (len data) 3 ->
      collector.applyDisplayHint a (ds ++ str "x") data
      = Return (hex_text data, true))
  /\ len (hex_text data) = 2 * len data.
Proof.
  intros Hne Hds Hv Hdata Hlen.
  pose proof (parse_pure_plain a ds "x" Hne Hds eq_refl ltac:(lia)) as Hp.
  destruct (single_spec_result a (ds ++ ["x"%byte]) data _ Hp eq_refl Hv
              Hdata Hlen) as [H2 H1].
  rewrite plain_text in H2, H1.
  assert (concat (map (rendered "x")
            (pieces (Z.to_nat (wrap_int a (decimal_value ds))) data))
          = hex_text data) as Htext.
  { rewrite <- (concat_pieces (Z.to_nat (wrap_int a (decimal_value ds))) data)
      at 2 by lia.
    rewrite <- hex_text_concat. reflexivity. }
  rewrite Htext in H2, H1.
  split; [exact H2|]. split; [exact H1|]. apply len_hex_text.
Qed.

(** The theorem at ["2x"] on five bytes and a 32-bit [int]. *)
Lemma hex_without_separator_witness :
  collector2.applyDisplayHint Arch32 (str "2x") (bytes [222; 173; 190; 239; 1])
  = Return (str "DEADBEEF01", true)
  /\ len (str "DEADBEEF01") = 2 * len (bytes [222; 173; 190; 239; 1]).
Proof.
  destruct (hex_without_separator Arch32 (str "2") (bytes [222; 173; 190; 239; 1]))
    as (H2 & _ & H3).
  - discriminate.
  - reflexivity.
  - vm_compute. reflexivity.
  - discriminate.
  - vm_compute. discriminate.
  - split; [exact H2|exact H3].
Defined.

Lemma pieces_one (n : nat) (x : list byte) :
  x <> [] -> (length x <= n)%nat -> pieces n x = [x].
Proof.
  intros Hx Hn.
  assert (0 < n)%nat by (destruct x; [contradiction|cbn in Hn; lia]).
  rewrite pieces_cons by assumption.
  rewrite take_ge, drop_ge by lia. reflexivity.
Qed.

(** X6.  A hint that is an octet length and ['d'] (or ['o']), applied to
    data of at most that many and at most 8 bytes, returns the canonical
    decimal (octal) numeral of the data read as a big-endian unsigned
    integer. *)
Theorem integer_rendered (a : Arch) (ds data : list byte) (fc : byte) (base : Z) :
  ds <> [] -> forallb strconv.isDecimal ds = true ->
  (fc = "d"%byte /\ base = 10) \/ (fc = "o"%byte /\ base = 8) ->
  data <> [] -> len data <= wrap_int a (decimal_value ds) -> len data <= 8 ->
  exists s : list byte,
    collector2.applyDisplayHint a (ds ++ [fc]) data = Return (s, true)
    /\ (0 <= int_mul a (len data) 3 ->
        collector.applyDisplayHint a (ds ++ [fc]) data = Return (s, true))
    /\ digits_value base s = Some (be_value data)
    /\ canonical s = true.
Proof.
  intros Hne Hds Hfc Hdata Hn H8.
  assert (0 < len data) as Hpos.
  { destruct data; [contradiction|]. rewrite len_cons.
    pose proof (len_nonneg data). lia. }
  assert (is_format fc = true) as Hfmt by (by destruct Hfc as [[-> _]|[-> _]]).
  pose proof (parse_pure_plain a ds fc Hne Hds Hfmt ltac:(lia)) as Hp.
  pose proof (wrap_int_range a (decimal_value ds)) as Hr.
  destruct (single_spec_result a (ds ++ [fc]) data _ Hp eq_refl ltac:(cbn; lia)
              Hdata ltac:(lia)) as [H2 H1].
  rewrite plain_text in H2, H1.
  rewrite pieces_one in H2, H1 by (assumption || (unfold len in *; lia)).
  cbn [map concat] in H2, H1. rewrite app_nil_r in H2, H1.
  exists (rendered fc data). split; [exact H2|]. split; [exact H1|].
  assert (rendered fc data
          = strconv.formatBits 64 (collector.be_uint64 data) base []) as ->
    by (by destruct Hfc as [[-> ->]|[-> ->]]).
  pose proof (be_uint64_range data) as Hrange.
  destruct (formatBits_uint64 base (collector.be_uint64 data)) as [Hv Hc].
  - destruct Hfc as [[_ ->]|[_ ->]]; lia.
  - exact Hrange.
  - split; [|exact Hc].
    rewrite Hv, be_uint64_spec, be_value_exact by assumption. reflexivity.
Qed.

(** The theorem at ["4d"] on the four bytes of 100000. *)
Lemma integer_rendered_witness :
  exists s : list byte,
    collector2.applyDisplayHint Arch64 (str "4d") (bytes [0; 1; 134; 160])
    = Return (s, true)
    /\ digits_value 10 s = Some 100000.
Proof.
  destruct (integer_rendered Arch64 (str "4") (bytes [0; 1; 134; 160]) "d" 10)
    as (s & H2 & _ & Hv & _).
  - discriminate.
  - reflexivity.
  - left. by split.
  - discriminate.
  - vm_compute. discriminate.
  - vm_compute. discriminate.
  - exists s. split; [exact H2|exact Hv].
Defined.

(** * Hints that cannot be read *)

(** X7.  A hint that does not start, behind an optional ['*'], with a
    decimal digit, has no octet length: [applyDisplayHint] returns
    [("", false)] on every data. *)
Theorem missing_octet_length (a : Arch) (hint data : list byte) :
  digit_at hint (if star_at hint 0 then 1 else 0) = false ->
  collector2.applyDisplayHint a hint data = Return ([], false)
  /\ (0 <= int_mul a (len data) 3 ->
      collector.applyDisplayHint a hint data = Return ([], false)).
Proof.
  intros Hdig. apply parse_none_rejected.
  unfold parse_pure.
  replace (if star_at hint 0 then 0 + 1 else 0)
    with (if star_at hint 0 then 1 else 0) by (by destruct (star_at hint 0)).
  by rewrite Hdig.
Qed.

(** The theorem at ["*x:"]. *)
Lemma missing_octet_length_witness :
  collector2.applyDisplayHint Arch64 (str "*x:") (bytes [2; 10; 11])
  = Return ([], false)
  /\ collector.applyDisplayHint Arch64 (str "*x:") (bytes [2; 10; 11])
     = Return ([], false).
Proof.
  destruct (missing_octet_length Arch64 (str "*x:") (bytes [2; 10; 11]))
    as [H2 H1].
  - vm_compute. reflexivity.
  - split; [exact H2|]. apply H1. vm_compute. discriminate.
Defined.

(** X8.  A hint whose first octet length is followed by the end of the
    hint, or by a character other than ['d'], ['x'], ['o'], ['a'] and
    ['t'], has no format character: [applyDisplayHint] returns
    [("", false)] on every data. *)
Theorem missing_format_character (a : Arch) (star : bool)
    (ds rest data : list byte) :
  ds <> [] -> forallb strconv.isDecimal ds = true ->
  match rest with
  | [] => True
  | c :: _ => strconv.isDecimal c = false /\ is_format c = false
  end ->
  collector2.applyDisplayHint a ((if star then str "*" else []) ++ ds ++ rest) data
  = Return ([], false)
  /\ (0 <= int_mul a (len data) 3 ->
      collector.applyDisplayHint a ((if star then str "*" else []) ++ ds ++ rest) data
      = Return ([], false)).
Proof.
  intros Hne Hds Hrest. apply parse_none_rejected.
  pose proof (parse_pure_digits a star ds rest Hne Hds) as Hp.
  cbv zeta in Hp. rewrite Hp.
  - destruct (wrap_int a (decimal_value ds) <? 0); [reflexivity|].
    destruct rest as [|c rest]; [reflexivity|].
    destruct Hrest as [_ ->]. reflexivity.
  - unfold digit_at. change (Z.to_nat 0) with 0%nat.
    destruct rest as [|c rest]; [reflexivity|].
    destruct Hrest as [Hc _]. exact Hc.
Qed.

(** The theorem at ["*1-"]. *)
Lemma missing_format_character_witness :
  collector2.applyDisplayHint Arch64 (str "*1-") (bytes [7; 8; 9])
  = Return ([], false)
  /\ collector.applyDisplayHint Arch64 (str "*1-") (bytes [7; 8; 9])
     = Return ([], false).
Proof.
  destruct (missing_format_character Arch64 true (str "1") (str "-")
              (bytes [7; 8; 9])) as [H2 H1].
  - discriminate.
  - reflexivity.
  - split; reflexivity.
  - split; [exact H2|]. apply H1. vm_compute. discriminate.
Defined.

(** * The estimate of the output size *)

Section estimate.
Variable a : Arch.
Variable hint : list byte.

Lemma estimate_loop_bounds (dataLen : Z) (fuel : nat) :
  0 <= dataLen -> 4 * dataLen + 1 <= max_int a ->
  forall i : Z,
    -1 <= i < len hint -> i + 1 <= Z.of_nat fuel ->
    wp (collector2.estimate_loop a hint fuel dataLen i)
       (fun _ => True) (fun n => dataLen + 1 <= n <= 4 * dataLen + 1).
Proof.
  intros Hd Hmax.
  pose proof (min_int_le a) as Hmin.
  assert (forall x, 0 <= x <= 4 * dataLen + 1 -> wrap_int a x = x) as Hw
    by (intros x Hx; apply wrap_int_small; lia).
  assert (0 <= Z.quot dataLen 8 <= dataLen) as Hq.
  { split; [apply Z.quot_pos; lia|].
    rewrite Z.quot_div_nonneg by lia.
    pose proof (Z.div_mod dataLen 8). pose proof (Z.mod_pos_bound dataLen 8).
    lia. }
  induction fuel as [|fuel IH]; intros i Hi Hf.
  - simpl. destruct (Z.leb_spec 0 i); [lia|exact I].
  - cbn [collector2.estimate_loop].
    destruct (Z.leb_spec 0 i); [|exact I].
    apply wp_bind. apply wp_index; [lia|]. intros c _.
    unfold int_add, int_mul, int_quot.
    destruct (byte_eqb c "a" || byte_eqb c "t").
    { cbn [wp]. rewrite (Hw (Z.quot dataLen 8)) by lia.
      rewrite (Hw (dataLen + Z.quot dataLen 8)) by lia.
      rewrite Hw by lia. lia. }
    destruct (byte_eqb c "x").
    { cbn [wp]. rewrite (Hw (dataLen * 3)) by lia. rewrite Hw by lia. lia. }
    destruct (byte_eqb c "d" || byte_eqb c "o").
    { cbn [wp]. rewrite (Hw (dataLen * 4)) by lia. rewrite Hw by lia. lia. }
    apply IH; lia.
Qed.

End estimate.

(** X9.  When [4 * dataLen + 1] is within [int], [estimateOutputSize]
    returns a size between [dataLen + 1] and [4 * dataLen + 1], whatever
    the hint. *)
Theorem estimateOutputSize_bounds (a : Arch) (hint : list byte) (dataLen : Z) :
  0 <= dataLen -> 4 * dataLen + 1 <= max_int a ->
  exists n : Z,
    collector2.estimateOutputSize a hint dataLen = Return n
    /\ dataLen + 1 <= n <= 4 * dataLen + 1.
Proof.
  intros Hd Hmax. unfold collector2.estimateOutputSize.
  pose proof (estimate_loop_bounds a hint dataLen (length hint) Hd Hmax
                (len hint - 1)) as H.
  pose proof (len_nonneg hint).
  destruct (collector2.estimate_loop a hint (length hint) dataLen (len hint - 1))
    as [[]|n| |]; cbn [wp mbind outcome_bind] in *.
  - exists (int_add a (int_mul a dataLen 4) 1). split; [reflexivity|].
    unfold int_add, int_mul. pose proof (min_int_le a).
    rewrite (wrap_int_small a (dataLen * 4)) by lia.
    rewrite wrap_int_small by lia. lia.
  - exists n. split; [reflexivity|]. apply H; unfold len in *; lia.
  - exfalso. apply H; unfold len in *; lia.
  - exfalso. apply H; unfold len in *; lia.
Qed.

(** The theorem at ["1x:"] and six bytes. *)
Lemma estimateOutputSize_bounds_witness :
  exists n : Z,
    collector2.estimateOutputSize Arch32 (str "1x:") 6 = Return n
    /\ 6 + 1 <= n <= 4 * 6 + 1.
Proof.
  apply (estimateOutputSize_bounds Arch32 (str "1x:") 6).
  - lia.
  - vm_compute. discriminate.
Defined.

(** * Where the formatter panics *)

(** X10.  The single-pass formatter panics on exactly the inputs on which
    [result.Grow(len(data) * 3)] does: non-empty hint and data with a
    product that wraps around to a negative [int].  The revision returns
    a pair on every input. *)
Theorem panics_only_in_Grow (a : Arch) (hint data : list byte) :
  (collector.applyDisplayHint a hint data = Panic
   <-> hint <> [] /\ data <> [] /\ int_mul a (len data) 3 < 0)
  /\ (exists s ok, collector2.applyDisplayHint a hint data = Return (s, ok)).
Proof.
  split; [|apply applyDisplayHint2_returns].
  split.
  - intros H.
    destruct (Z.lt_ge_cases (int_mul a (len data) 3) 0) as [Hneg|Hok].
    + destruct hint; [discriminate H|]. destruct data; [|by repeat split].
      unfold collector.applyDisplayHint, collector.applyDisplayHint_fuel in H.
      change (len []) with 0 in H. rewrite orb_true_r in H. discriminate.
    + destruct (applyDisplayHint_returns a hint data) as (s & ok & Hr); [lia|].
      rewrite Hr in H. discriminate.
  - intros (Hh & Hd & Hneg). apply grow_overflow_panics; try assumption.
    + destruct hint; [contradiction|]. rewrite len_cons.
      pose proof (len_nonneg hint). lia.
    + destruct data; [contradiction|]. rewrite len_cons.
      pose proof (len_nonneg data). lia.
Qed.

(** * More on the OID utilities *)

Section oid_more.
Variable a : Arch.

Lemma FromList_returns_grow (l : list Z) (s : list byte) :
  oid.FromList a l = Return s ->
  l = [] \/ (l <> [] /\ 0 <= int_mul a (len l) 4).
Proof.
  intros H. destruct l as [|o l]; [by left|]. right.
  split; [discriminate|].
  destruct (Z.le_gt_cases 0 (int_mul a (len (o :: l)) 4)) as [|Hneg]; [assumption|].
  rewrite FromList_grow_panics in H; [discriminate| |lia].
  rewrite len_cons. pose proof (len_nonneg l). lia.
Qed.

Lemma Join_cons (x : list byte) (rest : list (list byte)) (sep : list byte) :
  strings.Join (x :: rest) sep = x ++ concat (map (fun y => sep ++ y) rest).
Proof.
  revert x. induction rest as [|y rest IH]; intros x.
  - cbn. by rewrite app_nil_r.
  - change (strings.Join (x :: y :: rest) sep)
      with (x ++ sep ++ strings.Join (y :: rest) sep).
    rewrite IH. cbn [map concat]. by rewrite <- app_assoc.
Qed.

Lemma append_fold {A B : Type} (f : A -> B) (l : list A) :
  forall acc : list B,
    foldl (fun result o => result ++ [f o]) acc l = acc ++ map f l.
Proof.
  induction l as [|x l IH]; intros acc; cbn [foldl map].
  - by rewrite app_nil_r.
  - rewrite IH, <- app_assoc. reflexivity.
Qed.

(** What [FromList] returns is the decimal components joined by dots. *)
Lemma FromList_Join (l : list Z) (s : list byte) :
  oid.FromList a l = Return s ->
  s = strings.Join (map strconv.Itoa l) (str ".").
Proof.
  unfold oid.FromList, strings.Grow.
  destruct l as [|o l]; [by intros [= <-]|].
  destruct (Z.eqb_spec (len (o :: l)) 0) as [E|_].
  { rewrite len_cons in E. pose proof (len_nonneg l). lia. }
  destruct (int_mul a (len (o :: l)) 4 <? 0); [discriminate|].
  cbn [mbind outcome_bind oid.FromList_loop Z.ltb Z.compare app].
  intros [= <-]. rewrite FromList_loop_rest by lia.
  cbn [map]. rewrite Join_cons, map_map. reflexivity.
Qed.

Lemma length_SplitSeq (s : list byte) :
  len (strings.SplitSeq_dot s) = strings.Count_dot s + 1.
Proof.
  unfold strings.Count_dot.
  induction s as [|c s IH]; [reflexivity|].
  cbn [strings.SplitSeq_dot]. rewrite filter_cons.
  destruct (Z.eqb_spec (u8 c) 46) as [E|E].
  - rewrite decide_True by assumption. rewrite !len_cons, IH. lia.
  - rewrite decide_False by assumption.
    destruct (strings.SplitSeq_dot s) as [|x xs] eqn:Es.
    + change (len []) with 0 in IH.
      pose proof (len_nonneg (filter (fun c => u8 c = 46) s)). lia.
    + rewrite len_cons in *. lia.
Qed.


End oid_more.

Section mibs_dir.

Lemma Split_no_sep (sep : byte) (x : list byte) :
  forallb (fun c => negb (byte_eqb c sep)) x = true ->
  strings.Split x sep = [x].
Proof.
  induction x as [|c x IH]; [reflexivity|]. cbn [forallb strings.Split].
  intros H. apply andb_true_iff in H as [Hc Hx].
  apply negb_true_iff in Hc. rewrite Hc, IH by assumption. reflexivity.
Qed.

Lemma Split_segment (sep : byte) (x y : list byte) :
  forallb (fun c => negb (byte_eqb c sep)) x = true ->
  strings.Split (x ++ sep :: y) sep = x :: strings.Split y sep.
Proof.
  induction x as [|c x IH]; cbn [forallb app strings.Split].
  - intros _. unfold byte_eqb at 1. by rewrite Z.eqb_refl.
  - intros H. apply andb_true_iff in H as [Hc Hx].
    apply negb_true_iff in Hc. rewrite Hc, IH by assumption. reflexivity.
Qed.

(** Splitting at the separator undoes joining, when no element contains it. *)
Lemma Split_Join (sep : byte) (xs : list (list byte)) :
  xs <> [] ->
  Forall (fun x => forallb (fun c => negb (byte_eqb c sep)) x = true) xs ->
  strings.Split (strings.Join xs [sep]) sep = xs.
Proof.
  intros Hne Hxs. induction Hxs as [|x xs Hx Hxs IH]; [contradiction|].
  destruct xs as [|y xs].
  - cbn [strings.Join]. by apply Split_no_sep.
  - change (strings.Join (x :: y :: xs) [sep])
      with (x ++ sep :: strings.Join (y :: xs) [sep]).
    rewrite Split_segment by assumption. f_equal. by apply IH.
Qed.

End mibs_dir.

(** X11.  [FromList] is injective: two lists of [int]s for which it
    returns the same string are the same list. *)
Theorem FromList_injective (a : Arch) (l1 l2 : list Z) (s : list byte) :
  Forall (fun x => min_int a <= x <= max_int a) l1 ->
  Forall (fun x => min_int a <= x <= max_int a) l2 ->
  oid.FromList a l1 = Return s -> oid.FromList a l2 = Return s ->
  l1 = l2.
Proof.
  assert (forall l s, Forall (fun x => min_int a <= x <= max_int a) l ->
            oid.FromList a l = Return s ->
            (l = [] /\ s = []) \/ (l <> [] /\ s <> [] /\ oid.ToList a s = l))
    as Hcases.
  { intros l s' Hl H.
    destruct (FromList_returns_grow a l s' H) as [->|[Hne Hg]].
    - left. split; [reflexivity|]. cbn in H. by injection H.
    - right. split; [assumption|].
      destruct (ToList_FromList a l Hne Hl Hg) as (s'' & Hs & Hback).
      rewrite Hs in H. injection H as ->. split; [|assumption].
      intros ->. destruct l as [|o l]; [contradiction|].
      pose proof (FromList_Join a (o :: l) [] Hs) as HJ.
      cbn [map] in HJ. rewrite Join_cons in HJ.
      apply Forall_cons in Hl as [Ho _].
      destruct (Z.ltb_spec o 0) as [Hneg|Hpos].
      + unfold strconv.Itoa in HJ.
        destruct (Z.ltb_spec o 0); [|lia]. discriminate.
      + destruct (format_decimal o) as (c & rest & Hf & _).
        { pose proof (int_below_pow a o Ho). lia. }
        unfold strconv.Itoa in HJ.
        destruct (Z.ltb_spec o 0); [lia|]. rewrite Hf in HJ. discriminate. }
  intros Hl1 Hl2 H1 H2.
  destruct (Hcases l1 s Hl1 H1) as [[-> Hs1]|(Hn1 & Hs1 & Hb1)];
    destruct (Hcases l2 s Hl2 H2) as [[-> Hs2]|(Hn2 & Hs2 & Hb2)];
    try reflexivity; try contradiction.
  by rewrite <- Hb1, <- Hb2.
Qed.

(** The theorem at [1.3.6.1]. *)
Lemma FromList_injective_witness :
  [1; 3; 6; 1] = [1; 3; 6; 1].
Proof.
  apply (FromList_injective Arch64 [1; 3; 6; 1] [1; 3; 6; 1] (str "1.3.6.1")).
  - repeat constructor; vm_compute; discriminate.
  - repeat constructor; vm_compute; discriminate.
  - vm_compute. reflexivity.
  - vm_compute. reflexivity.
Defined.

(** X12.  The implementations that the benchmarks keep for comparison
    compute what the ones in package [oid] compute: [oidToListOriginal]
    is [ToList], [splitOidOriginal] is [Split], and [listToOidOriginal]
    returns the decimal components joined by dots, the string that
    [FromList] returns whenever it returns. *)
Theorem originals_agree (a : Arch) :
  (forall s : list byte,
      collector_test.oidToListOriginal a s = oid.ToList a s)
  /\ (forall (l : list Z) (s : list byte),
        oid.FromList a l = Return s ->
        collector_test.listToOidOriginal l = s)
  /\ (forall (l : list Z),
        collector_test.listToOidOriginal l
        = strings.Join (map strconv.Itoa l) (str "."))
  /\ (forall (o : list Z) (n : Z),
        collector_test.splitOidOriginal o n = oid.Split o n).
Proof.
  assert (forall l, collector_test.listToOidOriginal l
                    = strings.Join (map strconv.Itoa l) (str ".")) as HJ.
  { intros l. unfold collector_test.listToOidOriginal.
    by rewrite append_fold. }
  split; [reflexivity|]. split; [|split; [exact HJ|]].
  - intros l s H. rewrite HJ. symmetry. by apply (FromList_Join a).
  - intros o n. reflexivity.
Qed.

(** The theorem at [1.3.6.1.2.1]. *)
Lemma originals_agree_witness :
  collector_test.listToOidOriginal [1; 3; 6; 1; 2; 1] = str "1.3.6.1.2.1".
Proof.
  apply (proj1 (proj2 (originals_agree Arch64)) [1; 3; 6; 1; 2; 1]).
  vm_compute. reflexivity.
Defined.

(** X13.  [ToList] returns one component more than the string has dots,
    the capacity that it reserves for the result; in particular the
    result is never empty. *)
Theorem ToList_length (a : Arch) (s : list byte) :
  len (oid.ToList a s) = strings.Count_dot s + 1.
Proof.
  rewrite ToList_map. unfold len at 1. rewrite length_map.
  apply length_SplitSeq.
Qed.




(** * The MIB directories *)

(** X16.  [getMibsDir] returns the default directory for the single empty
    path, and otherwise the paths joined by colons: when no path
    contains a colon, [strings.Split(mibsDir, ":")] in [initMIB] gives
    the paths back.  For no path at all it gives one empty directory. *)
Theorem getMibsDir_round_trip (paths : list (list byte)) :
  exists dir : list byte,
    generator.getMibsDir paths = Return dir
    /\ (paths = [[]] -> dir = str "/usr/share/snmp/mibs")
    /\ (paths = [] -> strings.Split dir ":" = [[]])
    /\ (paths <> [] -> paths <> [[]] ->
        Forall (fun p => forallb (fun c => negb (byte_eqb c ":")) p = true) paths ->
        strings.Split dir ":" = paths).
Proof.
  unfold generator.getMibsDir.
  destruct paths as [|p paths].
  - exists []. cbn. repeat split; try reflexivity; try discriminate.
    intros H. contradiction.
  - destruct paths as [|p' paths].
    + destruct p as [|c p].
      * eexists. split; [reflexivity|]. split; [reflexivity|].
        split; [discriminate|]. intros _ H. contradiction.
      * exists (c :: p). split.
        { reflexivity. }
        split; [discriminate|]. split; [discriminate|].
        intros _ _ Hp. apply (Split_Join ":" [c :: p]); [discriminate|assumption].
    + exists (strings.Join (p :: p' :: paths) (str ":")). split.
      { unfold and_then.
        assert ((len (p :: p' :: paths) =? 1) = false) as ->.
        { rewrite !len_cons. pose proof (len_nonneg paths). lia. }
        reflexivity. }
      split; [discriminate|]. split; [discriminate|].
      intros _ _ Hp. apply (Split_Join ":"); [discriminate|assumption].
Qed.

(** The theorem at two directories. *)
Lemma getMibsDir_round_trip_witness :
  exists dir : list byte,
    generator.getMibsDir [str "mibs"; str "/usr/share/snmp/mibs"] = Return dir
    /\ strings.Split dir ":" = [str "mibs"; str "/usr/share/snmp/mibs"].
Proof.
  destruct (getMibsDir_round_trip [str "mibs"; str "/usr/share/snmp/mibs"])
    as (dir & Hd & _ & _ & Hs).
  exists dir. split; [exact Hd|]. apply Hs.
  - discriminate.
  - discriminate.
  - repeat constructor.
Defined.

(** * The width of [int] *)

Section int_width.
Variables hint data : list byte.

Lemma take_exact_grows (fuel : nat) :
  forall t p : Z, 0 <= t -> t <= fst (take_exact hint fuel t p).
Proof.
  induction fuel as [|fuel IH]; intros t p Ht; cbn [take_exact fst]; [lia|].
  destruct (hint !! Z.to_nat p) as [b|]; cbn [fst]; [|lia].
  destruct ((48 <=? u8 b) && (u8 b <=? 57)) eqn:Hb; cbn [fst]; [|lia].
  apply andb_true_iff in Hb as [Hlo _]. apply Z.leb_le in Hlo.
  specialize (IH (t * 10 + (u8 b - 48)) (p + 1) ltac:(lia)). lia.
Qed.

(** While the number stays within [int], the formatter reads it exactly. *)
Lemma take_pure_exact (a : Arch) (fuel : nat) :
  forall t p : Z,
    0 <= t -> fst (take_exact hint fuel t p) <= max_int a ->
    take_pure a hint fuel t p = take_exact hint fuel t p.
Proof.
  induction fuel as [|fuel IH]; intros t p Ht Hmax;
    cbn [take_pure take_exact] in *; [reflexivity|].
  destruct (hint !! Z.to_nat p) as [b|]; [|reflexivity].
  destruct ((48 <=? u8 b) && (u8 b <=? 57)) eqn:Hb; [|reflexivity].
  apply andb_true_iff in Hb as [Hlo _]. apply Z.leb_le in Hlo.
  pose proof (take_exact_grows fuel (t * 10 + (u8 b - 48)) (p + 1) ltac:(lia)).
  pose proof (min_int_le a).
  unfold int_add, int_mul.
  rewrite (wrap_int_small a (t * 10)) by lia.
  rewrite wrap_int_small by lia.
  apply IH; lia.
Qed.

Hypothesis Hsmall : small_lengths hint = true.

Lemma small_lengths_at (p : Z) :
  0 <= p -> fst (take_exact hint (length hint) 0 p) <= 2 ^ 31 - 1.
Proof.
  intros Hp. destruct (Z.lt_ge_cases p (len hint)) as [Hlt|Hge].
  - unfold small_lengths in Hsmall. rewrite forallb_forall in Hsmall.
    specialize (Hsmall (Z.to_nat p)).
    rewrite Z2Nat.id in Hsmall by lia. apply Z.leb_le, Hsmall.
    apply in_seq. unfold len in Hlt. lia.
  - destruct (length hint) as [|n] eqn:E; cbn [take_exact fst]; [lia|].
    rewrite lookup_ge_None_2 by (unfold len in Hge; lia). cbn. lia.
Qed.

Lemma take_pure_width (a : Arch) (p : Z) :
  0 <= p ->
  take_pure a hint (length hint) 0 p = take_exact hint (length hint) 0 p.
Proof.
  intros Hp. apply take_pure_exact; [lia|].
  pose proof (small_lengths_at p Hp). pose proof (max_int_ge a). lia.
Qed.

Lemma parse_pure_width (p : Z) :
  0 <= p -> parse_pure Arch32 hint p = parse_pure Arch64 hint p.
Proof.
  intros Hp. unfold parse_pure.
  rewrite !take_pure_width by (destruct (star_at hint p); lia).
  reflexivity.
Qed.

Hypothesis Hlen : len data <= 2 ^ 31 - 1.

Lemma next_end_width (take d : Z) :
  0 <= d <= len data -> 0 <= take <= 2 ^ 31 - 1 ->
  next_end Arch32 data take d = next_end Arch64 data take d.
Proof.
  intros Hd Ht.
  rewrite !next_end_min; try reflexivity; try assumption;
    change (max_int Arch32) with (2 ^ 31 - 1);
    change (max_int Arch64) with (2 ^ 63 - 1); lia.
Qed.

Lemma repeat_pure_width (sp : spec) (rc : Z) (n : nat) :
  0 <= take_ sp <= 2 ^ 31 - 1 ->
  forall r d : Z,
    0 <= d <= len data ->
    repeat_pure Arch32 data n sp rc r d = repeat_pure Arch64 data n sp rc r d.
Proof.
  intros Ht. induction n as [|n IH]; intros r d Hd; cbn [repeat_pure];
    [reflexivity|].
  destruct ((r <? rc) && (d <? len data)); [|reflexivity].
  rewrite <- (next_end_width (take_ sp) d Hd Ht).
  pose proof (next_end_range Arch32 data (take_ sp) d Hd).
  rewrite IH by lia. reflexivity.
Qed.

Lemma apply_pure_width (sp : spec) (d : Z) :
  0 <= take_ sp <= 2 ^ 31 - 1 -> 0 <= d <= len data ->
  apply_pure Arch32 data sp d = apply_pure Arch64 data sp d.
Proof.
  intros Ht Hd. unfold apply_pure, group_start.
  destruct (starPrefix sp && (d <? len data)) eqn:E.
  - apply andb_true_iff in E as [_ E]. apply Z.ltb_lt in E.
    rewrite repeat_pure_width by (assumption || lia). reflexivity.
  - rewrite repeat_pure_width by (assumption || lia). reflexivity.
Qed.

Lemma iter_pure_width (st : locals) :
  0 <= hintPos st -> 0 <= lastSpecStart st -> 0 <= dataPos st <= len data ->
  iter_pure Arch32 hint data st = iter_pure Arch64 hint data st.
Proof.
  intros Hh Hl Hd. unfold iter_pure.
  destruct ((len hint <=? hintPos st) && negb (lastSpecConsumesByte st));
    [reflexivity|].
  set (start := if len hint <=? hintPos st then lastSpecStart st else hintPos st).
  assert (0 <= start) as Hs by (subst start; destruct (_ <=? _); lia).
  rewrite <- (parse_pure_width start Hs).
  destruct (parse_pure Arch32 hint start) as [[sp p']|] eqn:Hp; [|reflexivity].
  pose proof (parse_pure_parsed Arch32 hint start sp p' Hs Hp)
    as (_ & _ & _ & Htake & _).
  change (max_int Arch32) with (2 ^ 31 - 1) in Htake.
  rewrite apply_pure_width by assumption. reflexivity.
Qed.

Lemma loop_width (fuel : nat) :
  forall st : locals,
    loop_inv Arch32 hint data st ->
    collector.loop Arch32 hint data fuel st
    = collector.loop Arch64 hint data fuel st.
Proof.
  induction fuel as [|fuel IH]; intros st Hinv; cbn [collector.loop];
    [reflexivity|].
  destruct (Z.ltb_spec (dataPos st) (len data)) as [Hlt|]; [|reflexivity].
  pose proof Hinv as (Hh & Hd & Hl & _).
  rewrite !iteration_pure by lia.
  rewrite <- iter_pure_width by lia.
  destruct (iter_pure Arch32 hint data st) as [st'|] eqn:Hit; [|reflexivity].
  cbn [mbind outcome_bind].
  destruct (iter_pure_inv Arch32 hint data st st' Hinv Hlt Hit) as (Hinv' & _).
  by apply IH.
Qed.

End int_width.

(** X19.  The width of [int] does not matter for hints with small octet
    lengths: when every run of digits in the hint is a number below
    [2^31] and the data has fewer than [2^31] bytes, the formatter
    returns the same pair on a build with a 32-bit [int] as on one with a
    64-bit [int] (the single-pass formatter when [len(data) * 3] is below
    [2^31] too). *)
Theorem int_width_irrelevant (hint data : list byte) :
  small_lengths hint = true -> len data <= 2 ^ 31 - 1 ->
  collector2.applyDisplayHint Arch32 hint data
  = collector2.applyDisplayHint Arch64 hint data
  /\ (3 * len data <= 2 ^ 31 - 1 ->
      collector.applyDisplayHint Arch32 hint data
      = collector.applyDisplayHint Arch64 hint data).
Proof.
  intros Hsmall Hlen.
  pose proof (loop_width hint data Hsmall Hlen (length hint + length data)
                (Locals 0 0 0 false []) (loop_inv_start Arch32 hint data []))
    as Hloop.
  split.
  - unfold collector2.applyDisplayHint. rewrite !applyDisplayHint2_loop.
    by rewrite Hloop.
  - intros H3. pose proof (len_nonneg data).
    unfold collector.applyDisplayHint.
    rewrite !applyDisplayHint_loop; [by rewrite Hloop| |];
      unfold int_mul; rewrite wrap_int_small;
      change (max_int Arch32) with (2 ^ 31 - 1);
      change (min_int Arch32) with (- 2 ^ 31);
      change (max_int Arch64) with (2 ^ 63 - 1);
      change (min_int Arch64) with (- 2 ^ 63); lia.
Qed.

(** The theorem at the hint of DateAndTime. *)
Lemma int_width_irrelevant_witness :
  collector2.applyDisplayHint Arch32 (str "2d-1d-1d,1d:1d:1d.1d")
    (bytes [7; 234; 10; 31; 9; 30; 0; 5])
  = collector2.applyDisplayHint Arch64 (str "2d-1d-1d,1d:1d:1d.1d")
      (bytes [7; 234; 10; 31; 9; 30; 0; 5]).
Proof.
  destruct (int_width_irrelevant (str "2d-1d-1d,1d:1d:1d.1d")
              (bytes [7; 234; 10; 31; 9; 30; 0; 5])) as [H2 _].
  - vm_compute. reflexivity.
  - vm_compute. discriminate.
  - exact H2.
Defined.

(** * The estimate and the output *)

Section estimate_and_output.

(** One byte per piece and a separator between the pieces. *)
Lemma len_joined_bytes (c : byte) (data : list byte) :
  data <> [] ->
  len (join_sep [c] (map (rendered "a") (pieces 1 data))) = 2 * len data - 1.
Proof.
  induction data as [|b data IH]; [contradiction|]. intros _.
  rewrite pieces_cons by (lia || discriminate).
  change (take 1 (b :: data)) with [b]. change (drop 1 (b :: data)) with data.
  cbn [map join_sep]. change (rendered "a" [b]) with [b].
  destruct data as [|b' data].
  - reflexivity.
  - specialize (IH ltac:(discriminate)).
    rewrite pieces_cons in * by (lia || discriminate).
    cbn [map] in *. rewrite !len_app, IH.
    change (len [b]) with 1. change (len [c]) with 1.
    rewrite !len_cons. lia.
Qed.

End estimate_and_output.

(** X20.  The estimate is no bound on the output.  With the hint
    ["1a."] every data of [n >= 3] bytes is returned as [2n - 1] bytes,
    more than the [n + n/8 + 1] that [estimateOutputSize] returns for
    it; the formatter returns the text all the same. *)
Theorem estimate_exceeded (a : Arch) (data : list byte) :
  3 <= len data -> 4 * len data + 1 <= max_int a ->
  exists (s : list byte) (n : Z),
    collector2.applyDisplayHint a (str "1a.") data = Return (s, true)
    /\ collector2.estimateOutputSize a (str "1a.") (len data) = Return n
    /\ len s = 2 * len data - 1
    /\ n = len data + len data / 8 + 1
    /\ n < len s.
Proof.
  intros H3 Hmax.
  assert (data <> []) as Hne by (intros ->; change (len []) with 0 in H3; lia).
  assert (parse_pure a (str "1a.") 0
          = Some (Spec false 1 "a" true "." false x00, len (str "1a."))) as Hp
    by (destruct a; vm_compute; reflexivity).
  destruct (single_spec_result a (str "1a.") data _ Hp eq_refl ltac:(cbn; lia)
              Hne ltac:(lia)) as [H2 _].
  exists (repeated_text (Spec false 1 "a" true "." false x00) data),
         (len data + len data / 8 + 1).
  pose proof (len_joined_bytes "." data Hne) as Hlen.
  split; [exact H2|]. split; [|split; [exact Hlen|split; [reflexivity|]]].
  - change (collector2.estimateOutputSize a (str "1a.") (len data))
      with (Return (R:=Z) (A:=Empty_set)
              (int_add a (int_add a (len data) (int_quot a (len data) 8)) 1)).
    f_equal. unfold int_add, int_quot.
    pose proof (min_int_le a).
    rewrite Z.quot_div_nonneg by lia.
    pose proof (Z.div_mod (len data) 8 ltac:(lia)).
    pose proof (Z.mod_pos_bound (len data) 8 ltac:(lia)).
    rewrite (wrap_int_small a (len data / 8)) by lia.
    rewrite (wrap_int_small a (len data + len data / 8)) by lia.
    rewrite wrap_int_small by lia. reflexivity.
  - unfold repeated_text. cbn [sep_text hasSep sep fmtChar take_].
    change (Z.to_nat 1) with 1%nat. rewrite Hlen.
    pose proof (Z.div_mod (len data) 8 ltac:(lia)).
    pose proof (Z.mod_pos_bound (len data) 8 ltac:(lia)). lia.
Qed.

(** The theorem at ["abc"]. *)
Lemma estimate_exceeded_witness :
  exists (s : list byte) (n : Z),
    collector2.applyDisplayHint Arch64 (str "1a.") (str "abc") = Return (s, true)
    /\ collector2.estimateOutputSize Arch64 (str "1a.") 3 = Return n
    /\ n < len s.
Proof.
  destruct (estimate_exceeded Arch64 (str "abc")) as (s & n & H1 & H2 & _ & _ & H5).
  - vm_compute. discriminate.
  - vm_compute. discriminate.
  - exists s, n. split; [exact H1|]. split; [exact H2|exact H5].
Defined.

(** * Node.Copy *)

Section deep_copy.
Import generator.

Section trees.

Lemma tree_ind' (P : tree -> Prop) :
  (forall f cs en ix, Forall P cs -> P (Tree f cs en ix)) ->
  forall t, P t.
Proof.
  intros H. fix IH 1. intros [f cs en ix]. apply H.
  induction cs as [|c cs IHcs]; constructor; [apply IH|exact IHcs].
Qed.

Lemma height_child (f : Node) (cs : list tree) (en : gmap Z (list byte))
    (ix : list (list byte)) :
  Forall (fun c => (S (height c) <= height (Tree f cs en ix))%nat) cs.
Proof.
  cbn [height]. induction cs as [|c cs IH]; constructor; cbn [foldr].
  - lia.
  - eapply Forall_impl; [exact IH|]. cbn. intros; lia.
Qed.

(** A representation carries over to a store that holds the same objects
    from [k] on. *)
Lemma repr_ext (k : nat) (h h' : store) (t : tree) :
  forall p : loc,
    repr k h t p ->
    (forall l o, (k <= l)%nat -> h !! l = Some o -> h' !! l = Some o) ->
    repr k h' t p.
Proof.
  induction t as [f cs en ix IH] using tree_ind'. intros p Hr Hsame.
  inversion Hr as [nd qs cs' en' ix' p' Hp Hnd Hptr Hcs Hen Hix]; subst.
  apply (repr_node _ _ nd qs).
  - assumption.
  - by apply Hsame.
  - destruct (Children nd) as [s|]; [|exact Hptr].
    destruct Hptr as (Hk & a & Ha & Hlen & Hps).
    split; [assumption|]. exists a. split; [by apply Hsame|]. by split.
  - clear Hptr Hr. induction Hcs as [|c q cs qs Hc Hcs IHcs]; constructor.
    + apply Forall_cons in IH as [IHc _]. by apply IHc.
    + apply Forall_cons in IH as [_ IH]. by apply IHcs.
  - destruct (EnumValues nd) as [m|]; [|exact Hen].
    destruct Hen as [Hk Hm]. split; [assumption|by apply Hsame].
  - destruct (Indexes nd) as [s|]; [|exact Hix].
    destruct Hix as (Hk & a & Ha & Hlen & Hxs).
    split; [assumption|]. exists a. split; [by apply Hsame|]. by split.
Qed.

Lemma repr_mono (k k' : nat) (h : store) (t : tree) :
  (k' <= k)%nat -> forall p : loc, repr k h t p -> repr k' h t p.
Proof.
  intros Hk. induction t as [f cs en ix IH] using tree_ind'. intros p Hr.
  inversion Hr as [nd qs cs' en' ix' p' Hp Hnd Hptr Hcs Hen Hix]; subst.
  apply (repr_node _ _ nd qs).
  - lia.
  - assumption.
  - destruct (Children nd) as [s|]; [|exact Hptr].
    destruct Hptr as (Hk' & Hrest). split; [lia|exact Hrest].
  - clear Hptr Hr. induction Hcs as [|c q cs qs Hc Hcs IHcs]; constructor.
    + apply Forall_cons in IH as [IHc _]. by apply IHc.
    + apply Forall_cons in IH as [_ IH]. by apply IHcs.
  - destruct (EnumValues nd) as [m|]; [|exact Hen].
    destruct Hen as [Hk' Hm]. split; [lia|assumption].
  - destruct (Indexes nd) as [s|]; [|exact Hix].
    destruct Hix as (Hk' & Hrest). split; [lia|exact Hrest].
Qed.

End trees.

Section copy_proofs.
Variable growslice : nat -> nat.
Variable range_order : gmap Z (list byte) -> list (Z * list byte).
Hypothesis range_order_perm : forall m, range_order m ≡ₚ map_to_list m.

Lemma lookup_slice {A : Type} (a : list A) (off n i : nat) :
  (i < n)%nat -> take n (drop off a) !! i = a !! (off + i)%nat.
Proof. intros Hi. rewrite lookup_take_lt by lia. apply lookup_drop. Qed.

Lemma length_slice {A : Type} (a : list A) (off n : nat) :
  (off + n <= length a)%nat -> length (take n (drop off a)) = n.
Proof. intros H. rewrite length_take, length_drop. lia. Qed.

Lemma pointers_in_ext (k : nat) (h h' : store) (s : option slice_header)
    (ps : list (option loc)) :
  pointers_in k h s ps ->
  (forall l o, (k <= l)%nat -> h !! l = Some o -> h' !! l = Some o) ->
  pointers_in k h' s ps.
Proof.
  intros Hp Hsame. destruct s as [s|]; [|exact Hp].
  destruct Hp as (Hk & a & Ha & Hlen & Hps).
  split; [assumption|]. exists a. split; [by apply Hsame|]. by split.
Qed.

Lemma strings_in_ext (k : nat) (h h' : store) (s : option slice_header)
    (xs : list (list byte)) :
  strings_in k h s xs ->
  (forall l o, (k <= l)%nat -> h !! l = Some o -> h' !! l = Some o) ->
  strings_in k h' s xs.
Proof.
  intros Hp Hsame. destruct s as [s|]; [|exact Hp].
  destruct Hp as (Hk & a & Ha & Hlen & Hps).
  split; [assumption|]. exists a. split; [by apply Hsame|]. by split.
Qed.

Lemma map_in_ext (k : nat) (h h' : store) (m : option loc)
    (en : gmap Z (list byte)) :
  map_in k h m en ->
  (forall l o, (k <= l)%nat -> h !! l = Some o -> h' !! l = Some o) ->
  map_in k h' m en.
Proof.
  intros Hp Hsame. destruct m as [l|]; [|exact Hp].
  destruct Hp as [Hk Hl]. split; [assumption|by apply Hsame].
Qed.

Lemma pointers_len (k : nat) (h : store) (s : option slice_header)
    (ps : list (option loc)) :
  pointers_in k h s ps -> slice_len s = length ps.
Proof.
  destruct s as [s|]; cbn [pointers_in slice_len].
  - intros (_ & a & _ & Hlen & ->). by rewrite length_slice.
  - by intros ->.
Qed.

Lemma strings_len (k : nat) (h : store) (s : option slice_header)
    (xs : list (list byte)) :
  strings_in k h s xs -> slice_len s = length xs.
Proof.
  destruct s as [s|]; cbn [strings_in slice_len].
  - intros (_ & a & _ & Hlen & ->). by rewrite length_slice.
  - by intros ->.
Qed.

Lemma load_val {R : Type} (h : store) (p : loc) (nd : Node) :
  h !! p = Some (ONode nd) -> load (R:=R) h (Some p) = Val nd.
Proof. intros H. unfold load. by rewrite H. Qed.

Lemma pointer_at_val {R : Type} (k : nat) (h : store) (s : option slice_header)
    (qs : list loc) (i : nat) (q : loc) :
  pointers_in k h s (Some <$> qs) -> qs !! i = Some q ->
  pointer_at (R:=R) h s i = Val (Some q).
Proof.
  intros Hp Hq. pose proof (lookup_lt_Some _ _ _ Hq) as Hi.
  pose proof (pointers_len _ _ _ _ Hp) as Hlen.
  rewrite length_fmap in Hlen.
  destruct s as [s|]; cbn [slice_len] in Hlen; [|lia].
  destruct Hp as (_ & a & Ha & Hle & Hps).
  unfold pointer_at. destruct (Nat.ltb_spec i (slen s)); [|lia].
  rewrite Ha. rewrite <- (lookup_slice a (offset s) (slen s) i) by lia.
  rewrite <- Hps, list_lookup_fmap, Hq. reflexivity.
Qed.

Lemma strings_of_val {R : Type} (k : nat) (h : store) (s : option slice_header)
    (xs : list (list byte)) :
  strings_in k h s xs -> strings_of (R:=R) h s = Val xs.
Proof.
  destruct s as [s|]; cbn [strings_in strings_of].
  - intros (_ & a & Ha & _ & ->). by rewrite Ha.
  - by intros ->.
Qed.

Lemma append_pointer_val {R : Type} (h : store) (arr i c : nat)
    (a : list (option loc)) (p : option loc) :
  (i < c)%nat -> h !! arr = Some (OPointers a) ->
  append_pointer (R:=R) growslice h (Some (Slice arr 0 i c)) p
  = Val (Some (Slice arr 0 (S i) c), <[arr := OPointers (<[i := p]> a)]> h).
Proof.
  intros Hi Ha. unfold append_pointer.
  cbn [slice_len slice_cap slen scap array offset].
  destruct (Nat.ltb_spec i c); [|lia]. by rewrite Ha.
Qed.

(** The loop over the children, from the child numbered [i] on. *)
Lemma children_loop_spec {R : Type} (fuel : nat) (h0 : store) (k1 arr : nat)
    (src : option slice_header) (cs : list tree) (qs : list loc) :
  Forall (copy_ok growslice range_order fuel) cs ->
  pointers_in 0 h0 src (Some <$> qs) ->
  Forall2 (repr 0 h0) cs qs ->
  (length h0 <= arr)%nat -> (arr < k1)%nat ->
  forall (todo i : nat) (h : store) (done : list loc),
    (i + todo = length qs)%nat -> length done = i ->
    (k1 <= length h)%nat ->
    (forall l o, h0 !! l = Some o -> h !! l = Some o) ->
    h !! arr = Some (OPointers ((Some <$> done) ++ replicate todo None)) ->
    Forall2 (repr k1 h) (take i cs) done ->
    exists (h' : store) (done' : list loc),
      children_loop (R:=R) growslice (Copy growslice range_order fuel)
        src todo i h (Some (Slice arr 0 i (length qs)))
      = Val (Some (Slice arr 0 (length qs) (length qs)), h')
      /\ (length h <= length h')%nat
      /\ (forall l, (l < length h)%nat -> l <> arr -> h' !! l = h !! l)
      /\ h' !! arr = Some (OPointers (Some <$> done'))
      /\ Forall2 (repr k1 h') cs done'.
Proof.
  intros Hok Hsrc Hcs Harr Hk1.
  pose proof (Forall2_length _ _ _ Hcs) as Hlen.
  induction todo as [|todo IH]; intros i h done Hi Hdone Hk Hold Ha Hrep.
  - cbn [children_loop]. rewrite Nat.add_0_r in Hi. subst i.
    exists h, done.
    cbn [replicate] in Ha. rewrite app_nil_r in Ha.
    rewrite take_ge in Hrep by lia.
    split; [reflexivity|]. split; [lia|]. split; [done|]. by split.
  - assert (i < length qs)%nat as Hlt by lia.
    destruct (lookup_lt_is_Some_2 qs i Hlt) as [q Hq].
    destruct (lookup_lt_is_Some_2 cs i ltac:(lia)) as [c Hc].
    pose proof (Forall2_lookup_lr _ _ _ _ _ _ Hcs Hc Hq) as Hcq.
    cbn [children_loop].
    rewrite (pointer_at_val 0 h src qs i q);
      [|by apply (pointers_in_ext 0 h0); [|intros l o _; apply Hold]|assumption].
    cbn [mbind outcome_bind].
    pose proof (Forall_lookup_1 _ _ _ _ Hok Hc) as Hcopy.
    destruct (Hcopy h q) as (p' & h2 & Hrun & Hlen2 & Hsame2 & Hrep2 & _).
    { apply (repr_ext 0 h0); [assumption|]. intros l o _. apply Hold. }
    rewrite Hrun. cbn [call mbind outcome_bind].
    assert (arr < length h)%nat as Harrh by lia.
    rewrite (append_pointer_val h2 arr i (length qs)
               ((Some <$> done) ++ replicate (S todo) None))
      by (assumption || (rewrite (Hsame2 arr Harrh); exact Ha)).
    cbn [mbind outcome_bind].
    assert (<[i := Some p']>
              ((Some <$> done) ++ replicate (S todo) None)
            = (Some <$> (done ++ [p'])) ++ replicate todo None) as ->.
    { rewrite insert_app_r_alt by (rewrite length_fmap; lia).
      rewrite length_fmap, Hdone. rewrite Nat.sub_diag.
      cbn [replicate]. rewrite fmap_app, <- app_assoc. reflexivity. }
    set (h3 := <[arr := _]> h2).
    assert (length h3 = length h2) as Hlen3 by (subst h3; apply length_insert).
    assert (forall l, l <> arr -> h3 !! l = h2 !! l) as Hne
      by (intros l Hl; subst h3; by apply list_lookup_insert_ne).
    destruct (IH (S i) h3 (done ++ [p'])) as (h' & done' & Hloop & Hl' & Hs' & Ha' & Hr').
    + lia.
    + rewrite length_app. cbn [length]. lia.
    + lia.
    + intros l o Hl. pose proof (lookup_lt_Some _ _ _ Hl).
      rewrite Hne by lia. rewrite Hsame2.
      * by apply Hold.
      * pose proof (lookup_lt_Some _ _ _ (Hold _ _ Hl)). lia.
    + subst h3. apply list_lookup_insert_eq. lia.
    + rewrite (take_S_r cs i c Hc). apply Forall2_app.
      * eapply Forall2_impl; [exact Hrep|]. intros t q' Ht.
        apply (repr_ext k1 h); [assumption|]. intros l o Hl Hlo.
        pose proof (lookup_lt_Some _ _ _ Hlo).
        rewrite Hne by lia. rewrite Hsame2 by lia. assumption.
      * constructor; [|constructor].
        apply (repr_ext k1 h2).
        -- apply (repr_mono (length h)); [lia|assumption].
        -- intros l o Hl Hlo. rewrite Hne by lia. assumption.
    + exists h', done'. split; [exact Hloop|]. split; [lia|].
      split; [|by split].
      intros l Hl Hla. rewrite Hs' by lia. rewrite Hne by assumption.
      by apply Hsame2.
Qed.

(** The loop over the entries of a map. *)
Lemma enums_loop_spec {R : Type} (m : loc) (entries : list (Z * list byte)) :
  forall (h : store) (acc : gmap Z (list byte)),
    h !! m = Some (OMap acc) ->
    exists h' : store,
      enums_loop (R:=R) entries h (Some m) = Val h'
      /\ length h' = length h
      /\ (forall l, l <> m -> h' !! l = h !! l)
      /\ h' !! m
         = Some (OMap (foldl (fun acc kv => <[kv.1 := kv.2]> acc) acc entries)).
Proof.
  induction entries as [|[k v] entries IH]; intros h acc Hm; cbn [enums_loop foldl].
  - exists h. by repeat split.
  - unfold map_store. rewrite Hm. cbn [mbind outcome_bind].
    pose proof (lookup_lt_Some _ _ _ Hm) as Hlt.
    destruct (IH (<[m := OMap (<[k := v]> acc)]> h) (<[k := v]> acc))
      as (h' & Hrun & Hlen & Hne & Hm').
    { by apply list_lookup_insert_eq. }
    exists h'. split; [exact Hrun|]. split; [by rewrite Hlen, length_insert|].
    split; [|exact Hm'].
    intros l Hl. rewrite Hne by assumption. by apply list_lookup_insert_ne.
Qed.

Lemma foldl_insert_reverse (l : list (Z * list byte)) :
  forall acc : gmap Z (list byte),
    foldl (fun acc kv => <[kv.1 := kv.2]> acc) acc l
    = foldr (fun kv acc => <[kv.1 := kv.2]> acc) acc (reverse l).
Proof.
  induction l as [|x l IH]; intros acc; [reflexivity|].
  cbn [foldl]. rewrite IH, reverse_cons, foldr_app. reflexivity.
Qed.

(** Whatever the order of the visit, the entries are those of the map. *)
Lemma range_order_entries (en : gmap Z (list byte)) :
  foldl (fun acc kv => <[kv.1 := kv.2]> acc) ∅ (range_order en) = en.
Proof.
  rewrite foldl_insert_reverse.
  rewrite <- (list_to_map_to_list en) at 2.
  assert (reverse (range_order en) ≡ₚ map_to_list en) as Hperm
    by (rewrite reverse_Permutation; apply range_order_perm).
  apply (list_to_map_proper (M:=gmap Z)); [|exact Hperm].
  rewrite Hperm. apply NoDup_fst_map_to_list.
Qed.

End copy_proofs.

Section copy_main.
Variable growslice : nat -> nat.
Variable range_order : gmap Z (list byte) -> list (Z * list byte).
Hypothesis range_order_perm : forall m, range_order m ≡ₚ map_to_list m.

Lemma copy_strings_val {R : Type} (k : nat) (h : store) (arr n : nat)
    (src : option slice_header) (xs : list (list byte)) :
  strings_in k h src xs -> length xs = n ->
  h !! arr = Some (OStrings (replicate n [])) ->
  copy_strings (R:=R) h (Some (Slice arr 0 n n)) src
  = Val (<[arr := OStrings xs]> h).
Proof.
  intros Hsrc Hn Harr. unfold copy_strings.
  rewrite (strings_of_val k h src xs Hsrc). cbn [mbind outcome_bind].
  cbn [array offset slice_len slen]. rewrite Harr.
  rewrite (strings_len k h src xs Hsrc), Hn, Nat.min_id.
  rewrite take_0, (take_ge xs) by lia.
  rewrite drop_ge by (rewrite length_replicate; lia).
  cbn [app]. by rewrite app_nil_r.
Qed.

Lemma map_range_val {R : Type} (k : nat) (h : store) (m : option loc)
    (en : gmap Z (list byte)) :
  map_in k h m en -> map_range (R:=R) range_order h m = Val (range_order en).
Proof.
  destruct m as [l|]; cbn [map_in map_range].
  - intros [_ ->]. reflexivity.
  - intros ->. pose proof (range_order_perm ∅) as Hp.
    rewrite map_to_list_empty in Hp. apply Permutation_nil_r in Hp.
    by rewrite Hp.
Qed.

Lemma Copy_spec (t : tree) :
  forall fuel : nat,
    (height t <= fuel)%nat -> copy_ok growslice range_order fuel t.
Proof.
  induction t as [f cs en ix IH] using tree_ind'. intros fuel Hfuel h p Hr.
  destruct fuel as [|fuel]; [cbn in Hfuel; lia|].
  assert (Forall (copy_ok growslice range_order fuel) cs) as Hok.
  { pose proof (height_child f cs en ix) as Hh.
    rewrite Forall_forall in IH, Hh. apply Forall_forall. intros c Hc.
    apply IH; [assumption|]. specialize (Hh c Hc). lia. }
  inversion Hr as [nd qs cs' en' ix' p0 Hp Hnd Hptr Hcs Hen Hix]; subst.
  pose proof (lookup_lt_Some _ _ _ Hnd) as Hplt.
  pose proof (pointers_len _ _ _ _ Hptr) as Hclen.
  rewrite length_fmap in Hclen.
  pose proof (strings_len _ _ _ _ Hix) as Hilen.
  pose proof (Forall2_length _ _ _ Hcs) as Hcslen.
  cbn [Copy].
  rewrite (load_val h p nd Hnd). cbn [mbind outcome_bind].
  unfold new. rewrite Hclen.
  (* the three objects that [make] allocates *)
  set (h1 := h ++ [OPointers (replicate (length qs) None)]).
  rewrite (load_val h1 p nd) by (subst h1; by apply lookup_app_l_Some).
  cbn [mbind outcome_bind].
  set (h2 := h1 ++ [OMap ∅]).
  assert (length h1 = S (length h)) as Hl1
    by (subst h1; rewrite length_app; cbn [length]; lia).
  assert (length h2 = S (S (length h))) as Hl2
    by (subst h2; rewrite length_app; cbn [length]; lia).
  assert (forall l o, h !! l = Some o -> h2 !! l = Some o) as Hold2.
  { intros l o Hl. subst h2 h1. by do 2 apply lookup_app_l_Some. }
  rewrite (load_val h2 p nd (Hold2 _ _ Hnd)). cbn [mbind outcome_bind].
  rewrite Hilen.
  set (h3 := h2 ++ [OStrings (replicate (length ix) [])]).
  assert (length h3 = S (S (S (length h)))) as Hl3
    by (subst h3; rewrite length_app; cbn [length]; lia).
  assert (forall l o, h !! l = Some o -> h3 !! l = Some o) as Hold3.
  { intros l o Hl. subst h3. by apply lookup_app_l_Some, Hold2. }
  assert (h3 !! length h = Some (OPointers (replicate (length qs) None)))
    as Harr3.
  { subst h3 h2 h1. do 2 apply lookup_app_l_Some.
    by apply list_lookup_middle. }
  assert (h3 !! S (length h) = Some (OMap ∅)) as Hm3.
  { subst h3 h2. apply lookup_app_l_Some.
    apply list_lookup_middle. by rewrite Hl1. }
  assert (h3 !! S (S (length h))
          = Some (OStrings (replicate (length ix) []))) as Hix3.
  { subst h3. apply list_lookup_middle. by rewrite Hl2. }
  rewrite (load_val h3 p nd (Hold3 _ _ Hnd)). cbn [mbind outcome_bind].
  cbn [Indexes with_Indexes with_EnumValues with_Children Children EnumValues].
  rewrite Hl1, Hl2.
  rewrite (copy_strings_val 0 h3 (S (S (length h))) (length ix) (Indexes nd) ix);
    [|apply (strings_in_ext 0 h); [assumption|intros l o _; apply Hold3]
     |reflexivity|assumption].
  cbn [mbind outcome_bind].
  set (h4 := <[S (S (length h)) := OStrings ix]> h3).
  assert (length h4 = S (S (S (length h)))) as Hl4
    by (subst h4; rewrite length_insert; lia).
  assert (forall l, l <> S (S (length h)) -> h4 !! l = h3 !! l) as Hne4
    by (intros l Hl; subst h4; by apply list_lookup_insert_ne).
  assert (forall l o, h !! l = Some o -> h4 !! l = Some o) as Hold4.
  { intros l o Hl. pose proof (lookup_lt_Some _ _ _ Hl).
    rewrite Hne4 by lia. by apply Hold3. }
  rewrite (load_val h4 p nd (Hold4 _ _ Hnd)). cbn [mbind outcome_bind].
  rewrite Hclen.
  (* the children *)
  destruct (children_loop_spec growslice range_order
              (R:=option loc * store) fuel h (S (S (S (length h))))
              (length h) (Children nd) cs qs Hok Hptr Hcs ltac:(lia) ltac:(lia)
              (length qs) 0%nat h4 [])
    as (h5 & done & Hloop & Hl5 & Hsame5 & Harr5 & Hrep5).
  { lia. }
  { reflexivity. }
  { lia. }
  { exact Hold4. }
  { rewrite Hne4 by lia. exact Harr3. }
  { rewrite take_0. constructor. }
  rewrite Hloop. cbn [mbind outcome_bind].
  assert (forall l o, h !! l = Some o -> h5 !! l = Some o) as Hold5.
  { intros l o Hl. pose proof (lookup_lt_Some _ _ _ Hl).
    rewrite Hsame5 by lia. by apply Hold4. }
  rewrite (load_val h5 p nd (Hold5 _ _ Hnd)). cbn [mbind outcome_bind].
  (* the entries *)
  rewrite (map_range_val 0 h5 (EnumValues nd) en)
    by (apply (map_in_ext 0 h); [assumption|intros l o _; apply Hold5]).
  cbn [mbind outcome_bind].
  cbn [Indexes with_Indexes with_EnumValues with_Children Children EnumValues].
  destruct (enums_loop_spec (R:=option loc * store) (S (length h))
              (range_order en) h5 ∅)
    as (h6 & Henums & Hl6 & Hne6 & Hm6).
  { rewrite Hsame5 by lia. rewrite Hne4 by lia. exact Hm3. }
  rewrite Henums. cbn [mbind outcome_bind].
  rewrite (range_order_entries range_order range_order_perm) in Hm6.
  set (newNode := with_Children _ _).
  exists (length h6), (h6 ++ [ONode newNode]).
  split; [reflexivity|].
  split; [rewrite length_app; lia|].
  assert (forall l, (l < length h)%nat -> (h6 ++ [ONode newNode]) !! l = h !! l)
    as Hkeep.
  { intros l Hl. rewrite lookup_app_l by lia.
    rewrite Hne6 by lia. rewrite Hsame5 by lia. rewrite Hne4 by lia.
    subst h3 h2 h1. by rewrite !lookup_app_l by lia. }
  split; [exact Hkeep|].
  split.
  2:{ exists newNode. split; [by apply list_lookup_middle|].
      subst newNode. cbn. by repeat split. }
  replace (scalars nd) with (scalars newNode)
    by (subst newNode; by destruct nd).
  assert (forall l o, (S (S (S (length h))) <= l)%nat ->
            h5 !! l = Some o -> (h6 ++ [ONode newNode]) !! l = Some o)
    as Hnew.
  { intros l o Hl Hlo. apply lookup_app_l_Some. by rewrite Hne6 by lia. }
  apply (repr_node _ _ newNode done).
  - lia.
  - apply list_lookup_middle. reflexivity.
  - subst newNode.
    cbn [Indexes with_Indexes with_EnumValues with_Children Children EnumValues
         pointers_in array offset slen].
    split; [lia|]. exists (Some <$> done).
    pose proof (Forall2_length _ _ _ Hrep5) as Hdl.
    split; [|split].
    + apply lookup_app_l_Some. by rewrite Hne6 by lia.
    + rewrite length_fmap. lia.
    + rewrite drop_0, take_ge by (rewrite length_fmap; lia). reflexivity.
  - eapply Forall2_impl; [exact Hrep5|]. intros c q Hc.
    apply (repr_mono (S (S (S (length h))))); [lia|].
    by apply (repr_ext _ h5).
  - subst newNode.
    cbn [Indexes with_Indexes with_EnumValues with_Children Children EnumValues
         map_in].
    split; [lia|]. apply lookup_app_l_Some. exact Hm6.
  - subst newNode.
    cbn [Indexes with_Indexes with_EnumValues with_Children Children EnumValues
         strings_in array offset slen].
    split; [lia|]. exists ix. split; [|split].
    + apply lookup_app_l_Some. rewrite Hne6 by lia. rewrite Hsame5 by lia.
      subst h4. apply list_lookup_insert_eq. lia.
    + lia.
    + by rewrite drop_0, take_ge by lia.
Qed.

End copy_main.

(** The example store holds the example tree at address 4. *)
Lemma ifEntry_repr : repr 0 ifEntry_store ifEntry_tree 4.
Proof.
  apply (repr_node 0 ifEntry_store ifEntry_node [0%nat]).
  - lia.
  - reflexivity.
  - cbn. split; [lia|]. exists [Some 0%nat]. by repeat split.
  - constructor; [|constructor].
    apply (repr_node 0 ifEntry_store ifIndex_node []).
    + lia.
    + reflexivity.
    + reflexivity.
    + constructor.
    + reflexivity.
    + reflexivity.
  - cbn. split; [lia|reflexivity].
  - cbn. split; [lia|]. exists [str "ifIndex"]. by repeat split.
Qed.

(** X17.  [Copy] returns a deep copy.  In every store in which [n]
    stands for a tree (finite and without [nil] children), and with fuel
    for the height of the tree, [Copy] returns a new address that stands
    for the same tree: the same fields, copies of the children in the
    same order, the same enumeration values and the same indexes.  No
    object of the old store is written, so [n] stands for the tree as
    before, and every object of the copy is at an address that the old
    store does not have.  The [Children], [EnumValues] and [Indexes] of
    the copy are never [nil], also where those of [n] are.  This holds
    for every growth policy of [append] and every order in which [range]
    visits a map. *)
Theorem Copy_returns_deep_copy (growslice : nat -> nat)
    (range_order : gmap Z (list byte) -> list (Z * list byte))
    (t : tree) (h : store) (p : loc) (fuel : nat) :
  (forall m, range_order m ≡ₚ map_to_list m) ->
  (height t <= fuel)%nat ->
  repr 0 h t p ->
  exists (p' : loc) (h' : store),
    Copy growslice range_order fuel h (Some p) = Return (Some p', h')
    /\ (forall l, (l < length h)%nat -> h' !! l = h !! l)
    /\ repr 0 h' t p
    /\ repr (length h) h' t p'
    /\ exists nd' : Node,
         h' !! p' = Some (ONode nd')
         /\ is_Some (Children nd') /\ is_Some (EnumValues nd')
         /\ is_Some (Indexes nd').
Proof.
  intros Hperm Hfuel Hr.
  destruct (Copy_spec growslice range_order Hperm t fuel Hfuel h p Hr)
    as (p' & h' & Hrun & Hlen & Hkeep & Hcopy & Hnil).
  exists p', h'. split; [exact Hrun|]. split; [exact Hkeep|].
  split; [|by split].
  apply (repr_ext 0 h); [assumption|]. intros l o _ Hl.
  rewrite Hkeep; [assumption|]. by apply lookup_lt_Some in Hl.
Qed.

(** The theorem on the example store. *)
Lemma Copy_returns_deep_copy_witness :
  exists (p' : loc) (h' : store),
    Copy S map_to_list 2 ifEntry_store (Some 4%nat) = Return (Some p', h')
    /\ repr 0 h' ifEntry_tree 4
    /\ repr 5 h' ifEntry_tree p'.
Proof.
  destruct (Copy_returns_deep_copy S map_to_list ifEntry_tree ifEntry_store
              4%nat 2) as (p' & h' & Hrun & _ & Hold & Hnew & _).
  - reflexivity.
  - cbn. lia.
  - exact ifEntry_repr.
  - exists p', h'. split; [exact Hrun|]. split; [exact Hold|exact Hnew].
Defined.

(** X18.  The copy shares nothing with the original.  After [Copy], the
    returned address stands for the tree in every store that agrees with
    the new one on the addresses that the old store does not have,
    whatever it holds at the old addresses; and [n] stands for the tree
    in every store that agrees with the new one on the old addresses.
    So no later write to an object of one of the two trees is seen
    through the other. *)
Theorem Copy_shares_nothing (growslice : nat -> nat)
    (range_order : gmap Z (list byte) -> list (Z * list byte))
    (t : tree) (h : store) (p : loc) (fuel : nat) :
  (forall m, range_order m ≡ₚ map_to_list m) ->
  (height t <= fuel)%nat ->
  repr 0 h t p ->
  exists (p' : loc) (h' : store),
    Copy growslice range_order fuel h (Some p) = Return (Some p', h')
    /\ (length h <= p')%nat
    /\ (forall h2 : store,
          (forall l, (length h <= l)%nat -> h2 !! l = h' !! l) ->
          repr (length h) h2 t p')
    /\ (forall h2 : store,
          (forall l, (l < length h)%nat -> h2 !! l = h' !! l) ->
          repr 0 h2 t p).
Proof.
  intros Hperm Hfuel Hr.
  destruct (Copy_spec growslice range_order Hperm t fuel Hfuel h p Hr)
    as (p' & h' & Hrun & Hlen & Hkeep & Hcopy & _).
  exists p', h'. split; [exact Hrun|]. split; [|split].
  - by inversion Hcopy.
  - intros h2 Hsame. apply (repr_ext _ h'); [assumption|].
    intros l o Hl Hlo. by rewrite Hsame.
  - intros h2 Hsame. apply (repr_ext 0 h); [assumption|].
    intros l o _ Hlo. pose proof (lookup_lt_Some _ _ _ Hlo).
    rewrite Hsame, Hkeep by lia. assumption.
Qed.

(** The theorem on the example store, after the map and the indexes of
    the original have been overwritten. *)
Lemma Copy_shares_nothing_witness :
  exists (p' : loc) (h' : store),
    Copy S map_to_list 2 ifEntry_store (Some 4%nat) = Return (Some p', h')
    /\ repr 5 (<[2%nat := OMap ∅]> (<[3%nat := OStrings [[]]]> h'))
         ifEntry_tree p'.
Proof.
  destruct (Copy_shares_nothing S map_to_list ifEntry_tree ifEntry_store
              4%nat 2) as (p' & h' & Hrun & _ & Hnew & _).
  - reflexivity.
  - cbn. lia.
  - exact ifEntry_repr.
  - exists p', h'. split; [exact Hrun|]. apply Hnew.
    intros l Hl. cbn [length ifEntry_store] in Hl.
    by rewrite !list_lookup_insert_ne by lia.
Defined.

Section no_tree.
Variable growslice : nat -> nat.
Variable range_order : gmap Z (list byte) -> list (Z * list byte).

(** A node that is its own first child: the recursion does not end. *)
Lemma Copy_cycle (h : store) (p : loc) (nd : Node) (s : slice_header)
    (a : list (option loc)) (ix : list (list byte)) :
  h !! p = Some (ONode nd) ->
  Children nd = Some s -> (0 < slen s)%nat ->
  h !! array s = Some (OPointers a) -> a !! offset s = Some (Some p) ->
  strings_in 0 h (Indexes nd) ix ->
  forall (fuel : nat) (h' : store),
    (forall l o, h !! l = Some o -> h' !! l = Some o) ->
    Copy growslice range_order fuel h' (Some p) = OutOfFuel.
Proof.
  intros Hnd Hs Hlen Ha Hp Hix.
  induction fuel as [|fuel IH]; intros h' Hold; [reflexivity|].
  cbn [Copy].
  rewrite (load_val h' p nd (Hold _ _ Hnd)). cbn [mbind outcome_bind].
  unfold new.
  set (h1 := h' ++ [OPointers _]).
  rewrite (load_val h1 p nd)
    by (subst h1; by apply lookup_app_l_Some, Hold).
  cbn [mbind outcome_bind].
  set (h2 := h1 ++ [OMap ∅]).
  assert (forall l o, h !! l = Some o -> h2 !! l = Some o) as Hold2.
  { intros l o Hl. subst h2 h1. by do 2 apply lookup_app_l_Some; apply Hold. }
  rewrite (load_val h2 p nd (Hold2 _ _ Hnd)). cbn [mbind outcome_bind].
  pose proof (strings_len _ _ _ _ Hix) as Hilen. rewrite Hilen.
  set (h3 := h2 ++ [OStrings (replicate (length ix) [])]).
  assert (forall l o, h !! l = Some o -> h3 !! l = Some o) as Hold3.
  { intros l o Hl. subst h3. by apply lookup_app_l_Some, Hold2. }
  rewrite (load_val h3 p nd (Hold3 _ _ Hnd)). cbn [mbind outcome_bind].
  cbn [Indexes with_Indexes with_EnumValues with_Children Children EnumValues].
  rewrite (copy_strings_val 0 h3 (length h2) (length ix) (Indexes nd) ix);
    [|apply (strings_in_ext 0 h); [assumption|intros l o _; apply Hold3]
     |reflexivity|subst h3; by apply list_lookup_middle].
  cbn [mbind outcome_bind].
  set (h4 := <[length h2 := OStrings ix]> h3).
  assert (forall l o, h !! l = Some o -> h4 !! l = Some o) as Hold4.
  { intros l o Hl. subst h4. rewrite list_lookup_insert_ne; [by apply Hold3|].
    pose proof (lookup_lt_Some _ _ _ (Hold2 _ _ Hl)). lia. }
  rewrite (load_val h4 p nd (Hold4 _ _ Hnd)). cbn [mbind outcome_bind].
  rewrite Hs. cbn [slice_len].
  destruct (slen s) as [|n] eqn:En; [lia|]. cbn [children_loop].
  unfold pointer_at. rewrite En. cbn [Nat.ltb Nat.leb].
  rewrite (Hold4 _ _ Ha), Nat.add_0_r, Hp. cbn [mbind outcome_bind].
  rewrite (IH h4 Hold4). reflexivity.
Qed.

End no_tree.

(** X21.  [Copy] needs a tree.  On a node that is its own child the
    recursion does not end, whatever the fuel; on the [nil] pointer
    [Copy] panics. *)
Theorem Copy_needs_a_tree (growslice : nat -> nat)
    (range_order : gmap Z (list byte) -> list (Z * list byte))
    (h : store) (p : loc) (nd : Node) (s : slice_header)
    (a : list (option loc)) (ix : list (list byte)) :
  h !! p = Some (ONode nd) ->
  Children nd = Some s -> (0 < slen s)%nat ->
  h !! array s = Some (OPointers a) -> a !! offset s = Some (Some p) ->
  strings_in 0 h (Indexes nd) ix ->
  (forall fuel : nat, Copy growslice range_order fuel h (Some p) = OutOfFuel)
  /\ (forall fuel : nat, Copy growslice range_order (S fuel) h None = Panic).
Proof.
  intros Hnd Hs Hlen Ha Hp Hix. split; [|reflexivity].
  intros fuel.
  by apply (Copy_cycle growslice range_order h p nd s a ix).
Qed.

(** The theorem on the node that is its own child. *)
Lemma Copy_needs_a_tree_witness :
  Copy S map_to_list 1000 self_store (Some 0%nat) = OutOfFuel
  /\ Copy S map_to_list 1 self_store None = Panic.
Proof.
  destruct (Copy_needs_a_tree S map_to_list self_store 0%nat self_node
              (Slice 1 0 1 1) [Some 0%nat] []) as [Hcycle Hnil];
    try reflexivity.
  - cbn. lia.
  - split; [apply Hcycle|apply (Hnil 0%nat)].
Defined.

End deep_copy.
